(** * Verification of the Gymnasium adapter [BalatroEnv]

    Shallow embedding of [pylatro_ai/balatro_env.py]: the environment object
    is a record passed explicitly, the Rust engine is an interface (a type
    class), Python exceptions are an error result.

    Numbers.  Scores, money and rewards are Python numbers; they are embedded
    as exact rationals [Q], so the float constants [-0.01], [-0.5], [-10.0],
    [250.0] and [1000.0] stand for the rationals they denote and no rounding
    is modelled.  Counters are [Z]. *)

From Stdlib Require Import QArith Lqa.
From stdpp Require Import gmap strings list fin_maps.

Local Open Scope Z_scope.
Local Open Scope string_scope.

(** ** Module constants *)

Definition BLIND_COMPLETION_BASE_REWARD : Q := 1000%Q.
Definition STEP_REWARD : Q := (-1 # 100)%Q.

(** ** Python exceptions as results *)

Inductive PyErr :=
| AttributeError (attr : string)
| EngineError (what : string).

Inductive Result (A : Type) :=
| Ok (a : A)
| Raise (e : PyErr).
Arguments Ok {A} a.
Arguments Raise {A} e.

#[global] Instance result_ret : MRet Result := fun _ a => Ok a.
#[global] Instance result_bind : MBind Result := fun _ _ k m =>
  match m with
  | Ok a => k a
  | Raise e => Raise e
  end.

(** Reading an instance attribute that may not have been assigned yet. *)
Definition getattr {A} (name : string) (o : option A) : Result A :=
  match o with
  | Some a => Ok a
  | None => Raise (AttributeError name)
  end.

(** ** The engine's step result

    [actions] are the tuples [(index, description)]; the index is the
    engine's unsigned position of the choice. *)

Record StepResult := {
  status : string;
  phase : option string;
  actions : list (nat * string);
  finished : option string;
}.

(** [[action[0] for action in step_result.actions]] *)
Definition action_indices (sr : StepResult) : list nat := fst <$> actions sr.

(** ** The engine interface

    [engine_start seed deck stake] is the constructor followed by the
    deck/stake setters and [start_new_run_with_selections]; the engine may
    reject the deck or stake name.  [engine_step] is [engine.step(action)].
    [engine_game_state] is [game_state()] followed by [score()] and
    [money()]; [None] when any of them raises. *)

Class Engine (E : Type) := {
  engine_start : Z → string → string → option E;
  engine_step : E → option Z → StepResult * E;
  engine_game_state : E → option (Q * Q);
}.

(** ** The environment object *)

Record Env (E : Type) := {
  quiet : bool;
  seed : Z;
  deck_type_str : string;
  stake_level_str : string;
  max_episode_steps : Z;
  engine : option E;
  initial_score : Q;
  initial_money : Q;
  current_score : Q;
  current_money : Q;
  step_count : Z;
  blind_started : bool;
  blind_finished : bool;
  prev_phase : option string;
  previous_score : Q;
  previous_money : Q;
  last_valid_actions : list nat;
  blind_score_at_start : option Q;
  blind_money_at_start : option Q;
}.
Arguments quiet {E} _.
Arguments seed {E} _.
Arguments deck_type_str {E} _.
Arguments stake_level_str {E} _.
Arguments max_episode_steps {E} _.
Arguments engine {E} _.
Arguments initial_score {E} _.
Arguments initial_money {E} _.
Arguments current_score {E} _.
Arguments current_money {E} _.
Arguments step_count {E} _.
Arguments blind_started {E} _.
Arguments blind_finished {E} _.
Arguments prev_phase {E} _.
Arguments previous_score {E} _.
Arguments previous_money {E} _.
Arguments last_valid_actions {E} _.
Arguments blind_score_at_start {E} _.
Arguments blind_money_at_start {E} _.

(** ** Single-precision numbers

    [np.array(..., dtype=np.float32)] converts each entry to IEEE 754
    binary32, rounding to the nearest representable number, ties to the
    even significand.  The values of binary32 that a number can be
    converted to are the finite ones and the two infinities. *)

Inductive F32 :=
| F32Fin (q : Q)
| F32Inf (negative : bool).

(** [num / den / 2^k] as a fraction, for [0 < den]. *)
Definition scale2 (num den k : Z) : Z * Z :=
  if (0 <=? k)%Z then (num, den * 2 ^ k) else (num * 2 ^ (- k), den).

(** The integer nearest to [num / den], ties to even, for [0 <= num] and
    [0 < den]. *)
Definition round_half_even (num den : Z) : Z :=
  let q := num / den in
  match (2 * (num mod den) ?= den)%Z with
  | Lt => q
  | Gt => q + 1
  | Eq => if Z.even q then q else q + 1
  end.

(** [floor (log2 (num / den))], for [0 < num] and [0 < den]. *)
Definition floor_log2 (num den : Z) : Z :=
  let e := Z.log2 num - Z.log2 den in
  let '(n, d) := scale2 num den e in
  if (d <=? n)%Z then e else e - 1.

(** The binary32 nearest to [num / den], for [0 < num] and [0 < den]:
    24 significant bits, exponents from -126 (below that the spacing stays
    [2^-149]: subnormal numbers) to 127 (beyond that, infinity); [None]
    stands for the overflow. *)
Definition float32_magnitude (num den : Z) : option Q :=
  let e := Z.max (floor_log2 num den) (-126) in
  let k := e - 23 in
  let '(n, d) := scale2 num den k in
  let m := round_half_even n d in
  if (0 <=? k)%Z then
    if (2 ^ 128 <=? m * 2 ^ k)%Z then None else Some (inject_Z (m * 2 ^ k))
  else Some (Qred (m # Z.to_pos (2 ^ (- k)))).

(** [np.float32(q)] *)
Definition float32 (q : Q) : F32 :=
  match Qnum q with
  | 0%Z => F32Fin 0
  | Zpos n =>
      match float32_magnitude (Zpos n) (Zpos (Qden q)) with
      | Some x => F32Fin x
      | None => F32Inf false
      end
  | Zneg n =>
      match float32_magnitude (Zpos n) (Zpos (Qden q)) with
      | Some x => F32Fin (- x)
      | None => F32Inf true
      end
  end.

(** ** Observations and info dictionaries *)

Record Observation := {
  obs_phase : list Z;
  available_actions : list Z;
  game_info : list F32;
}.

Inductive PyVal :=
| VNone
| VStr (s : string)
| VInt (z : Z)
| VNum (q : Q)
| VBool (b : bool)
| VList (l : list nat).

#[global] Instance Q_eq_dec : EqDecision Q.
Proof. solve_decision. Defined.
#[global] Instance PyVal_eq_dec : EqDecision PyVal.
Proof. solve_decision. Defined.

Definition opt_str (o : option string) : PyVal :=
  match o with
  | Some s => VStr s
  | None => VNone
  end.

Record StepOut := {
  observation : Observation;
  reward : Q;
  terminated : bool;
  truncated : bool;
  info : gmap string PyVal;
}.

(** ** [__init__] *)

Definition phases : list string :=
  ["Shop"; "ShopPackSelection"; "BlindSelect"; "Playing"; "RoundEnd"; "GameOver"].

(** [{phase: i for i, phase in enumerate(phases)}] *)
Definition phase_to_idx : gmap string Z :=
  list_to_map (zip phases (Z.of_nat <$> seq 0 (length phases))).

(** The constructor, for a given seed (the random default is drawn by the
    caller). *)
Definition init {E} (seed0 : Z) (deck stake : string) (max_steps : Z)
    (quiet0 : bool) : Env E :=
  {| quiet := quiet0;
     seed := seed0;
     deck_type_str := deck;
     stake_level_str := stake;
     max_episode_steps := max_steps;
     engine := None;
     initial_score := 0;
     initial_money := 0;
     current_score := 0;
     current_money := 0;
     step_count := 0;
     blind_started := false;
     blind_finished := false;
     prev_phase := None;
     previous_score := 0;
     previous_money := 0;
     last_valid_actions := [];
     blind_score_at_start := None;
     blind_money_at_start := None |}.

(** ** Attribute assignment

    [set_f v st] is [self.f = v]: every other attribute is kept. *)

Definition set_seed {E} (v : Z) (st : Env E) : Env E :=
  {| quiet := quiet st;
     seed := v;
     deck_type_str := deck_type_str st;
     stake_level_str := stake_level_str st;
     max_episode_steps := max_episode_steps st;
     engine := engine st;
     initial_score := initial_score st;
     initial_money := initial_money st;
     current_score := current_score st;
     current_money := current_money st;
     step_count := step_count st;
     blind_started := blind_started st;
     blind_finished := blind_finished st;
     prev_phase := prev_phase st;
     previous_score := previous_score st;
     previous_money := previous_money st;
     last_valid_actions := last_valid_actions st;
     blind_score_at_start := blind_score_at_start st;
     blind_money_at_start := blind_money_at_start st |}.

Definition set_engine {E} (v : option E) (st : Env E) : Env E :=
  {| quiet := quiet st;
     seed := seed st;
     deck_type_str := deck_type_str st;
     stake_level_str := stake_level_str st;
     max_episode_steps := max_episode_steps st;
     engine := v;
     initial_score := initial_score st;
     initial_money := initial_money st;
     current_score := current_score st;
     current_money := current_money st;
     step_count := step_count st;
     blind_started := blind_started st;
     blind_finished := blind_finished st;
     prev_phase := prev_phase st;
     previous_score := previous_score st;
     previous_money := previous_money st;
     last_valid_actions := last_valid_actions st;
     blind_score_at_start := blind_score_at_start st;
     blind_money_at_start := blind_money_at_start st |}.

Definition set_initial_score {E} (v : Q) (st : Env E) : Env E :=
  {| quiet := quiet st;
     seed := seed st;
     deck_type_str := deck_type_str st;
     stake_level_str := stake_level_str st;
     max_episode_steps := max_episode_steps st;
     engine := engine st;
     initial_score := v;
     initial_money := initial_money st;
     current_score := current_score st;
     current_money := current_money st;
     step_count := step_count st;
     blind_started := blind_started st;
     blind_finished := blind_finished st;
     prev_phase := prev_phase st;
     previous_score := previous_score st;
     previous_money := previous_money st;
     last_valid_actions := last_valid_actions st;
     blind_score_at_start := blind_score_at_start st;
     blind_money_at_start := blind_money_at_start st |}.

Definition set_initial_money {E} (v : Q) (st : Env E) : Env E :=
  {| quiet := quiet st;
     seed := seed st;
     deck_type_str := deck_type_str st;
     stake_level_str := stake_level_str st;
     max_episode_steps := max_episode_steps st;
     engine := engine st;
     initial_score := initial_score st;
     initial_money := v;
     current_score := current_score st;
     current_money := current_money st;
     step_count := step_count st;
     blind_started := blind_started st;
     blind_finished := blind_finished st;
     prev_phase := prev_phase st;
     previous_score := previous_score st;
     previous_money := previous_money st;
     last_valid_actions := last_valid_actions st;
     blind_score_at_start := blind_score_at_start st;
     blind_money_at_start := blind_money_at_start st |}.

Definition set_current_score {E} (v : Q) (st : Env E) : Env E :=
  {| quiet := quiet st;
     seed := seed st;
     deck_type_str := deck_type_str st;
     stake_level_str := stake_level_str st;
     max_episode_steps := max_episode_steps st;
     engine := engine st;
     initial_score := initial_score st;
     initial_money := initial_money st;
     current_score := v;
     current_money := current_money st;
     step_count := step_count st;
     blind_started := blind_started st;
     blind_finished := blind_finished st;
     prev_phase := prev_phase st;
     previous_score := previous_score st;
     previous_money := previous_money st;
     last_valid_actions := last_valid_actions st;
     blind_score_at_start := blind_score_at_start st;
     blind_money_at_start := blind_money_at_start st |}.

Definition set_current_money {E} (v : Q) (st : Env E) : Env E :=
  {| quiet := quiet st;
     seed := seed st;
     deck_type_str := deck_type_str st;
     stake_level_str := stake_level_str st;
     max_episode_steps := max_episode_steps st;
     engine := engine st;
     initial_score := initial_score st;
     initial_money := initial_money st;
     current_score := current_score st;
     current_money := v;
     step_count := step_count st;
     blind_started := blind_started st;
     blind_finished := blind_finished st;
     prev_phase := prev_phase st;
     previous_score := previous_score st;
     previous_money := previous_money st;
     last_valid_actions := last_valid_actions st;
     blind_score_at_start := blind_score_at_start st;
     blind_money_at_start := blind_money_at_start st |}.

Definition set_step_count {E} (v : Z) (st : Env E) : Env E :=
  {| quiet := quiet st;
     seed := seed st;
     deck_type_str := deck_type_str st;
     stake_level_str := stake_level_str st;
     max_episode_steps := max_episode_steps st;
     engine := engine st;
     initial_score := initial_score st;
     initial_money := initial_money st;
     current_score := current_score st;
     current_money := current_money st;
     step_count := v;
     blind_started := blind_started st;
     blind_finished := blind_finished st;
     prev_phase := prev_phase st;
     previous_score := previous_score st;
     previous_money := previous_money st;
     last_valid_actions := last_valid_actions st;
     blind_score_at_start := blind_score_at_start st;
     blind_money_at_start := blind_money_at_start st |}.

Definition set_blind_started {E} (v : bool) (st : Env E) : Env E :=
  {| quiet := quiet st;
     seed := seed st;
     deck_type_str := deck_type_str st;
     stake_level_str := stake_level_str st;
     max_episode_steps := max_episode_steps st;
     engine := engine st;
     initial_score := initial_score st;
     initial_money := initial_money st;
     current_score := current_score st;
     current_money := current_money st;
     step_count := step_count st;
     blind_started := v;
     blind_finished := blind_finished st;
     prev_phase := prev_phase st;
     previous_score := previous_score st;
     previous_money := previous_money st;
     last_valid_actions := last_valid_actions st;
     blind_score_at_start := blind_score_at_start st;
     blind_money_at_start := blind_money_at_start st |}.

Definition set_blind_finished {E} (v : bool) (st : Env E) : Env E :=
  {| quiet := quiet st;
     seed := seed st;
     deck_type_str := deck_type_str st;
     stake_level_str := stake_level_str st;
     max_episode_steps := max_episode_steps st;
     engine := engine st;
     initial_score := initial_score st;
     initial_money := initial_money st;
     current_score := current_score st;
     current_money := current_money st;
     step_count := step_count st;
     blind_started := blind_started st;
     blind_finished := v;
     prev_phase := prev_phase st;
     previous_score := previous_score st;
     previous_money := previous_money st;
     last_valid_actions := last_valid_actions st;
     blind_score_at_start := blind_score_at_start st;
     blind_money_at_start := blind_money_at_start st |}.

Definition set_prev_phase {E} (v : option string) (st : Env E) : Env E :=
  {| quiet := quiet st;
     seed := seed st;
     deck_type_str := deck_type_str st;
     stake_level_str := stake_level_str st;
     max_episode_steps := max_episode_steps st;
     engine := engine st;
     initial_score := initial_score st;
     initial_money := initial_money st;
     current_score := current_score st;
     current_money := current_money st;
     step_count := step_count st;
     blind_started := blind_started st;
     blind_finished := blind_finished st;
     prev_phase := v;
     previous_score := previous_score st;
     previous_money := previous_money st;
     last_valid_actions := last_valid_actions st;
     blind_score_at_start := blind_score_at_start st;
     blind_money_at_start := blind_money_at_start st |}.

Definition set_previous_score {E} (v : Q) (st : Env E) : Env E :=
  {| quiet := quiet st;
     seed := seed st;
     deck_type_str := deck_type_str st;
     stake_level_str := stake_level_str st;
     max_episode_steps := max_episode_steps st;
     engine := engine st;
     initial_score := initial_score st;
     initial_money := initial_money st;
     current_score := current_score st;
     current_money := current_money st;
     step_count := step_count st;
     blind_started := blind_started st;
     blind_finished := blind_finished st;
     prev_phase := prev_phase st;
     previous_score := v;
     previous_money := previous_money st;
     last_valid_actions := last_valid_actions st;
     blind_score_at_start := blind_score_at_start st;
     blind_money_at_start := blind_money_at_start st |}.

Definition set_previous_money {E} (v : Q) (st : Env E) : Env E :=
  {| quiet := quiet st;
     seed := seed st;
     deck_type_str := deck_type_str st;
     stake_level_str := stake_level_str st;
     max_episode_steps := max_episode_steps st;
     engine := engine st;
     initial_score := initial_score st;
     initial_money := initial_money st;
     current_score := current_score st;
     current_money := current_money st;
     step_count := step_count st;
     blind_started := blind_started st;
     blind_finished := blind_finished st;
     prev_phase := prev_phase st;
     previous_score := previous_score st;
     previous_money := v;
     last_valid_actions := last_valid_actions st;
     blind_score_at_start := blind_score_at_start st;
     blind_money_at_start := blind_money_at_start st |}.

Definition set_last_valid_actions {E} (v : list nat) (st : Env E) : Env E :=
  {| quiet := quiet st;
     seed := seed st;
     deck_type_str := deck_type_str st;
     stake_level_str := stake_level_str st;
     max_episode_steps := max_episode_steps st;
     engine := engine st;
     initial_score := initial_score st;
     initial_money := initial_money st;
     current_score := current_score st;
     current_money := current_money st;
     step_count := step_count st;
     blind_started := blind_started st;
     blind_finished := blind_finished st;
     prev_phase := prev_phase st;
     previous_score := previous_score st;
     previous_money := previous_money st;
     last_valid_actions := v;
     blind_score_at_start := blind_score_at_start st;
     blind_money_at_start := blind_money_at_start st |}.

Definition set_blind_score_at_start {E} (v : option Q) (st : Env E) : Env E :=
  {| quiet := quiet st;
     seed := seed st;
     deck_type_str := deck_type_str st;
     stake_level_str := stake_level_str st;
     max_episode_steps := max_episode_steps st;
     engine := engine st;
     initial_score := initial_score st;
     initial_money := initial_money st;
     current_score := current_score st;
     current_money := current_money st;
     step_count := step_count st;
     blind_started := blind_started st;
     blind_finished := blind_finished st;
     prev_phase := prev_phase st;
     previous_score := previous_score st;
     previous_money := previous_money st;
     last_valid_actions := last_valid_actions st;
     blind_score_at_start := v;
     blind_money_at_start := blind_money_at_start st |}.

Definition set_blind_money_at_start {E} (v : option Q) (st : Env E) : Env E :=
  {| quiet := quiet st;
     seed := seed st;
     deck_type_str := deck_type_str st;
     stake_level_str := stake_level_str st;
     max_episode_steps := max_episode_steps st;
     engine := engine st;
     initial_score := initial_score st;
     initial_money := initial_money st;
     current_score := current_score st;
     current_money := current_money st;
     step_count := step_count st;
     blind_started := blind_started st;
     blind_finished := blind_finished st;
     prev_phase := prev_phase st;
     previous_score := previous_score st;
     previous_money := previous_money st;
     last_valid_actions := last_valid_actions st;
     blind_score_at_start := blind_score_at_start st;
     blind_money_at_start := v |}.

(** ** The adapter's methods *)

Section Adapter.
Context {E : Type} `{Engine E}.

(** Python truthiness of a string-or-[None] value. *)
Definition truthy (o : option string) : bool :=
  match o with
  | Some s => negb (bool_decide (s = ""))
  | None => false
  end.

(** [step_result.phase == name] *)
Definition phase_is (sr : StepResult) (name : string) : bool :=
  bool_decide (phase sr = Some name).

(** [_reset_engine]: build and start a fresh engine, then reset the
    tracking variables listed in its body.  [engine_start] stands for the
    constructor, the two selections and the guarded start of the run,
    taken together; what a failure at each of these points leaves behind is
    in [reachable] below. *)
Definition reset_engine (st : Env E) : Result (Env E) :=
  match engine_start (seed st) (deck_type_str st) (stake_level_str st) with
  | None => Raise (EngineError "start")
  | Some e =>
      let st := set_engine (Some e) st in
      let st := set_initial_score 0%Q st in
      let st := set_initial_money 0%Q st in
      let st := set_current_score 0%Q st in
      let st := set_current_money 0%Q st in
      let st := set_step_count 0 st in
      let st := set_previous_score 0%Q st in
      let st := set_previous_money 0%Q st in
      let st := set_prev_phase None st in
      let st := set_last_valid_actions [] st in
      Ok st
  end.

(** [_get_game_info]: the dictionary literal, values as numbers. *)
Definition get_game_info (st : Env E) : gmap string Q :=
  <["score" := current_score st]>
  (<["previous_score" := previous_money st]>
  (<["money" := current_money st]>
  (<["previous_money" := previous_money st]>
  (<["ante" := 1%Q]>
  (<["round" := 1%Q]>
  (<["hands_remaining" := 4%Q]>
  (<["discards_remaining" := 3%Q]>
  (<["blind_started" := if blind_started st then 1%Q else 0%Q]>
  (<["blind_finished" := if blind_finished st then 1%Q else 0%Q]>
  (<["step_count" := inject_Z (step_count st)]>
  (<["phase_idx" := 0%Q]> ∅))))))))))).

(** [d[key]] on a dictionary of numbers; every key read below is present
    (lemma [game_info_keys]). *)
Definition getitem (d : gmap string Q) (key : string) : Q :=
  default 0%Q (d !! key).

(** The loop body [if action_idx < 100: available_actions[action_idx] = 1]. *)
Definition mark_action (mask : list Z) (action_idx : nat) : list Z :=
  if bool_decide (action_idx < 100)%nat then <[action_idx := 1]> mask else mask.

(** [_extract_observation] *)
Definition extract_observation (st : Env E) (sr : StepResult) : Observation :=
  let phase_idx :=
    if truthy (phase sr)
    then default 0 (phase ← phase sr; phase_to_idx !! phase)
    else 0 in
  let available_actions := replicate 100 0 in
  let valid_actions := action_indices sr in
  let available_actions := foldl mark_action available_actions valid_actions in
  let game_info_dict := get_game_info st in
  let game_info_dict := <["phase_idx" := inject_Z phase_idx]> game_info_dict in
  let game_info := float32 <$>
    [ getitem game_info_dict "score";
      getitem game_info_dict "money";
      getitem game_info_dict "ante";
      getitem game_info_dict "round";
      getitem game_info_dict "hands_remaining";
      getitem game_info_dict "discards_remaining";
      getitem game_info_dict "blind_started";
      getitem game_info_dict "blind_finished";
      getitem game_info_dict "step_count";
      inject_Z phase_idx ] in
  {| obs_phase := [phase_idx];
     available_actions := available_actions;
     game_info := game_info |}.

(** [max(0, x)]: the second argument wins only when strictly greater. *)
Definition max0 (x : Q) : Q := if Qle_bool x 0 then 0%Q else x.

(** The condition of the bonus branch of [_calculate_reward]. *)
Definition blind_bonus_due (st : Env E) (sr : StepResult) : bool :=
  phase_is sr "RoundEnd" && blind_started st && blind_finished st.

(** [_calculate_reward] *)
Definition calculate_reward (st : Env E) (sr : StepResult) : Q :=
  let score_reward := max0 (current_score st - previous_score st) in
  let money_reward := (max0 (current_money st - previous_money st) * 250)%Q in
  let total_reward := (score_reward + money_reward + STEP_REWARD)%Q in
  if blind_bonus_due st sr
  then (total_reward + BLIND_COMPLETION_BASE_REWARD)%Q
  else total_reward.

(** [_is_done] *)
Definition is_done (st : Env E) (sr : StepResult) : bool :=
  if bool_decide (status sr = "Finished") then true
  else if phase_is sr "RoundEnd" && blind_started st then true
  else if bool_decide (max_episode_steps st ≤ step_count st)%Z then true
  else false.

(** [_try_get_score_money]: a pair of values, both [None] on failure. *)
Definition try_get_score_money (e : E) : option Q * option Q :=
  match engine_game_state e with
  | Some (score, money) => (Some score, Some money)
  | None => (None, None)
  end.

(** The tracking block of [step]: one arm of the [if]/[elif] chain runs,
    chosen by the new phase, the previous phase and [blind_started].  [e] is
    the engine after the call of this step. *)
Definition update_tracking (st : Env E) (e : E) (sr : StepResult)
    : Result (Env E) :=
  if phase_is sr "BlindSelect" then
    let st := set_blind_started false st in
    let st := set_blind_finished false st in
    Ok st
  else if phase_is sr "Playing"
          && negb (bool_decide (prev_phase st = Some "Playing")) then
    let st := set_blind_started true st in
    match try_get_score_money e with
    | (Some score, Some money) =>
        let st := set_blind_score_at_start (Some score) st in
        let st := set_blind_money_at_start (Some money) st in
        Ok st
    | _ =>
        let st := set_blind_score_at_start (Some (current_score st)) st in
        let st := set_blind_money_at_start (Some (current_money st)) st in
        Ok st
    end
  else if phase_is sr "RoundEnd" && blind_started st then
    let st := set_blind_finished true st in
    match try_get_score_money e with
    | (Some score, Some money) =>
        score0 ← getattr "blind_score_at_start" (blind_score_at_start st);
        let st := set_current_score (score - score0)%Q st in
        money0 ← getattr "blind_money_at_start" (blind_money_at_start st);
        let st := set_current_money (money - money0)%Q st in
        Ok st
    | _ => Ok st
    end
  else if phase_is sr "Playing" && blind_started st then
    match try_get_score_money e with
    | (Some score, Some money) =>
        score0 ← getattr "blind_score_at_start" (blind_score_at_start st);
        let st := set_current_score (score - score0)%Q st in
        money0 ← getattr "blind_money_at_start" (blind_money_at_start st);
        let st := set_current_money (money - money0)%Q st in
        Ok st
    | _ => Ok st
    end
  else Ok st.

(** The action filter at the head of [step]: the action handed to the
    engine and the penalty. *)
Definition map_action (action : Z) (valid : list nat) : Z * Q :=
  if negb (bool_decide (action ∈ Z.of_nat <$> valid)) then
    match valid with
    | first :: _ => (Z.of_nat first, (-10)%Q)
    | [] => (0, (-1 # 2)%Q)
    end
  else (action, 0%Q).

(** [reset], as far as the call proceeds once the guard around the probe
    is set up and the engine answers; the states a raising call leaves are
    in [reachable] below. *)
Definition reset (st : Env E) (seed0 : option Z)
    : Result (Env E * (Observation * gmap string PyVal)) :=
  let st := match seed0 with
            | Some s => set_seed s st
            | None => st
            end in
  st ← reset_engine st;
  e ← getattr "step" (engine st);
  let '(step_result, e) := engine_step e None in
  let st := set_engine (Some e) st in
  let observation := extract_observation st step_result in
  let st := set_last_valid_actions (action_indices step_result) st in
  let info : gmap string PyVal :=
    <["phase" := opt_str (phase step_result)]>
    (<["status" := VStr (status step_result)]>
    (<["valid_actions" := VList (last_valid_actions st)]> ∅)) in
  let st := set_prev_phase (phase step_result) st in
  Ok (st, (observation, info)).

(** [step], as far as the call proceeds once the guard around the engine
    call is set up and the engine answers.  The call with its guard, with
    an engine that prints and may raise, and with the state an exception
    leaves behind, is [step_guarded] below, which returns what [step]
    computes whenever it returns. *)
Definition step (st : Env E) (action : Z) : Result (Env E * StepOut) :=
  let st := set_step_count (step_count st + 1) st in
  let '(mapped_action, invalid_action_penalty) :=
    map_action action (last_valid_actions st) in
  e ← getattr "step" (engine st);
  let '(step_result, e) := engine_step e (Some mapped_action) in
  let st := set_engine (Some e) st in
  st ← update_tracking st e step_result;
  let st := set_prev_phase (phase step_result) st in
  let observation := extract_observation st step_result in
  let st := set_last_valid_actions (action_indices step_result) st in
  let reward := calculate_reward st step_result in
  let st := set_previous_score (current_score st) st in
  let st := set_previous_money (current_money st) st in
  let reward := (reward + invalid_action_penalty)%Q in
  let terminated := is_done st step_result in
  let truncated := false in
  let info : gmap string PyVal :=
    <["phase" := opt_str (phase step_result)]>
    (<["status" := VStr (status step_result)]>
    (<["score" := VNum (current_score st)]>
    (<["money" := VNum (current_money st)]>
    (<["action_mapped" := VBool (negb (bool_decide (action = mapped_action)))]>
    (<["original_action" := VInt action]>
    (<["mapped_action" := VInt mapped_action]>
    (<["valid_actions" := VList (last_valid_actions st)]>
    (<["finished" := opt_str (finished step_result)]> ∅)))))))) in
  Ok (st, {| observation := observation;
             reward := reward;
             terminated := terminated;
             truncated := truncated;
             info := info |}).

(** [close] *)
Definition close (st : Env E) : Env E := set_engine None st.

End Adapter.

(** ** A scripted engine

    An engine whose run is a fixed list of decision points, each with the
    snapshot [game_state()] would report there ([None]: the query raises).
    The head of the list is the current decision point; a probe
    ([step(None)]) reads it, an action moves to the next one.  Used to run
    the adapter on concrete inputs. *)

Module Scripted.

Record Frame := {
  frame_result : StepResult;
  frame_snapshot : option (Q * Q);
}.

Definition game_over : StepResult :=
  {| status := "Finished"; phase := Some "GameOver"; actions := [];
     finished := Some "Lost" |}.

Definition current (script : list Frame) : StepResult :=
  match script with
  | f :: _ => frame_result f
  | [] => game_over
  end.

Definition decision (ph : string) (acts : list (nat * string)) : StepResult :=
  {| status := "NeedsInput"; phase := Some ph; actions := acts;
     finished := None |}.

(** One blind of a run: select the blind, play twice, reach the end of the
    round, then the shop. *)
Definition one_blind : list Frame :=
  [ {| frame_result := decision "BlindSelect" [(0, "Skip"); (1, "Play")]%nat;
       frame_snapshot := Some (0, 4)%Q |};
    {| frame_result := decision "Playing" [(0, "Play"); (2, "Card")]%nat;
       frame_snapshot := Some (0, 4)%Q |};
    {| frame_result := decision "Playing" [(0, "Play"); (1, "Discard")]%nat;
       frame_snapshot := Some (120, 4)%Q |};
    {| frame_result := decision "RoundEnd" [(0, "Continue")]%nat;
       frame_snapshot := Some (300, 7)%Q |};
    {| frame_result := decision "Shop" [(0, "Leave")]%nat;
       frame_snapshot := Some (300, 7)%Q |} ].

(** The same run on an engine without [game_state()]. *)
Definition no_snapshot (script : list Frame) : list Frame :=
  (fun f => {| frame_result := frame_result f; frame_snapshot := None |})
    <$> script.

(** An engine that offers no choice at its first decision point. *)
Definition no_choice : list Frame :=
  [ {| frame_result := decision "BlindSelect" []; frame_snapshot := None |};
    {| frame_result := decision "Playing" [(0, "Play")]%nat;
       frame_snapshot := None |} ].

(** The deck name selects the script; unknown decks are rejected, as the
    engine's [DeckType] constructor does. *)
Definition start (seed : Z) (deck stake : string) : option (list Frame) :=
  if bool_decide (deck = "Red") then Some one_blind
  else if bool_decide (deck = "Blue") then Some (no_snapshot one_blind)
  else if bool_decide (deck = "Yellow") then Some no_choice
  else None.

#[global] Instance engine : Engine (list Frame) := {
  engine_start := start;
  engine_step script action :=
    match action with
    | None => (current script, script)
    | Some _ => (current (tail script), tail script)
    end;
  engine_game_state script :=
    match script with
    | f :: _ => frame_snapshot f
    | [] => None
    end;
}.

(** [BalatroEnv(seed=12345, deck_type=deck)] *)
Definition env (deck : string) : Env (list Frame) :=
  init 12345 deck "White" 1000 true.

(** The environment after [reset()], and after [reset()] followed by the
    given actions (the environment itself when a call raises). *)
Definition fresh (deck : string) : Env (list Frame) :=
  match reset (env deck) None with
  | Ok (st, _) => st
  | Raise _ => env deck
  end.

Definition null_out : StepOut :=
  {| observation := {| obs_phase := []; available_actions := [];
                       game_info := [] |};
     reward := 0%Q; terminated := false; truncated := false; info := ∅ |}.

Definition after (st : Env (list Frame)) (action : Z)
    : Env (list Frame) * StepOut :=
  match step st action with
  | Ok r => r
  | Raise _ => (st, null_out)
  end.

Definition played (deck : string) (acts : list Z) : Env (list Frame) :=
  foldl (λ st action, (after st action).1) (fresh deck) acts.

(** Concrete environments: just after [reset()] on each deck, and in the
    [Playing] phase after the blind was selected. *)
Definition at_blind_select : Env (list Frame) :=
  Eval vm_compute in fresh "Red".
Definition at_playing : Env (list Frame) :=
  Eval vm_compute in played "Red" [1].
Definition at_no_choice : Env (list Frame) :=
  Eval vm_compute in fresh "Yellow".
Definition at_last_hand : Env (list Frame) :=
  Eval vm_compute in played "Red" [1; 999].
Definition at_round_end : Env (list Frame) :=
  Eval vm_compute in played "Red" [1; 999; 0].
Definition at_blind_select_blind : Env (list Frame) :=
  Eval vm_compute in fresh "Blue".

(** The engine's answers along the scripted run. *)
Definition answer_playing : StepResult * list Frame :=
  (current (tail one_blind), tail one_blind).
Definition answer_round_end : StepResult * list Frame :=
  (current (tail (tail (tail one_blind))),
   tail (tail (tail one_blind))).

End Scripted.

(** ** Vocabulary for the statements *)

Section Vocabulary.
Context {E : Type} `{Engine E}.
Implicit Types (st : Env E) (sr : StepResult) (action : Z).

(** The environment as the tracking block of [step] finds it: the counter
    incremented and the engine advanced to [e]. *)
Definition tracked st (e : E) : Env E :=
  set_engine (Some e) (set_step_count (step_count st + 1) st).

(** The assignments of [step] that follow the tracking block. *)
Definition finish_step (st1 : Env E) sr : Env E :=
  let st := set_prev_phase (phase sr) st1 in
  let st := set_last_valid_actions (action_indices sr) st in
  let st := set_previous_score (current_score st) st in
  set_previous_money (current_money st) st.

(** The action [step] hands to the engine, and the penalty it charges. *)
Definition effective_action st action : Z :=
  (map_action action (last_valid_actions st)).1.
Definition remap_penalty st action : Q :=
  (map_action action (last_valid_actions st)).2.

(** The engine's answer to [step st action]: its result, the engine after
    the call, and the snapshot it then reports. *)
Definition engine_answer st action : option (StepResult * E) :=
  e ← engine st; Some (engine_step e (Some (effective_action st action))).

(** The reward formula of the specification, without the remap penalty:
    gains in score and money since the previous step, the step penalty and
    the blind bonus.  [st] is the environment before the step, [st'] after. *)
Definition blind_bonus (st' : Env E) sr : Q :=
  if blind_bonus_due st' sr then 1000%Q else 0%Q.
Definition gain_reward st (st' : Env E) : Q :=
  (max0 (current_score st' - previous_score st)
   + 250 * max0 (current_money st' - previous_money st))%Q.
Definition shaped_reward st (st' : Env E) sr : Q :=
  (gain_reward st st' - (1 # 100) + blind_bonus st' sr)%Q.

(** What the refresh of [current_score]/[current_money] does when the
    tracking block runs on [st] and ends in [st1]: with a snapshot, the
    absolute values minus the baselines; without one, nothing. *)
Definition refreshed (st st1 : Env E) (e : E) : Prop :=
  match engine_game_state e with
  | Some (score, money) =>
      ∃ score0 money0,
        blind_score_at_start st = Some score0 ∧
        blind_money_at_start st = Some money0 ∧
        current_score st1 = (score - score0)%Q ∧
        current_money st1 = (money - money0)%Q
  | None =>
      current_score st1 = current_score st ∧
      current_money st1 = current_money st
  end.

(** What the capture of the baselines does: the snapshot when there is
    one, the tracked values otherwise. *)
Definition captured (st st1 : Env E) (e : E) : Prop :=
  match engine_game_state e with
  | Some (score, money) =>
      blind_score_at_start st1 = Some score ∧
      blind_money_at_start st1 = Some money
  | None =>
      blind_score_at_start st1 = Some (current_score st) ∧
      blind_money_at_start st1 = Some (current_money st)
  end.

(** Every baseline read by the tracking block has been assigned. *)
Definition baselines_set st : Prop :=
  blind_started st = true →
  is_Some (blind_score_at_start st) ∧ is_Some (blind_money_at_start st).

(** Running [step] on a list of actions, collecting the environment and the
    output after each step. *)
Fixpoint run_steps st (acts : list Z) : Result (list (Env E * StepOut)) :=
  match acts with
  | [] => Ok []
  | action :: acts =>
      '(st', out) ← step st action;
      rest ← run_steps st' acts;
      Ok ((st', out) :: rest)
  end.


(** An episode: consecutive steps of which none before the last one
    terminated. *)
Definition episode (steps : list (Env E * StepOut)) : Prop :=
  ∀ i rec, steps !! i = Some rec → (S i < length steps)%nat →
    terminated rec.2 = false.

(** The blind cycle a recorded step belongs to: the number of entries into
    [BlindSelect] up to and including it. *)
Definition blind_cycle (steps : list (Env E * StepOut)) (i : nat) : nat :=
  length (filter (λ rec, info rec.2 !! "phase" = Some (VStr "BlindSelect"))
            (take (S i) steps)).

End Vocabulary.

(** The remap contract as the specification words it, for one step: in
    both remap branches the step is reported as remapped. *)
Definition remap_contract_as_stated {E} `{Engine E} (st : Env E)
    (action : Z) : Prop :=
  ∀ st' out sr e1,
    step st action = Ok (st', out) →
    engine_answer st action = Some (sr, e1) →
    let valid := last_valid_actions st in
    (action ∈ Z.of_nat <$> valid →
       effective_action st action = action ∧
       remap_penalty st action = 0%Q ∧
       info out !! "action_mapped" = Some (VBool false)) ∧
    (action ∉ Z.of_nat <$> valid → ∀ first rest, valid = first :: rest →
       effective_action st action = Z.of_nat first ∧
       remap_penalty st action = (-10)%Q ∧
       info out !! "action_mapped" = Some (VBool true)) ∧
    (valid = [] →
       effective_action st action = 0 ∧
       remap_penalty st action = (-1 # 2)%Q ∧
       info out !! "action_mapped" = Some (VBool true)).

(** The observation encoding in the specification's words: the index of
    the phase name in the list of six phases, 0 when the phase is absent or
    not one of them; booleans as 0/1. *)
Definition phase_index (sr : StepResult) : Z :=
  match phase sr with
  | Some name => default 0 (phase_to_idx !! name)
  | None => 0
  end.

Definition flag (b : bool) : Q := if b then 1%Q else 0%Q.

Definition action_bit (valid : list nat) (i : nat) : Z :=
  if bool_decide (i ∈ valid) then 1 else 0.

Section ResetVocabulary.
Context {E : Type} `{Engine E}.
Implicit Types (st : Env E) (sr : StepResult).

(** The seed [reset] starts the engine with. *)
Definition reset_seed st (seed0 : option Z) : Z := default (seed st) seed0.

(** The engine's answer to the probe of [reset]: the first decision point
    and the engine holding it. *)
Definition probe_answer st (seed0 : option Z) : option (StepResult * E) :=
  e ← engine_start (reset_seed st seed0) (deck_type_str st)
       (stake_level_str st);
  Some (engine_step e None).

(** C5 as the specification states it: after [reset] the tracked state is
    the one of a fresh environment with the probe result applied. *)
Definition reset_restores_as_stated st (seed0 : option Z) : Prop :=
  ∀ st' out sr e1,
    reset st seed0 = Ok (st', out) →
    probe_answer st seed0 = Some (sr, e1) →
    current_score st' = 0%Q ∧ current_money st' = 0%Q ∧
    previous_score st' = 0%Q ∧ previous_money st' = 0%Q ∧
    step_count st' = 0 ∧
    last_valid_actions st' = action_indices sr ∧
    prev_phase st' = phase sr ∧
    blind_started st' = false ∧ blind_finished st' = false.

(** The fields the specification lists for [Info]. *)
Definition info_fields : list string :=
  ["phase"; "status"; "valid_actions"; "score"; "money"; "action_mapped";
   "original_action"; "mapped_action"; "finished"].

Definition info_complete (inf : gmap string PyVal) : Prop :=
  ∀ key, key ∈ info_fields → is_Some (inf !! key).

(** C9 as the specification states it, for the info of one [reset]. *)
Definition reset_info_as_stated st (seed0 : option Z) : Prop :=
  ∀ st' obs inf, reset st seed0 = Ok (st', (obs, inf)) → info_complete inf.

End ResetVocabulary.

Section ResetStates.
Context {E : Type} `{Engine E}.

(** The environment [_reset_engine] leaves, around the fresh engine [e]. *)
Definition reset_tracking (st : Env E) (e : E) : Env E :=
  set_last_valid_actions [] (set_prev_phase None
    (set_previous_money 0%Q (set_previous_score 0%Q
      (set_step_count 0 (set_current_money 0%Q (set_current_score 0%Q
        (set_initial_money 0%Q (set_initial_score 0%Q
          (set_engine (Some e) st))))))))).

(** The assignments of [reset] after the probe answered [(sr, e1)]. *)
Definition finish_reset (st1 : Env E) (sr : StepResult) (e1 : E) : Env E :=
  set_prev_phase (phase sr)
    (set_last_valid_actions (action_indices sr) (set_engine (Some e1) st1)).

(** The environment with the seed argument of [reset] stored. *)
Definition seeded (st : Env E) (seed0 : option Z) : Env E :=
  match seed0 with
  | Some s => set_seed s st
  | None => st
  end.

End ResetStates.

(** ** Whole-object vocabulary *)

Section Lifecycle.
Context {E : Type} `{Engine E}.
Implicit Types (st : Env E) (sr : StepResult).

(** The info dictionary of [reset]. *)
Definition reset_info sr : gmap string PyVal :=
  <["phase" := opt_str (phase sr)]>
  (<["status" := VStr (status sr)]>
  (<["valid_actions" := VList (action_indices sr)]> ∅)).

(** The environments a program can hold: a constructed one, and whatever
    [reset], [step] and [close] make of one, when they return and when they
    raise.  A [step] that raises (in the guarded engine call) has
    incremented the counter, and its engine, if there is one, is in
    whatever state [f] the failed call left it.  A [reset] that raises has
    stored the seed and, depending on how far it got, assigned an engine
    ([_reset_engine] raised at or after the constructor) or also reset the
    tracking variables (the guarded probe raised); the engine it leaves is
    not determined here. *)
Inductive reachable : Env E → Prop :=
| reach_init seed0 deck stake max_steps quiet0 :
    reachable (init seed0 deck stake max_steps quiet0)
| reach_reset st seed0 st' out :
    reachable st → reset st seed0 = Ok (st', out) → reachable st'
| reach_step st action st' out :
    reachable st → step st action = Ok (st', out) → reachable st'
| reach_close st :
    reachable st → reachable (close st)
| reach_step_raised st (f : E → E) :
    reachable st →
    reachable (set_engine (f <$> engine st)
                 (set_step_count (step_count st + 1) st))
| reach_reset_raised st seed0 (e : option E) :
    reachable st → reachable (set_engine e (seeded st seed0))
| reach_probe_raised st seed0 (e : E) :
    reachable st → reachable (reset_tracking (seeded st seed0) e).

(** [blind_finished] is only ever set on a started blind. *)
Definition flags_ordered st : Prop :=
  blind_finished st = true → blind_started st = true.

End Lifecycle.

(** * The logging callback wrapper ([train_balatro_ppo.py], [SafeWandbCallback]) *)

Module SafeWandb.

(** What one call of a method of the wrapped callback does: it returns a
    value, raises an [Exception] (carrying the name of its type), or raises
    something outside [Exception] (a [KeyboardInterrupt], a [SystemExit]). *)
Inductive Outcome :=
| Returns (b : bool)
| Fails (name : string)
| Escapes.

(** The four hooks the wrapper overrides. *)
Inductive Hook :=
| OnStep
| OnTrainingEnd
| OnRolloutEnd
| OnRolloutStart.

(** What a hook of the wrapper gives back to the training loop. *)
Inductive Reply :=
| Value (b : bool)      (* [_on_step] returned [b] *)
| Nothing               (* a hook without a result returned *)
| Propagates.           (* the exception left the wrapper *)

(** What a call does beside its reply. *)
Inductive Event :=
| Invoked (h : Hook)            (* the wrapped callback's method was called *)
| Warned (name : string)        (* "Warning: WandB logging error (suppressing): <name>" *)
| DisabledNotice (n : Z).       (* "WandB logging disabled after <n> errors" *)

Record SafeWandbCallback := {
  error_count : Z;
  max_errors : Z;
  disabled : bool;
}.

Definition init : SafeWandbCallback :=
  {| error_count := 0; max_errors := 10; disabled := false |}.

Definition set_error_count (n : Z) (self : SafeWandbCallback) :=
  {| error_count := n; max_errors := max_errors self;
     disabled := disabled self |}.

Definition set_disabled (b : bool) (self : SafeWandbCallback) :=
  {| error_count := error_count self; max_errors := max_errors self;
     disabled := b |}.

(** [_on_step]: the reply of the wrapped callback is passed on; an
    [Exception] is counted, reported the first three times, and switches the
    wrapper off at [max_errors]. *)
Definition on_step (self : SafeWandbCallback) (wrapped : Outcome)
  : SafeWandbCallback * Reply * list Event :=
  if disabled self then (self, Value true, [])
  else
    match wrapped with
    | Returns b => (self, Value b, [Invoked OnStep])
    | Escapes => (self, Propagates, [Invoked OnStep])
    | Fails name =>
        let self1 := set_error_count (error_count self + 1) self in
        let warning :=
          if (error_count self1 <=? 3)%Z then [Warned name] else [] in
        if (max_errors self1 <=? error_count self1)%Z then
          (set_disabled true self1, Value true,
           (Invoked OnStep :: warning ++ [DisabledNotice (max_errors self1)])%list)
        else
          (self1, Value true, Invoked OnStep :: warning)
    end.

(** [_on_training_end], [_on_rollout_end], [_on_rollout_start]: the same
    body each, on the method of the same name. *)
Definition on_quiet_hook (h : Hook) (self : SafeWandbCallback)
    (wrapped : Outcome) : SafeWandbCallback * Reply * list Event :=
  if disabled self then (self, Nothing, [])
  else
    match wrapped with
    | Returns _ => (self, Nothing, [Invoked h])
    | Fails _ => (self, Nothing, [Invoked h])
    | Escapes => (self, Propagates, [Invoked h])
    end.

Definition call (h : Hook) (self : SafeWandbCallback) (wrapped : Outcome)
  : SafeWandbCallback * Reply * list Event :=
  match h with
  | OnStep => on_step self wrapped
  | _ => on_quiet_hook h self wrapped
  end.

(** A training run seen from the wrapper: the hooks called on it, in
    order, each with what the wrapped callback would do if reached. *)
Fixpoint run (self : SafeWandbCallback) (calls : list (Hook * Outcome))
  : SafeWandbCallback * list Reply * list Event :=
  match calls with
  | [] => (self, [], [])
  | (h, wrapped) :: rest =>
      let '(self1, reply, events) := call h self wrapped in
      let '(self2, replies, later) := run self1 rest in
      (self2, reply :: replies, (events ++ later)%list)
  end.

(** The number of [_on_step] calls in which the wrapped callback would raise
    an [Exception]. *)
Definition step_failure (c : Hook * Outcome) : bool :=
  match c with
  | (OnStep, Fails _) => true
  | _ => false
  end.

Definition failures (calls : list (Hook * Outcome)) : Z :=
  Z.of_nat (length (filter (λ c, step_failure c = true) calls)).

Definition is_warning (e : Event) : bool :=
  match e with Warned _ => true | _ => false end.

Definition is_notice (e : Event) : bool :=
  match e with DisabledNotice _ => true | _ => false end.

Definition is_invocation (e : Event) : bool :=
  match e with Invoked _ => true | _ => false end.

Definition count (f : Event → bool) (events : list Event) : Z :=
  Z.of_nat (length (filter (λ e, f e = true) events)).

(** The state the wrapper's counters are in between calls. *)
Definition consistent (self : SafeWandbCallback) : Prop :=
  max_errors self = 10 ∧
  (0 ≤ error_count self ≤ 10)%Z ∧
  disabled self = bool_decide (10 ≤ error_count self)%Z.

End SafeWandb.

(** * The output guard ([balatro_env.py], [_suppress_output]) *)

Module Guard.

(** An open file description: one the process had before the guard was
    entered (told apart by a number), or [/dev/null] opened for writing. *)
Inductive Desc :=
| Inherited (n : nat)
| DevNull.

#[global] Instance Desc_eq_dec : EqDecision Desc.
Proof. solve_decision. Defined.

(** A Python file object, by the descriptor it owns. *)
Record PyFile := { fileno : nat }.

(** Exceptions: [OSError] from a system call, another [Exception] raised by
    the guarded block, or one outside [Exception] ([KeyboardInterrupt]). *)
Inductive Exn :=
| OSError (errno : string)
| OtherException (name : string)
| NotException (name : string).

Definition is_Exception (e : Exn) : bool :=
  match e with
  | NotException _ => false
  | _ => true
  end.

(** The part of the process the guard works on: the descriptor table with
    the limit on descriptor numbers, [sys.stdout] and [sys.stderr], and,
    to observe the effect, what has been written to each description. *)
Record Proc := {
  fds : gmap nat Desc;
  limit : nat;
  sys_stdout : PyFile;
  sys_stderr : PyFile;
  sink : list (Desc * string);
}.

Definition set_fds (t : gmap nat Desc) (p : Proc) : Proc :=
  {| fds := t; limit := limit p; sys_stdout := sys_stdout p;
     sys_stderr := sys_stderr p; sink := sink p |}.

Definition set_sys_stdout (f : PyFile) (p : Proc) : Proc :=
  {| fds := fds p; limit := limit p; sys_stdout := f;
     sys_stderr := sys_stderr p; sink := sink p |}.

Definition set_sys_stderr (f : PyFile) (p : Proc) : Proc :=
  {| fds := fds p; limit := limit p; sys_stdout := sys_stdout p;
     sys_stderr := f; sink := sink p |}.

Definition set_sink (s : list (Desc * string)) (p : Proc) : Proc :=
  {| fds := fds p; limit := limit p; sys_stdout := sys_stdout p;
     sys_stderr := sys_stderr p; sink := s |}.

Inductive Res (A : Type) :=
| Done (a : A)
| Raised (e : Exn).
Arguments Done {A} _.
Arguments Raised {A} _.

Definition Io (A : Type) : Type := Proc → Res A * Proc.

#[global] Instance io_ret : MRet Io := λ A a p, (Done a, p).

#[global] Instance io_bind : MBind Io := λ A B k m p,
  match m p with
  | (Done a, p1) => k a p1
  | (Raised e, p1) => (Raised e, p1)
  end.

Definition raise {A} (e : Exn) : Io A := λ p, (Raised e, p).

(** [try: body finally: fin]. *)
Definition try_finally {A} (body : Io A) (fin : Io unit) : Io A := λ p,
  match body p with
  | (r, p1) =>
      match fin p1 with
      | (Done _, p2) => (r, p2)
      | (Raised e, p2) => (Raised e, p2)
      end
  end.

(** [try: body except Exception: handler]. *)
Definition try_except_Exception {A} (body : Io A) (handler : Exn → Io A)
  : Io A := λ p,
  match body p with
  | (Raised e, p1) =>
      if is_Exception e then handler e p1 else (Raised e, p1)
  | r => r
  end.

(** [try: body except: pass]. *)
Definition try_except_pass (body : Io unit) : Io unit := λ p,
  match body p with
  | (Raised _, p1) => (Done tt, p1)
  | r => r
  end.

(** The system calls.  A new descriptor gets the lowest free number below
    the limit. *)
Definition lowest_free (p : Proc) : option nat :=
  snd <$> list_find (λ n, fds p !! n = None) (seq 0 (limit p)).

Definition os_dup (fd : nat) : Io nat := λ p,
  match fds p !! fd with
  | None => (Raised (OSError "EBADF"), p)
  | Some d =>
      match lowest_free p with
      | None => (Raised (OSError "EMFILE"), p)
      | Some n => (Done n, set_fds (<[n := d]> (fds p)) p)
      end
  end.

Definition os_open_devnull : Io nat := λ p,
  match lowest_free p with
  | None => (Raised (OSError "EMFILE"), p)
  | Some n => (Done n, set_fds (<[n := DevNull]> (fds p)) p)
  end.

Definition os_dup2 (src dst : nat) : Io unit := λ p,
  match fds p !! src with
  | None => (Raised (OSError "EBADF"), p)
  | Some d =>
      if bool_decide (dst < limit p)%nat
      then (Done tt, set_fds (<[dst := d]> (fds p)) p)
      else (Raised (OSError "EBADF"), p)
  end.

Definition os_close (fd : nat) : Io unit := λ p,
  match fds p !! fd with
  | None => (Raised (OSError "EBADF"), p)
  | Some _ => (Done tt, set_fds (delete fd (fds p)) p)
  end.

(** A write reaches the description the descriptor refers to at that
    moment, and nothing if the descriptor is closed. *)
Definition os_write (fd : nat) (text : string) : Io unit := λ p,
  match fds p !! fd with
  | Some d => (Done tt, set_sink (sink p ++ [(d, text)])%list p)
  | None => (Done tt, p)
  end.

(** [open(os.devnull, 'w')] and [f.close()]. *)
Definition open_devnull : Io PyFile :=
  fd ← os_open_devnull; mret {| fileno := fd |}.

Definition file_close (f : PyFile) : Io unit := os_close (fileno f).

Definition get_sys_stdout : Io PyFile := λ p, (Done (sys_stdout p), p).
Definition get_sys_stderr : Io PyFile := λ p, (Done (sys_stderr p), p).
Definition assign_sys_stdout (f : PyFile) : Io unit :=
  λ p, (Done tt, set_sys_stdout f p).
Definition assign_sys_stderr (f : PyFile) : Io unit :=
  λ p, (Done tt, set_sys_stderr f p).

(** What a guarded block prints: the engine's [println!] and [eprintln!]
    write to descriptors 1 and 2, Python's [print] to [sys.stdout] or
    [sys.stderr]. *)
Inductive Output :=
| Println (text : string)
| Eprintln (text : string)
| PyPrint (text : string)
| PyPrintErr (text : string).

Definition text_of (o : Output) : string :=
  match o with
  | Println t | Eprintln t | PyPrint t | PyPrintErr t => t
  end.

Definition emit (o : Output) : Io unit :=
  match o with
  | Println t => os_write 1 t
  | Eprintln t => os_write 2 t
  | PyPrint t => f ← get_sys_stdout; os_write (fileno f) t
  | PyPrintErr t => f ← get_sys_stderr; os_write (fileno f) t
  end.

Fixpoint emit_all (os : list Output) : Io unit :=
  match os with
  | [] => mret tt
  | o :: rest => emit o;; emit_all rest
  end.

(** A guarded block: what it prints, and the exception it ends with, if
    any. *)
Record Block := {
  output : list Output;
  raised : option Exn;
}.

Definition run_block (b : Block) : Io unit :=
  emit_all (output b);;
  match raised b with
  | Some e => raise e
  | None => mret tt
  end.

(** The [finally] block of the guard (lines 329-342). *)
Definition restore (original_stdout original_stderr : PyFile)
    (original_stdout_fd original_stderr_fd devnull : nat) : Io unit :=
  out ← get_sys_stdout;
  file_close out;;
  err ← get_sys_stderr;
  file_close err;;
  assign_sys_stdout original_stdout;;
  assign_sys_stderr original_stderr;;
  os_dup2 original_stdout_fd 1;;
  os_dup2 original_stderr_fd 2;;
  os_close original_stdout_fd;;
  os_close original_stderr_fd;;
  os_close devnull.

(** The outer [try] block (lines 313-342). *)
Definition redirected (original_stdout_fd original_stderr_fd : nat)
    (body : Io unit) : Io unit :=
  devnull ← os_open_devnull;
  os_dup2 devnull 1;;
  os_dup2 devnull 2;;
  original_stdout ← get_sys_stdout;
  original_stderr ← get_sys_stderr;
  out ← open_devnull;
  assign_sys_stdout out;;
  err ← open_devnull;
  assign_sys_stderr err;;
  try_finally body
    (restore original_stdout original_stderr
       original_stdout_fd original_stderr_fd devnull).

(** The [except Exception] block (lines 343-352). *)
Definition recover (original_stdout_fd original_stderr_fd : nat) (e : Exn)
  : Io unit :=
  try_except_pass
    (os_dup2 original_stdout_fd 1;;
     os_dup2 original_stderr_fd 2;;
     os_close original_stdout_fd;;
     os_close original_stderr_fd);;
  raise e.

(** [with self._suppress_output(): body]. *)
Definition suppress_output (quiet : bool) (body : Io unit) : Io unit :=
  if quiet then
    original_stdout_fd ← os_dup 1;
    original_stderr_fd ← os_dup 2;
    try_except_Exception
      (redirected original_stdout_fd original_stderr_fd body)
      (recover original_stdout_fd original_stderr_fd)
  else body.

(** The number of descriptors the process can still open. *)
Definition room (p : Proc) : nat :=
  length (filter (λ n, fds p !! n = None) (seq 0 (limit p))).

(** A process started from a shell, with the three standard descriptors
    open and Python's streams on descriptors 1 and 2. *)
Definition from_shell (limit0 : nat) : Proc :=
  {| fds := <[0%nat := Inherited 0]> (<[1%nat := Inherited 1]>
              (<[2%nat := Inherited 2]> ∅));
     limit := limit0;
     sys_stdout := {| fileno := 1 |};
     sys_stderr := {| fileno := 2 |};
     sink := [] |}.

End Guard.

(** * [step] in its process

    [step] above is the call from the engine's answer on.  Here the call
    runs in the process: the engine call sits inside the output guard, the
    engine can print and can raise, and an exception leaves the environment
    with the assignments made until then. *)

(** [engine.step(action)] beside its answer: what it prints and, when it
    raises, the exception (the engine is then taken to be left as it was;
    [engine_step] is the answer of a call that returns). *)
Class EngineEffects (E : Type) := {
  engine_prints : E → option Z → list Guard.Output;
  engine_raises : E → option Z → option Guard.Exn;
}.

Section Guarded.
Context {E : Type} `{Engine E} `{EngineEffects E}.

(** The block [step_result = self.engine.step(action)] as the guard sees
    it: without an engine the attribute access raises. *)
Definition engine_block (st : Env E) (action : option Z) : Guard.Block :=
  match engine st with
  | None =>
      {| Guard.output := [];
         Guard.raised := Some (Guard.OtherException "AttributeError") |}
  | Some e =>
      {| Guard.output := engine_prints e action;
         Guard.raised := engine_raises e action |}
  end.

(** The environment at the point where the tracking block raises, with
    the assignments of its arm that precede the failing read. *)
Definition tracking_raised (st : Env E) (e : E) (sr : StepResult) : Env E :=
  if phase_is sr "BlindSelect" then st
  else if phase_is sr "Playing"
          && negb (bool_decide (prev_phase st = Some "Playing")) then st
  else if phase_is sr "RoundEnd" && blind_started st then
    let st := set_blind_finished true st in
    match try_get_score_money e, blind_score_at_start st with
    | (Some score, Some _), Some score0 =>
        set_current_score (score - score0)%Q st
    | _, _ => st
    end
  else if phase_is sr "Playing" && blind_started st then
    match try_get_score_money e, blind_score_at_start st with
    | (Some score, Some _), Some score0 =>
        set_current_score (score - score0)%Q st
    | _, _ => st
    end
  else st.

(** [step], on the process and the environment. *)
Definition step_guarded (action : Z) (w : Guard.Proc * Env E)
  : Guard.Res StepOut * (Guard.Proc * Env E) :=
  let '(p, st) := w in
  let st := set_step_count (step_count st + 1) st in
  let '(mapped_action, invalid_action_penalty) :=
    map_action action (last_valid_actions st) in
  match Guard.suppress_output (quiet st)
          (Guard.run_block (engine_block st (Some mapped_action))) p with
  | (Guard.Raised exn, p) => (Guard.Raised exn, (p, st))
  | (Guard.Done _, p) =>
      match engine st with
      | None =>
          (Guard.Raised (Guard.OtherException "AttributeError"), (p, st))
      | Some e =>
          let '(step_result, e) := engine_step e (Some mapped_action) in
          let st := set_engine (Some e) st in
          match update_tracking st e step_result with
          | Raise _ =>
              (Guard.Raised (Guard.OtherException "AttributeError"),
               (p, tracking_raised st e step_result))
          | Ok st =>
              let st := set_prev_phase (phase step_result) st in
              let observation := extract_observation st step_result in
              let st :=
                set_last_valid_actions (action_indices step_result) st in
              let reward := calculate_reward st step_result in
              let st := set_previous_score (current_score st) st in
              let st := set_previous_money (current_money st) st in
              let reward := (reward + invalid_action_penalty)%Q in
              let terminated := is_done st step_result in
              let truncated := false in
              let info : gmap string PyVal :=
                <["phase" := opt_str (phase step_result)]>
                (<["status" := VStr (status step_result)]>
                (<["score" := VNum (current_score st)]>
                (<["money" := VNum (current_money st)]>
                (<["action_mapped" :=
                     VBool (negb (bool_decide (action = mapped_action)))]>
                (<["original_action" := VInt action]>
                (<["mapped_action" := VInt mapped_action]>
                (<["valid_actions" := VList (last_valid_actions st)]>
                (<["finished" := opt_str (finished step_result)]> ∅))))))))
              in
              (Guard.Done {| observation := observation;
                             reward := reward;
                             terminated := terminated;
                             truncated := truncated;
                             info := info |},
               (p, st))
          end
      end
  end.

End Guarded.

(** The scripted engine in a process: each call prints a line, none
    raises. *)
#[global] Instance scripted_effects : EngineEffects (list Scripted.Frame) := {
  engine_prints _ _ := [Guard.Println "scripted engine: step"];
  engine_raises _ _ := None;
}.

(** C8 as the specification states it, for one use of the guard in quiet
    mode: however the [with] statement is left, the descriptor table and
    Python's two streams are as they were before it. *)
Definition guard_restores_as_stated (p : Guard.Proc) (body : Guard.Io unit)
  : Prop :=
  ∀ r p', Guard.suppress_output true body p = (r, p') →
    Guard.fds p' = Guard.fds p ∧
    Guard.sys_stdout p' = Guard.sys_stdout p ∧
    Guard.sys_stderr p' = Guard.sys_stderr p.

(** * Properties *)

(** Case analysis on the arm of the tracking block that runs. *)
Ltac tracking_cases :=
  unfold update_tracking, try_get_score_money, phase_is;
  repeat (case_bool_decide; cbn [andb negb]);
  repeat match goal with
    | |- context [blind_started ?s] =>
        is_var s; destruct (blind_started s) eqn:?; cbn [andb negb]
    end;
  repeat match goal with
    | |- context [engine_game_state ?e] =>
        destruct (engine_game_state e) as [[? ?]|] eqn:?
    end;
  cbn;
  repeat match goal with
    | |- context [getattr _ (?f ?s)] =>
        destruct (f s) eqn:?; cbn
    end.

(** Evaluate a call of [step] or [reset] that the scripted engine decides. *)
Ltac run_call H :=
  match type of H with
  | _ = Raise _ => vm_compute in H; discriminate H
  | _ = Ok _ => vm_compute in H; injection H as <- <-
  end.

Section Properties.
Context {E : Type} `{Engine E}.
Implicit Types (st : Env E) (sr : StepResult) (action : Z).

Lemma step_inv st action st' out :
  step st action = Ok (st', out) →
  ∃ e sr e1 st1,
    engine st = Some e ∧
    engine_step e (Some (effective_action st action)) = (sr, e1) ∧
    update_tracking (tracked st e1) e1 sr = Ok st1 ∧
    st' = finish_step st1 sr ∧
    observation out = extract_observation st' sr ∧
    reward out = (calculate_reward
                    (set_last_valid_actions (action_indices sr)
                       (set_prev_phase (phase sr) st1)) sr
                  + remap_penalty st action)%Q ∧
    terminated out = is_done st' sr ∧
    truncated out = false ∧
    info out =
      <["phase" := opt_str (phase sr)]>
      (<["status" := VStr (status sr)]>
      (<["score" := VNum (current_score st')]>
      (<["money" := VNum (current_money st')]>
      (<["action_mapped" :=
           VBool (negb (bool_decide (action = effective_action st action)))]>
      (<["original_action" := VInt action]>
      (<["mapped_action" := VInt (effective_action st action)]>
      (<["valid_actions" := VList (action_indices sr)]>
      (<["finished" := opt_str (finished sr)]> ∅)))))))).
Proof.
  unfold step, effective_action, remap_penalty.
  cbn [set_step_count last_valid_actions engine].
  destruct (map_action action _) as [mapped pen].
  destruct (engine st) as [e|] eqn:He; [|discriminate]. cbn [mbind result_bind getattr].
  destruct (engine_step e (Some mapped)) as [sr e1] eqn:Hstep.
  fold (tracked st e1).
  destruct (update_tracking (tracked st e1) e1 sr) as [st1|] eqn:Htr; [|discriminate].
  intros [= <- <-]. exists e, sr, e1, st1. cbn. repeat split; auto.
Qed.

Lemma update_tracking_frame st e sr st1 :
  update_tracking st e sr = Ok st1 →
  engine st1 = engine st ∧ step_count st1 = step_count st ∧
  max_episode_steps st1 = max_episode_steps st ∧
  prev_phase st1 = prev_phase st ∧
  previous_score st1 = previous_score st ∧
  previous_money st1 = previous_money st ∧
  last_valid_actions st1 = last_valid_actions st.
Proof.
  tracking_cases; intros [= <-] || discriminate; cbn; auto 10.
Qed.

Lemma update_tracking_spec st e sr st1 :
  update_tracking st e sr = Ok st1 →
  (phase sr = Some "BlindSelect" →
     blind_started st1 = false ∧ blind_finished st1 = false) ∧
  (phase sr = Some "Playing" → prev_phase st ≠ Some "Playing" →
     blind_started st1 = true ∧ blind_finished st1 = blind_finished st ∧
     captured st st1 e) ∧
  (phase sr = Some "RoundEnd" → blind_started st = true →
     blind_started st1 = true ∧ blind_finished st1 = true ∧
     refreshed st st1 e) ∧
  (phase sr = Some "Playing" → prev_phase st = Some "Playing" →
   blind_started st = true →
     blind_started st1 = true ∧ blind_finished st1 = blind_finished st ∧
     refreshed st st1 e) ∧
  (phase sr ≠ Some "BlindSelect" →
   ¬ (phase sr = Some "Playing" ∧ prev_phase st ≠ Some "Playing") →
   ¬ (phase sr = Some "RoundEnd" ∧ blind_started st = true) →
     blind_started st1 = blind_started st ∧
     blind_finished st1 = blind_finished st).
Proof.
  unfold refreshed, captured.
  tracking_cases; intros [= <-] || discriminate; cbn;
    repeat split; intros; simplify_eq; cbn; eauto; try congruence; try tauto; eauto 10.
Qed.

Lemma engine_answer_inv st action sr e1 :
  engine_answer st action = Some (sr, e1) →
  ∃ e, engine st = Some e ∧
       engine_step e (Some (effective_action st action)) = (sr, e1).
Proof.
  unfold engine_answer. destruct (engine st) as [e|]; [|discriminate].
  cbn. intros [= Heq]. eauto.
Qed.

(** What one step does, in terms of the engine's answer [(sr, e1)]. *)
Lemma step_answer st action st' out sr e1 :
  step st action = Ok (st', out) →
  engine_answer st action = Some (sr, e1) →
  ∃ st1,
    update_tracking (tracked st e1) e1 sr = Ok st1 ∧
    st' = finish_step st1 sr ∧
    observation out = extract_observation st' sr ∧
    reward out = (calculate_reward
                    (set_last_valid_actions (action_indices sr)
                       (set_prev_phase (phase sr) st1)) sr
                  + remap_penalty st action)%Q ∧
    terminated out = is_done st' sr ∧
    truncated out = false.
Proof.
  intros Hstep Hans.
  destruct (step_inv _ _ _ _ Hstep)
    as (e & sr' & e1' & st1 & He & Hcall & Htr & Hst & Hobs & Hrew & Hterm & Htrunc & _).
  destruct (engine_answer_inv _ _ _ _ Hans) as (e' & He' & Hcall').
  rewrite He in He'. injection He' as <-.
  rewrite Hcall in Hcall'. injection Hcall' as <- <-.
  exists st1. auto 10.
Qed.

(** C3: the phase tracker follows the transition table.  For a step whose
    engine answer is [(sr, e1)]: entering [BlindSelect] clears both flags;
    entering [Playing] from another phase (or from no phase) sets
    [blind_started] and captures the baselines; reaching [RoundEnd] while
    [blind_started] sets [blind_finished] and refreshes the tracked score and
    money to the snapshot minus the baselines; [Playing] after [Playing]
    while [blind_started] refreshes them and keeps the flags; every other
    pair leaves both flags alone; and [prev_phase] always becomes the new
    phase. *)
Theorem step_phase_tracker st action st' out sr e1 :
  step st action = Ok (st', out) →
  engine_answer st action = Some (sr, e1) →
  (phase sr = Some "BlindSelect" →
     blind_started st' = false ∧ blind_finished st' = false) ∧
  (phase sr = Some "Playing" → prev_phase st ≠ Some "Playing" →
     blind_started st' = true ∧ blind_finished st' = blind_finished st ∧
     captured st st' e1) ∧
  (phase sr = Some "RoundEnd" → blind_started st = true →
     blind_started st' = true ∧ blind_finished st' = true ∧
     refreshed st st' e1) ∧
  (phase sr = Some "Playing" → prev_phase st = Some "Playing" →
   blind_started st = true →
     blind_started st' = true ∧ blind_finished st' = blind_finished st ∧
     refreshed st st' e1) ∧
  (phase sr ≠ Some "BlindSelect" →
   ¬ (phase sr = Some "Playing" ∧ prev_phase st ≠ Some "Playing") →
   ¬ (phase sr = Some "RoundEnd" ∧ blind_started st = true) →
     blind_started st' = blind_started st ∧
     blind_finished st' = blind_finished st) ∧
  prev_phase st' = phase sr.
Proof.
  intros Hstep Hans.
  destruct (step_answer _ _ _ _ _ _ Hstep Hans) as (st1 & Htr & -> & _).
  apply update_tracking_spec in Htr.
  unfold refreshed, captured in *. cbn in *.
  destruct Htr as (H1 & H2 & H3 & H4 & H5).
  repeat split; auto; intros.
  - by apply H1.
  - by apply H1.
  - by apply H2.
  - by apply H2.
  - by apply H2.
  - by apply H3.
  - by apply H3.
  - by apply H3.
  - by apply H4.
  - by apply H4.
  - by apply H4.
  - by apply H5.
  - by apply H5.
Qed.

(** C4: [terminated] holds exactly when the engine reports [Finished], or
    the phase is [RoundEnd] while [blind_started], or the step counter (after
    this step's increment) has reached [max_episode_steps]; [truncated] is
    always false. *)
Theorem step_termination st action st' out sr e1 :
  step st action = Ok (st', out) →
  engine_answer st action = Some (sr, e1) →
  (terminated out = true ↔
     status sr = "Finished" ∨
     (phase sr = Some "RoundEnd" ∧ blind_started st' = true) ∨
     (max_episode_steps st ≤ step_count st')%Z) ∧
  step_count st' = (step_count st + 1)%Z ∧
  truncated out = false.
Proof.
  intros Hstep Hans.
  destruct (step_answer _ _ _ _ _ _ Hstep Hans)
    as (st1 & Htr & -> & _ & _ & -> & -> ).
  apply update_tracking_frame in Htr as (_ & Hcount & Hmax & _).
  cbn in Hcount, Hmax.
  unfold is_done, phase_is. cbn. rewrite Hcount, Hmax.
  split; [|done].
  repeat case_bool_decide; destruct (blind_started st1); cbn;
    intuition (try congruence; try lia).
Qed.

Lemma max0_nonneg (x : Q) : (0 <= max0 x)%Q.
Proof.
  unfold max0. destruct (Qle_bool x 0) eqn:Hle; [apply Qle_refl|].
  apply Qnot_lt_le. intros Hlt. apply Qlt_le_weak in Hlt.
  apply Qle_bool_iff in Hlt. congruence.
Qed.

Lemma gain_reward_nonneg st st' : (0 <= gain_reward st st')%Q.
Proof.
  unfold gain_reward.
  pose proof (max0_nonneg (current_score st' - previous_score st)) as Hs.
  pose proof (max0_nonneg (current_money st' - previous_money st)) as Hm.
  assert (0 <= 250 * max0 (current_money st' - previous_money st))%Q.
  { apply Qmult_le_0_compat; [done | exact Hm]. }
  replace 0%Q with (0 + 0)%Q by reflexivity. by apply Qplus_le_compat.
Qed.

Lemma reward_decomposition st action st' out sr e1 :
  step st action = Ok (st', out) →
  engine_answer st action = Some (sr, e1) →
  (reward out == shaped_reward st st' sr + remap_penalty st action)%Q.
Proof.
  intros Hstep Hans.
  destruct (step_answer _ _ _ _ _ _ Hstep Hans)
    as (st1 & Htr & -> & _ & -> & _).
  apply update_tracking_frame in Htr as (_ & _ & _ & _ & Hps & Hpm & _).
  cbn in Hps, Hpm.
  unfold shaped_reward, gain_reward, calculate_reward, blind_bonus,
    blind_bonus_due, STEP_REWARD, BLIND_COMPLETION_BASE_REWARD.
  cbn. rewrite Hps, Hpm.
  destruct (phase_is sr "RoundEnd" && blind_started st1 && blind_finished st1);
    ring.
Qed.

Lemma step_advances_previous st action st' out :
  step st action = Ok (st', out) →
  previous_score st' = current_score st' ∧
  previous_money st' = current_money st'.
Proof.
  intros Hstep.
  destruct (step_inv _ _ _ _ Hstep) as (e & sr & e1 & st1 & _ & _ & _ & -> & _).
  done.
Qed.

(** C2: the reward of a step is the gain in score, plus 250 times the gain
    in money, minus 0.01, plus the blind bonus, plus the remap penalty, the
    gains being floored at zero and measured against the values recorded by
    the previous step; the bonus is 1000 exactly when the phase is
    [RoundEnd] and both blind flags hold; the recorded values are then
    advanced to the current ones; the score and money part is never
    negative. *)
Theorem step_reward st action st' out sr e1 :
  step st action = Ok (st', out) →
  engine_answer st action = Some (sr, e1) →
  (reward out ==
     max0 (current_score st' - previous_score st)
     + 250 * max0 (current_money st' - previous_money st)
     - (1 # 100) + blind_bonus st' sr + remap_penalty st action)%Q ∧
  (blind_bonus st' sr =
     if bool_decide (phase sr = Some "RoundEnd" ∧ blind_started st' = true
                     ∧ blind_finished st' = true)
     then 1000%Q else 0%Q) ∧
  previous_score st' = current_score st' ∧
  previous_money st' = current_money st' ∧
  (0 <= max0 (current_score st' - previous_score st)
        + 250 * max0 (current_money st' - previous_money st))%Q.
Proof.
  intros Hstep Hans.
  pose proof (reward_decomposition _ _ _ _ _ _ Hstep Hans) as Hrew.
  destruct (step_advances_previous _ _ _ _ Hstep) as [Hps Hpm].
  split; [|split; [|split; [done|split; [done|]]]].
  - rewrite Hrew. unfold shaped_reward, gain_reward. ring.
  - unfold blind_bonus, blind_bonus_due, phase_is.
    repeat case_bool_decide; destruct (blind_started st'), (blind_finished st');
      cbn; intuition congruence.
  - apply (gain_reward_nonneg st st').
Qed.

Lemma step_info st action st' out sr e1 :
  step st action = Ok (st', out) →
  engine_answer st action = Some (sr, e1) →
  info out =
    <["phase" := opt_str (phase sr)]>
    (<["status" := VStr (status sr)]>
    (<["score" := VNum (current_score st')]>
    (<["money" := VNum (current_money st')]>
    (<["action_mapped" :=
         VBool (negb (bool_decide (action = effective_action st action)))]>
    (<["original_action" := VInt action]>
    (<["mapped_action" := VInt (effective_action st action)]>
    (<["valid_actions" := VList (action_indices sr)]>
    (<["finished" := opt_str (finished sr)]> ∅)))))))).
Proof.
  intros Hstep Hans.
  destruct (step_inv _ _ _ _ Hstep)
    as (e & sr' & e1' & st1 & He & Hcall & _ & _ & _ & _ & _ & _ & Hinfo).
  destruct (engine_answer_inv _ _ _ _ Hans) as (e' & He' & Hcall').
  rewrite He in He'. injection He' as <-.
  rewrite Hcall in Hcall'. by injection Hcall' as <- <-.
Qed.

Lemma step_engine st action st' out sr e1 :
  step st action = Ok (st', out) →
  engine_answer st action = Some (sr, e1) →
  engine st' = Some e1.
Proof.
  intros Hstep Hans.
  destruct (step_answer _ _ _ _ _ _ Hstep Hans) as (st1 & Htr & -> & _).
  apply update_tracking_frame in Htr as (Heng & _). cbn. by rewrite Heng.
Qed.

(** The three branches of the action filter. *)
Lemma map_action_valid action (valid : list nat) :
  action ∈ Z.of_nat <$> valid → map_action action valid = (action, 0%Q).
Proof. intros Hin. unfold map_action. by rewrite bool_decide_eq_true_2. Qed.

Lemma map_action_first action (first : nat) rest :
  action ∉ Z.of_nat <$> first :: rest →
  map_action action (first :: rest) = (Z.of_nat first, (-10)%Q).
Proof. intros Hin. unfold map_action. by rewrite bool_decide_eq_false_2. Qed.

Lemma map_action_empty action : map_action action [] = (0, (-1 # 2)%Q).
Proof. reflexivity. Qed.

(** The action filter of [step], on every input but the request 0 against
    an empty list.  A listed action goes to the engine unchanged, at no
    penalty, reported as not remapped.  An unlisted action with a non-empty
    list becomes the first listed action, at penalty -10, reported as
    remapped.  With an empty list the action becomes 0, at penalty -0.5, and
    a request other than 0 is reported as remapped.  The effective action is
    the one the engine receives and the one reported as [mapped_action]; the
    penalty is added to the shaped reward. *)
Theorem step_remap st action st' out sr e1 :
  step st action = Ok (st', out) →
  engine_answer st action = Some (sr, e1) →
  let valid := last_valid_actions st in
  engine st' = Some e1 ∧
  info out !! "original_action" = Some (VInt action) ∧
  info out !! "mapped_action" = Some (VInt (effective_action st action)) ∧
  (reward out == shaped_reward st st' sr + remap_penalty st action)%Q ∧
  (action ∈ Z.of_nat <$> valid →
     effective_action st action = action ∧
     remap_penalty st action = 0%Q ∧
     info out !! "action_mapped" = Some (VBool false)) ∧
  (action ∉ Z.of_nat <$> valid → ∀ first rest, valid = first :: rest →
     effective_action st action = Z.of_nat first ∧
     remap_penalty st action = (-10)%Q ∧
     info out !! "action_mapped" = Some (VBool true)) ∧
  (valid = [] →
     effective_action st action = 0 ∧
     remap_penalty st action = (-1 # 2)%Q ∧
     (action ≠ 0 → info out !! "action_mapped" = Some (VBool true))).
Proof.
  intros Hstep Hans valid. subst valid.
  pose proof (step_info _ _ _ _ _ _ Hstep Hans) as Hinfo.
  assert (Hmapped : info out !! "action_mapped" =
    Some (VBool (negb (bool_decide (action = effective_action st action))))).
  { rewrite Hinfo. by simplify_map_eq. }
  split; [by eapply step_engine|].
  split; [rewrite Hinfo; by simplify_map_eq|].
  split; [rewrite Hinfo; by simplify_map_eq|].
  split; [by eapply reward_decomposition|].
  rewrite Hmapped. unfold effective_action, remap_penalty.
  split; [|split].
  - intros Hin. rewrite (map_action_valid _ _ Hin). cbn.
    by rewrite bool_decide_eq_true_2.
  - intros Hin first rest Hvalid. rewrite Hvalid in Hin |- *.
    rewrite (map_action_first _ _ _ Hin). cbn.
    rewrite bool_decide_eq_false_2; [done|].
    intros ->. apply Hin. rewrite fmap_cons. apply list_elem_of_here.
  - intros ->. rewrite map_action_empty. cbn [fst snd].
    split; [done|]. split; [done|]. intros Hne.
    by rewrite bool_decide_eq_false_2.
Qed.

(** The mask after marking a list of indices. *)
Lemma mark_action_length (mask : list Z) (i : nat) :
  length (mark_action mask i) = length mask.
Proof. unfold mark_action. case_bool_decide; [apply length_insert | done]. Qed.

Lemma marks_length (valid : list nat) (mask : list Z) :
  length (foldl mark_action mask valid) = length mask.
Proof.
  revert mask. induction valid as [|a valid IH]; intros mask; [done|].
  cbn. by rewrite IH, mark_action_length.
Qed.

Lemma mark_action_lookup (mask : list Z) (a i : nat) :
  length mask = 100%nat →
  mark_action mask a !! i =
    if bool_decide (i = a ∧ (a < 100)%nat) then Some 1 else mask !! i.
Proof.
  intros Hlen. unfold mark_action.
  case_bool_decide as Hlt.
  - destruct (decide (i = a)) as [->|Hne].
    + rewrite bool_decide_eq_true_2 by done.
      apply list_lookup_insert_eq. lia.
    + rewrite bool_decide_eq_false_2 by tauto.
      by apply list_lookup_insert_ne.
  - rewrite bool_decide_eq_false_2 by tauto. done.
Qed.

Lemma marks_lookup (valid : list nat) (mask : list Z) (i : nat) :
  length mask = 100%nat →
  foldl mark_action mask valid !! i =
    if bool_decide (i ∈ valid ∧ (i < 100)%nat) then Some 1 else mask !! i.
Proof.
  revert mask. induction valid as [|a valid IH]; intros mask Hlen.
  - cbn. rewrite bool_decide_eq_false_2; [done|].
    intros [Hin _]. by apply elem_of_nil in Hin.
  - cbn. rewrite IH by (by rewrite mark_action_length).
    rewrite mark_action_lookup by done.
    destruct (decide (i ∈ valid ∧ (i < 100)%nat)) as [Hv|Hv].
    + rewrite (bool_decide_eq_true_2 _ Hv).
      rewrite bool_decide_eq_true_2; [done|].
      destruct Hv as [Hin Hlt]. split; [by apply list_elem_of_further | done].
    + rewrite (bool_decide_eq_false_2 _ Hv).
      destruct (decide (i = a ∧ (a < 100)%nat)) as [Ha|Ha].
      * rewrite (bool_decide_eq_true_2 _ Ha).
        rewrite bool_decide_eq_true_2; [done|].
        destruct Ha as [-> Hlt]. split; [apply list_elem_of_here | done].
      * rewrite (bool_decide_eq_false_2 _ Ha).
        rewrite bool_decide_eq_false_2; [done|].
        intros [Hin Hlt]. apply elem_of_cons in Hin as [->|Hin];
          [apply Ha | apply Hv]; done.
Qed.

Lemma phase_to_idx_table :
  phase_to_idx =
    list_to_map [("Shop", 0); ("ShopPackSelection", 1); ("BlindSelect", 2);
                 ("Playing", 3); ("RoundEnd", 4); ("GameOver", 5)].
Proof. reflexivity. Qed.

Lemma phase_to_idx_unknown (name : string) :
  name ∉ phases → phase_to_idx !! name = None.
Proof.
  intros Hout. unfold phase_to_idx.
  apply not_elem_of_list_to_map_1. by rewrite fst_zip.
Qed.

(** The index computed by [_extract_observation] is the phase index. *)
Lemma phase_idx_source sr :
  (if truthy (phase sr)
   then default 0 (phase ← phase sr; phase_to_idx !! phase)
   else 0) = phase_index sr.
Proof.
  unfold phase_index, truthy. destruct (phase sr) as [name|]; [|done].
  case_bool_decide as Hname; [|done]. by subst name.
Qed.

Lemma Qred_integer (a : Z) (c : positive) :
  Qred (a * Zpos c # c) = inject_Z a.
Proof.
  rewrite (Qred_complete (a * Zpos c # c) (inject_Z a)).
  - unfold Qred, inject_Z. cbn [Qnum Qden].
    generalize (Z.ggcd_gcd a 1) (Z.ggcd_correct_divisors a 1).
    rewrite Z.gcd_1_r. destruct (Z.ggcd a 1) as (g, (aa, bb)). cbn [fst snd].
    intros -> (Ha & Hb). rewrite Z.mul_1_l in Ha, Hb. subst aa bb. reflexivity.
  - unfold Qeq, inject_Z. cbn [Qnum Qden]. lia.
Qed.

Lemma round_half_even_exact (n : Z) : round_half_even n 1 = n.
Proof.
  unfold round_half_even. rewrite Z.mod_1_r, Z.div_1_r. reflexivity.
Qed.

Lemma floor_log2_integer (p : positive) :
  floor_log2 (Zpos p) 1 = Z.log2 (Zpos p).
Proof.
  unfold floor_log2. change (Z.log2 1) with 0%Z. rewrite Z.sub_0_r.
  pose proof (Z.log2_nonneg (Zpos p)) as Hnn.
  pose proof (Z.log2_spec (Zpos p) ltac:(lia)) as [Hlo _].
  unfold scale2. rewrite (proj2 (Z.leb_le _ _) Hnn).
  rewrite Z.mul_1_l. by rewrite (proj2 (Z.leb_le _ _) Hlo).
Qed.

(** Integers of magnitude below [2^24] are binary32 numbers. *)
Lemma float32_small_integer (n : Z) :
  (- 2 ^ 24 < n < 2 ^ 24)%Z → float32 (inject_Z n) = F32Fin (inject_Z n).
Proof.
  assert (Hpos : ∀ p : positive, (Zpos p < 2 ^ 24)%Z →
            float32_magnitude (Zpos p) 1 = Some (inject_Z (Zpos p))).
  { intros p Hp. unfold float32_magnitude.
    rewrite floor_log2_integer.
    pose proof (Z.log2_nonneg (Zpos p)) as Hnn.
    assert (He : (Z.log2 (Zpos p) < 24)%Z).
    { apply Z.log2_lt_pow2; lia. }
    rewrite Z.max_l by lia.
    set (e := Z.log2 (Zpos p)) in *.
    destruct (decide (e = 23)) as [->|Hne].
    - change (23 - 23)%Z with 0%Z. unfold scale2.
      change (0 <=? 0)%Z with true. cbv iota.
      change (1 * 2 ^ 0)%Z with 1%Z. change (2 ^ 0)%Z with 1%Z.
      rewrite round_half_even_exact. rewrite Z.mul_1_r.
      destruct (2 ^ 128 <=? Z.pos p)%Z eqn:Hc; [|reflexivity].
      apply Z.leb_le in Hc. lia.
    - unfold scale2.
      destruct (0 <=? e - 23)%Z eqn:Hk; [apply Z.leb_le in Hk; lia|].
      rewrite round_half_even_exact. f_equal.
      assert (Hpow : (0 < 2 ^ (- (e - 23)))%Z) by (apply Z.pow_pos_nonneg; lia).
      destruct (2 ^ (- (e - 23)))%Z as [|c|c] eqn:Hc; try lia.
      cbn [Z.to_pos]. apply Qred_integer. }
  intros Hn. unfold float32, inject_Z. cbn [Qnum Qden].
  destruct n as [|p|p]; [reflexivity| |].
  - by rewrite Hpos by lia.
  - rewrite Hpos by lia. reflexivity.
Qed.

Lemma float32_rounds : float32 16777217 = F32Fin 16777216.
Proof. vm_compute. reflexivity. Qed.

Lemma phase_index_range sr : (0 ≤ phase_index sr ≤ 5)%Z.
Proof.
  unfold phase_index. destruct (phase sr) as [name|]; [|lia].
  destruct (phase_to_idx !! name) as [idx|] eqn:Hidx; cbn; [|lia].
  rewrite phase_to_idx_table in Hidx.
  apply elem_of_list_to_map_2 in Hidx.
  repeat (apply elem_of_cons in Hidx as [[= _ ->]|Hidx]; [lia|]).
  by apply elem_of_nil in Hidx.
Qed.

(** The vector handed to [np.array(..., dtype=np.float32)]. *)
Lemma game_info_layout st sr :
  game_info (extract_observation st sr) =
    float32 <$>
    [ current_score st; current_money st; 1%Q; 1%Q; 4%Q; 3%Q;
      flag (blind_started st); flag (blind_finished st);
      inject_Z (step_count st); inject_Z (phase_index sr) ].
Proof.
  unfold extract_observation, get_game_info, getitem. cbn [game_info].
  simplify_map_eq. by rewrite phase_idx_source.
Qed.

(** The conversion is exact on the constants, the flags and the phase
    index. *)
Lemma game_info_values st sr :
  game_info (extract_observation st sr) =
    [ float32 (current_score st); float32 (current_money st);
      F32Fin 1; F32Fin 1; F32Fin 4; F32Fin 3;
      F32Fin (flag (blind_started st)); F32Fin (flag (blind_finished st));
      float32 (inject_Z (step_count st)); F32Fin (inject_Z (phase_index sr)) ].
Proof.
  rewrite game_info_layout. cbn [fmap list_fmap].
  pose proof (phase_index_range sr) as Hrange.
  rewrite (float32_small_integer (phase_index sr)) by lia.
  assert (Hflag : ∀ b, float32 (flag b) = F32Fin (flag b))
    by (intros []; vm_compute; reflexivity).
  rewrite !Hflag.
  assert (H1 : float32 1 = F32Fin 1) by (vm_compute; reflexivity).
  assert (H4 : float32 4 = F32Fin 4) by (vm_compute; reflexivity).
  assert (H3 : float32 3 = F32Fin 3) by (vm_compute; reflexivity).
  by rewrite H1, H4, H3.
Qed.

(** Every key read from the dictionary of [_get_game_info] is present. *)
Lemma game_info_keys st (key : string) :
  key ∈ ["score"; "money"; "ante"; "round"; "hands_remaining";
         "discards_remaining"; "blind_started"; "blind_finished";
         "step_count"] →
  is_Some (get_game_info st !! key).
Proof.
  intros Hin. unfold get_game_info.
  repeat (apply elem_of_cons in Hin as [->|Hin]; [by simplify_map_eq|]).
  by apply elem_of_nil in Hin.
Qed.

Lemma mask_lookup st sr (i : nat) :
  available_actions (extract_observation st sr) !! i =
    if bool_decide (i ∈ action_indices sr ∧ (i < 100)%nat) then Some 1
    else (replicate 100 0 : list Z) !! i.
Proof.
  unfold extract_observation. cbn [available_actions].
  apply marks_lookup. by rewrite length_replicate.
Qed.

(** C6: the encoder yields the same shape for every step result and
    tracked state.  [available_actions] has 100 entries, entry [i] being 1
    when [i] is one of the engine's action indices and 0 otherwise (so
    indices of 100 and above leave no trace); [phase] is the one-element
    vector of the phase index; [game_info] has the ten entries score, money,
    1, 1, 4, 3, the two blind flags, the step count and the phase index, each
    converted to single precision: the constants, the flags and the phase
    index are exact, the step count is exact below [2^24], the score and the
    money are rounded to the nearest single-precision number. *)
Theorem observation_shape st sr :
  length (available_actions (extract_observation st sr)) = 100%nat ∧
  available_actions (extract_observation st sr) =
    action_bit (action_indices sr) <$> seq 0 100 ∧
  (∀ i : nat, available_actions (extract_observation st sr) !! i = Some 1 ↔
              i ∈ action_indices sr ∧ (i < 100)%nat) ∧
  obs_phase (extract_observation st sr) = [phase_index sr] ∧
  length (game_info (extract_observation st sr)) = 10%nat ∧
  game_info (extract_observation st sr) =
    [ float32 (current_score st); float32 (current_money st);
      F32Fin 1; F32Fin 1; F32Fin 4; F32Fin 3;
      F32Fin (flag (blind_started st)); F32Fin (flag (blind_finished st));
      float32 (inject_Z (step_count st)); F32Fin (inject_Z (phase_index sr)) ] ∧
  ((- 2 ^ 24 < step_count st < 2 ^ 24)%Z →
   float32 (inject_Z (step_count st)) = F32Fin (inject_Z (step_count st))).
Proof.
  assert (Hlen : length (available_actions (extract_observation st sr)) = 100%nat).
  { unfold extract_observation. cbn [available_actions].
    by rewrite marks_length, length_replicate. }
  split; [exact Hlen|]. split; [|split; [|split; [|split; [|split]]]].
  - apply list_eq. intros i. rewrite mask_lookup, list_lookup_fmap.
    destruct (decide (i < 100)%nat) as [Hlt|Hge].
    + rewrite lookup_seq_lt by done. rewrite lookup_replicate_2 by done.
      cbn. unfold action_bit.
      repeat case_bool_decide; try done; tauto.
    + rewrite bool_decide_eq_false_2 by tauto.
      rewrite lookup_seq_ge by lia. rewrite (proj1 (lookup_replicate_None _ _ _)) by lia. done.
  - intros i. rewrite mask_lookup. case_bool_decide as Hin; [done|].
    split; [|tauto]. intros Hone. apply lookup_replicate in Hone as [? _]. done.
  - unfold extract_observation. cbn [obs_phase]. by rewrite phase_idx_source.
  - by rewrite game_info_layout.
  - apply game_info_values.
  - apply float32_small_integer.
Qed.

(** The phase field and the [game_info] vector of an observation. *)
Lemma observation_layout st sr :
  obs_phase (extract_observation st sr) = [phase_index sr] ∧
  game_info (extract_observation st sr) =
    [ float32 (current_score st); float32 (current_money st);
      F32Fin 1; F32Fin 1; F32Fin 4; F32Fin 3;
      F32Fin (flag (blind_started st)); F32Fin (flag (blind_finished st));
      float32 (inject_Z (step_count st)); F32Fin (inject_Z (phase_index sr)) ].
Proof.
  split; [|apply game_info_values].
  unfold extract_observation. cbn [obs_phase]. by rewrite phase_idx_source.
Qed.

(** A phase outside the tracked ones leaves the tracking block idle: it
    reads no baseline and cannot raise. *)
Lemma update_tracking_idle st e sr :
  phase sr ≠ Some "BlindSelect" → phase sr ≠ Some "Playing" →
  phase sr ≠ Some "RoundEnd" →
  update_tracking st e sr = Ok st.
Proof.
  intros H1 H2 H3. unfold update_tracking, phase_is.
  rewrite (bool_decide_eq_false_2 _ H1), (bool_decide_eq_false_2 _ H2),
    (bool_decide_eq_false_2 _ H3). done.
Qed.

(** [step] returns once the engine has answered and the tracking block has
    run. *)
Lemma step_returns st action sr e1 st1 :
  engine_answer st action = Some (sr, e1) →
  update_tracking (tracked st e1) e1 sr = Ok st1 →
  ∃ out, step st action = Ok (finish_step st1 sr, out) ∧
         observation out = extract_observation (finish_step st1 sr) sr.
Proof.
  intros Hans Htr.
  destruct (engine_answer_inv _ _ _ _ Hans) as (e & He & Hcall).
  unfold step, effective_action in *.
  cbn [set_step_count last_valid_actions engine].
  destruct (map_action action _) as [mapped pen].
  rewrite He. cbn [mbind result_bind getattr].
  cbn [fst] in Hcall. rewrite Hcall.
  fold (tracked st e1). rewrite Htr. cbn.
  eexists. split; reflexivity.
Qed.

(** C10: a step result whose phase is absent, or is a name outside the six
    known phases, is encoded with phase index 0, the index of [Shop], both
    in the [phase] field and in the last entry of [game_info]; and a step
    that receives such a result returns normally with that observation. *)
Theorem unknown_phase_index st sr :
  phase sr = None ∨ (∃ name, phase sr = Some name ∧ name ∉ phases) →
  phase_to_idx !! "Shop" = Some 0 ∧
  obs_phase (extract_observation st sr) = [0] ∧
  game_info (extract_observation st sr) !! 9%nat = Some (F32Fin 0) ∧
  last (game_info (extract_observation st sr)) = Some (F32Fin 0) ∧
  (∀ st0 action e1, engine_answer st0 action = Some (sr, e1) →
     ∃ st' out, step st0 action = Ok (st', out) ∧
                obs_phase (observation out) = [0] ∧
                last (game_info (observation out)) = Some (F32Fin 0)).
Proof.
  intros Hphase.
  assert (Hidx : phase_index sr = 0).
  { unfold phase_index. destruct Hphase as [->|(name & -> & Hout)]; [done|].
    by rewrite phase_to_idx_unknown. }
  assert (Hobs : ∀ st1 : Env E,
            obs_phase (extract_observation st1 sr) = [0] ∧
            game_info (extract_observation st1 sr) !! 9%nat = Some (F32Fin 0) ∧
            last (game_info (extract_observation st1 sr)) = Some (F32Fin 0)).
  { intros st1.
    destruct (observation_layout st1 sr) as (Hp & Hg).
    rewrite Hp, Hg, Hidx. split; [reflexivity|]. split; reflexivity. }
  split; [done|].
  destruct (Hobs st) as (Hp & Hg & Hl).
  split; [exact Hp|]. split; [exact Hg|]. split; [exact Hl|].
  intros st0 action e1 Hans.
  assert (Hidle : update_tracking (tracked st0 e1) e1 sr = Ok (tracked st0 e1)).
  { apply update_tracking_idle;
      destruct Hphase as [->|(name & -> & Hout)]; try done;
      intros [= ->]; apply Hout; unfold phases;
      repeat first [apply list_elem_of_here | apply list_elem_of_further]. }
  destruct (step_returns _ _ _ _ _ Hans Hidle) as (out & Hstep & Hout).
  eexists _, out. split; [exact Hstep|]. rewrite Hout.
  destruct (Hobs (finish_step (tracked st0 e1) sr)) as (Hp' & _ & Hl').
  done.
Qed.

Lemma bind_ok {A B} (a : A) (k : A → Result B) : (Ok a ≫= k) = k a.
Proof. reflexivity. Qed.

Lemma probe_answer_inv st seed0 sr e1 :
  probe_answer st seed0 = Some (sr, e1) →
  ∃ e, engine_start (seed (seeded st seed0)) (deck_type_str (seeded st seed0))
         (stake_level_str (seeded st seed0)) = Some e ∧
       engine_step e None = (sr, e1).
Proof.
  unfold probe_answer, reset_seed, seeded.
  destruct seed0 as [s|]; cbn [default from_option id];
    (destruct (engine_start _ _ _) as [e|]; [|discriminate]);
    cbn; intros [= Heq]; eauto.
Qed.

Lemma reset_engine_run st e :
  engine_start (seed st) (deck_type_str st) (stake_level_str st) = Some e →
  reset_engine st = Ok (reset_tracking st e).
Proof. intros Hstart. unfold reset_engine. by rewrite Hstart. Qed.

Lemma engine_reset_tracking st e : engine (reset_tracking st e) = Some e.
Proof. reflexivity. Qed.

(** [reset], run on the engine's answer to the probe. *)
Lemma reset_run st seed0 sr e1 :
  probe_answer st seed0 = Some (sr, e1) →
  ∃ e,
    engine_start (seed (seeded st seed0)) (deck_type_str (seeded st seed0))
      (stake_level_str (seeded st seed0)) = Some e ∧
    reset st seed0 =
      Ok (finish_reset (reset_tracking (seeded st seed0) e) sr e1,
          (extract_observation
             (set_engine (Some e1) (reset_tracking (seeded st seed0) e)) sr,
           reset_info sr)).
Proof.
  intros Hans.
  destruct (probe_answer_inv _ _ _ _ Hans) as (e & Hstart & Hprobe).
  exists e. split; [exact Hstart|].
  unfold reset. fold (seeded st seed0).
  rewrite (reset_engine_run _ _ Hstart).
  rewrite bind_ok, engine_reset_tracking.
  unfold getattr. rewrite bind_ok, Hprobe. reflexivity.
Qed.

(** The observation is determined by the tracked numbers and flags. *)
Lemma extract_observation_eta st sr :
  extract_observation st sr =
    {| obs_phase := [phase_index sr];
       available_actions :=
         foldl mark_action (replicate 100 0) (action_indices sr);
       game_info :=
         float32 <$>
         [ current_score st; current_money st; 1%Q; 1%Q; 4%Q; 3%Q;
           flag (blind_started st); flag (blind_finished st);
           inject_Z (step_count st); inject_Z (phase_index sr) ] |}.
Proof.
  pose proof (game_info_layout st sr) as Hg.
  pose proof (phase_idx_source sr) as Hp.
  unfold extract_observation in *. cbn [game_info] in Hg.
  by rewrite Hg, Hp.
Qed.

(** [reset] zeroes the tracked score, money, previous values and step
    counter, stores the seed and the fresh engine, caches the action indices
    and the phase of the probe, and leaves both blind flags and both
    baselines as they were; its observation encodes the resulting state and
    its info holds the probe's phase, status and action indices. *)
Theorem reset_effect st seed0 st' obs inf sr e1 :
  reset st seed0 = Ok (st', (obs, inf)) →
  probe_answer st seed0 = Some (sr, e1) →
  (seed st' = reset_seed st seed0 ∧ engine st' = Some e1 ∧
   current_score st' = 0%Q ∧ current_money st' = 0%Q ∧
   previous_score st' = 0%Q ∧ previous_money st' = 0%Q ∧
   step_count st' = 0 ∧
   last_valid_actions st' = action_indices sr ∧
   prev_phase st' = phase sr) ∧
  (blind_started st' = blind_started st ∧
   blind_finished st' = blind_finished st ∧
   blind_score_at_start st' = blind_score_at_start st ∧
   blind_money_at_start st' = blind_money_at_start st ∧
   max_episode_steps st' = max_episode_steps st) ∧
  obs = extract_observation st' sr ∧
  inf = reset_info sr.
Proof.
  intros Hreset Hans.
  destruct (reset_run _ _ _ _ Hans) as (e & _ & Hrun).
  rewrite Hrun in Hreset. injection Hreset as <- <- <-.
  split; [|split; [|split; [|reflexivity]]].
  - unfold reset_seed, seeded. destruct seed0; repeat split; reflexivity.
  - unfold seeded. destruct seed0; repeat split; reflexivity.
  - rewrite !extract_observation_eta. reflexivity.
Qed.

(** [reset] returns whenever the engine accepts the deck and the stake. *)
Lemma reset_returns st seed0 sr e1 :
  probe_answer st seed0 = Some (sr, e1) →
  ∃ st' obs, reset st seed0 = Ok (st', (obs, reset_info sr)).
Proof.
  intros Hans. destruct (reset_run _ _ _ _ Hans) as (e & _ & Hrun). eauto.
Qed.

(** [reset] raises when the engine rejects the deck or the stake. *)
Lemma reset_rejected st seed0 :
  probe_answer st seed0 = None →
  reset st seed0 = Raise (EngineError "start").
Proof.
  unfold probe_answer, reset, reset_engine, reset_seed.
  destruct seed0 as [s|]; cbn [default from_option id seed deck_type_str
    stake_level_str set_seed];
    (destruct (engine_start _ _ _) as [e|]; [discriminate|]); reflexivity.
Qed.

(** Inversion of a returning [reset]. *)
Lemma reset_inv st seed0 st' out :
  reset st seed0 = Ok (st', out) →
  ∃ e sr e1,
    probe_answer st seed0 = Some (sr, e1) ∧
    st' = finish_reset (reset_tracking (seeded st seed0) e) sr e1 ∧
    out = (extract_observation
             (set_engine (Some e1) (reset_tracking (seeded st seed0) e)) sr,
           reset_info sr).
Proof.
  intros Hreset.
  destruct (probe_answer st seed0) as [[sr e1]|] eqn:Hans.
  - destruct (reset_run _ _ _ _ Hans) as (e & _ & Hrun).
    rewrite Hrun in Hreset. injection Hreset as <- <-. eauto 10.
  - rewrite (reset_rejected _ _ Hans) in Hreset. discriminate.
Qed.

(** Inversion of a returning [step], on the engine's answer. *)
Lemma step_inv_answer st action st' out :
  step st action = Ok (st', out) →
  ∃ sr e1 st1,
    engine_answer st action = Some (sr, e1) ∧
    update_tracking (tracked st e1) e1 sr = Ok st1 ∧
    st' = finish_step st1 sr.
Proof.
  intros Hstep.
  destruct (step_inv _ _ _ _ Hstep)
    as (e & sr & e1 & st1 & He & Hcall & Htr & Hst & _).
  exists sr, e1, st1. split; [|by split].
  unfold engine_answer. rewrite He. cbn. by rewrite Hcall.
Qed.

Lemma step_without_engine st action :
  engine st = None → step st action = Raise (AttributeError "step").
Proof.
  intros He. unfold step. cbn [set_step_count last_valid_actions engine].
  destruct (map_action action _) as [mapped pen]. by rewrite He.
Qed.

(** The tracking block keeps both invariants and, under the first one,
    returns. *)
Lemma update_tracking_invariant st e sr st1 :
  update_tracking st e sr = Ok st1 →
  baselines_set st → flags_ordered st →
  baselines_set st1 ∧ flags_ordered st1.
Proof.
  unfold baselines_set, flags_ordered.
  tracking_cases; intros [= <-] || discriminate; cbn;
    intros Hb Hf; split; intros; try done; eauto; try (apply Hb; done);
    try (apply Hf; done); congruence.
Qed.

Lemma update_tracking_returns st e sr :
  baselines_set st → ∃ st1, update_tracking st e sr = Ok st1.
Proof.
  unfold baselines_set.
  tracking_cases; intros Hb; eauto;
    destruct Hb as [[? ?] [? ?]]; try done; congruence.
Qed.

Lemma reachable_invariant st :
  reachable st → baselines_set st ∧ flags_ordered st.
Proof.
  induction 1 as [ | st seed0 st' out _ IH Hreset
                   | st action st' out _ IH Hstep | st _ IH
                   | st f _ IH | st seed0 e _ IH | st seed0 e _ IH ].
  - split; intros Hflag; discriminate Hflag.
  - destruct (reset_inv _ _ _ _ Hreset) as (e & sr & e1 & _ & -> & _).
    destruct IH as [Hb Hf]. unfold baselines_set, flags_ordered, seeded in *.
    destruct seed0; split; exact Hb || exact Hf.
  - destruct (step_inv_answer _ _ _ _ Hstep) as (sr & e1 & st1 & _ & Htr & ->).
    destruct IH as [Hb Hf].
    exact (update_tracking_invariant _ _ _ _ Htr Hb Hf).
  - exact IH.
  - exact IH.
  - destruct IH as [Hb Hf]. unfold baselines_set, flags_ordered, seeded in *.
    destruct seed0; split; exact Hb || exact Hf.
  - destruct IH as [Hb Hf]. unfold baselines_set, flags_ordered, seeded in *.
    destruct seed0; split; exact Hb || exact Hf.
Qed.

(** On any environment a program can hold, a finished blind is a started
    blind, and a started blind has both baselines assigned. *)
Theorem blind_flags_invariant st :
  reachable st →
  (blind_finished st = true → blind_started st = true) ∧
  (blind_started st = true →
     is_Some (blind_score_at_start st) ∧ is_Some (blind_money_at_start st)).
Proof.
  intros Hreach. destruct (reachable_invariant _ Hreach) as [Hb Hf].
  split; [exact Hf | exact Hb].
Qed.

(** The action [step] hands to the engine is one of the cached legal
    actions, or 0 when none is cached; it is never negative. *)
Theorem effective_action_offered st action :
  (effective_action st action ∈ Z.of_nat <$> last_valid_actions st ∨
   last_valid_actions st = [] ∧ effective_action st action = 0) ∧
  (0 ≤ effective_action st action)%Z.
Proof.
  unfold effective_action, map_action.
  destruct (decide (action ∈ Z.of_nat <$> last_valid_actions st)) as [Hin|Hout].
  - rewrite bool_decide_eq_true_2 by done. cbn. split; [by left|].
    apply list_elem_of_fmap in Hin as (n & -> & _). lia.
  - rewrite bool_decide_eq_false_2 by done. cbn.
    destruct (last_valid_actions st) as [|first rest]; cbn.
    + split; [by right | done].
    + split; [left; apply list_elem_of_here | lia].
Qed.

(** A returning [step] caches the action indices it reports. *)
Lemma step_caches_actions st action st' out :
  step st action = Ok (st', out) →
  info out !! "valid_actions" = Some (VList (last_valid_actions st')).
Proof.
  intros Hstep.
  destruct (step_inv _ _ _ _ Hstep)
    as (e & sr & e1 & st1 & _ & _ & _ & -> & _ & _ & _ & _ & ->).
  by simplify_map_eq.
Qed.

Lemma reset_caches_actions st seed0 st' obs inf :
  reset st seed0 = Ok (st', (obs, inf)) →
  inf !! "valid_actions" = Some (VList (last_valid_actions st')).
Proof.
  intros Hreset.
  destruct (reset_inv _ _ _ _ Hreset) as (e & sr & e1 & _ & -> & [= -> ->]).
  unfold reset_info. by simplify_map_eq.
Qed.

(** An agent that picks its next action from the [valid_actions] of the
    info it was last given (by [step] or by [reset]) is never remapped:
    the action reaches the engine unchanged, at no penalty, and the next
    step reports it as not mapped. *)
Theorem offered_action_accepted st st' (inf : gmap string PyVal)
    (offered : list nat) (next : nat) :
  (∃ action out, step st action = Ok (st', out) ∧ info out = inf) ∨
  (∃ seed0 obs, reset st seed0 = Ok (st', (obs, inf))) →
  inf !! "valid_actions" = Some (VList offered) →
  next ∈ offered →
  last_valid_actions st' = offered ∧
  effective_action st' (Z.of_nat next) = Z.of_nat next ∧
  remap_penalty st' (Z.of_nat next) = 0%Q ∧
  (∀ st'' out', step st' (Z.of_nat next) = Ok (st'', out') →
     info out' !! "action_mapped" = Some (VBool false) ∧
     info out' !! "mapped_action" = Some (VInt (Z.of_nat next))).
Proof.
  intros Hcall Hinf Hnext.
  assert (Hcache : last_valid_actions st' = offered).
  { destruct Hcall as [(action & out & Hstep & <-)|(seed0 & obs & Hreset)].
    - rewrite (step_caches_actions _ _ _ _ Hstep) in Hinf. by injection Hinf.
    - rewrite (reset_caches_actions _ _ _ _ _ Hreset) in Hinf. by injection Hinf. }
  assert (Hin : Z.of_nat next ∈ Z.of_nat <$> last_valid_actions st').
  { rewrite Hcache. by apply list_elem_of_fmap_2. }
  assert (Hmap : map_action (Z.of_nat next) (last_valid_actions st') =
                 (Z.of_nat next, 0%Q)) by by apply map_action_valid.
  split; [exact Hcache|].
  unfold effective_action, remap_penalty. rewrite Hmap. cbn.
  split; [done|]. split; [done|].
  intros st'' out' Hstep.
  destruct (step_inv _ _ _ _ Hstep)
    as (e & sr & e1 & st1 & _ & _ & _ & _ & _ & _ & _ & _ & ->).
  unfold effective_action. rewrite Hmap. cbn.
  rewrite bool_decide_eq_true_2 by done. by simplify_map_eq.
Qed.

Lemma remap_penalty_range st action :
  (-10 <= remap_penalty st action)%Q ∧ (remap_penalty st action <= 0)%Q.
Proof.
  unfold remap_penalty, map_action.
  destruct (bool_decide _); cbn; [split; lra|].
  destruct (last_valid_actions st); cbn; split; lra.
Qed.

Lemma blind_bonus_range st sr :
  (0 <= blind_bonus st sr)%Q ∧ (blind_bonus st sr <= 1000)%Q.
Proof. unfold blind_bonus. destruct (blind_bonus_due st sr); split; lra. Qed.

(** The reward of a step is never below -10.01, and never below -0.01
    when the requested action was one of the cached legal actions: losses
    of score or money are not charged. *)
Theorem reward_lower_bound st action st' out :
  step st action = Ok (st', out) →
  (- (1001 # 100) <= reward out)%Q ∧
  (action ∈ Z.of_nat <$> last_valid_actions st →
     (- (1 # 100) <= reward out)%Q).
Proof.
  intros Hstep.
  destruct (step_inv_answer _ _ _ _ Hstep) as (sr & e1 & st1 & Hans & _ & _).
  pose proof (reward_decomposition _ _ _ _ _ _ Hstep Hans) as Hrew.
  pose proof (gain_reward_nonneg st st') as Hgain.
  pose proof (blind_bonus_range st' sr) as [Hb0 _].
  pose proof (remap_penalty_range st action) as [Hp0 _].
  unfold shaped_reward in Hrew.
  split.
  - rewrite Hrew. lra.
  - intros Hin. rewrite Hrew.
    unfold remap_penalty. rewrite (map_action_valid _ _ Hin). cbn. lra.
Qed.

(** The info dictionary of [step] has exactly the nine documented keys;
    score and money are the tracked (blind-relative) values after the
    step. *)
Theorem step_info_keys st action st' out :
  step st action = Ok (st', out) →
  dom (info out) = list_to_set info_fields ∧
  info out !! "score" = Some (VNum (current_score st')) ∧
  info out !! "money" = Some (VNum (current_money st')) ∧
  info out !! "original_action" = Some (VInt action) ∧
  info out !! "mapped_action" = Some (VInt (effective_action st action)).
Proof.
  intros Hstep.
  destruct (step_inv _ _ _ _ Hstep)
    as (e & sr & e1 & st1 & _ & _ & _ & _ & _ & _ & _ & _ & ->).
  split; [|by simplify_map_eq].
  rewrite !dom_insert_L, dom_empty_L. unfold info_fields. cbn.
  apply set_eq. intros key.
  rewrite !elem_of_union, !elem_of_singleton, elem_of_empty. tauto.
Qed.

(** The info dictionary of [reset] has exactly three keys, [phase],
    [status] and [valid_actions]: the score, money and action fields of
    [step]'s info are absent from it. *)
Theorem reset_info_keys st seed0 st' obs inf :
  reset st seed0 = Ok (st', (obs, inf)) →
  dom inf = {["phase"; "status"; "valid_actions"]} ∧
  inf !! "score" = None ∧ inf !! "money" = None ∧
  inf !! "action_mapped" = None ∧ inf !! "original_action" = None ∧
  inf !! "mapped_action" = None ∧ inf !! "finished" = None.
Proof.
  intros Hreset.
  destruct (reset_inv _ _ _ _ Hreset) as (e & sr & e1 & _ & _ & [= _ ->]).
  unfold reset_info. split; [|by simplify_map_eq].
  rewrite !dom_insert_L, dom_empty_L.
  apply set_eq. intros key.
  rewrite !elem_of_union, !elem_of_singleton, elem_of_empty. tauto.
Qed.

Lemma update_tracking_no_snapshot st e sr st1 :
  update_tracking st e sr = Ok st1 →
  engine_game_state e = None →
  current_score st1 = current_score st ∧
  current_money st1 = current_money st.
Proof.
  intros Htr Hnone. revert Htr.
  tracking_cases; intros [= <-] || discriminate; cbn; try done; congruence.
Qed.

(** When [game_state()] fails on a step, the step falls back to the
    tracked values: [current_score] and [current_money] are left as they
    were, whatever the phase, and a blind that starts on this step takes
    them as its baselines. *)
Theorem snapshot_failure_keeps_score st action st' out sr e1 :
  step st action = Ok (st', out) →
  engine_answer st action = Some (sr, e1) →
  engine_game_state e1 = None →
  current_score st' = current_score st ∧
  current_money st' = current_money st ∧
  info out !! "score" = Some (VNum (current_score st)) ∧
  (phase sr = Some "Playing" → prev_phase st ≠ Some "Playing" →
     blind_score_at_start st' = Some (current_score st) ∧
     blind_money_at_start st' = Some (current_money st)).
Proof.
  intros Hstep Hans Hnone.
  destruct (step_answer _ _ _ _ _ _ Hstep Hans) as (st1 & Htr & -> & _).
  pose proof (step_info _ _ _ _ _ _ Hstep Hans) as ->.
  destruct (update_tracking_no_snapshot _ _ _ _ Htr Hnone) as [Hs Hm].
  cbn in Hs, Hm. cbn.
  split; [exact Hs|]. split; [exact Hm|].
  split; [simplify_map_eq; cbn; by rewrite Hs|].
  intros Hplay Hprev.
  destruct (update_tracking_spec _ _ _ _ Htr) as (_ & Henter & _).
  destruct (Henter Hplay Hprev) as (_ & _ & Hcap).
  unfold captured in Hcap. rewrite Hnone in Hcap. exact Hcap.
Qed.

(** A returning [step] advances the counter by one and keeps the budget. *)
Lemma step_counts st action st' out :
  step st action = Ok (st', out) →
  step_count st' = step_count st + 1 ∧
  max_episode_steps st' = max_episode_steps st.
Proof.
  intros Hstep.
  destruct (step_inv_answer _ _ _ _ Hstep) as (sr & e1 & st1 & _ & Htr & ->).
  apply update_tracking_frame in Htr as (_ & Hcount & Hmax & _).
  cbn in *. by rewrite Hcount, Hmax.
Qed.

(** A step that does not terminate is within the budget; a step that
    earns the blind bonus terminates. *)
Lemma step_not_terminated st action st' out :
  step st action = Ok (st', out) →
  terminated out = false →
  step_count st' < max_episode_steps st.
Proof.
  intros Hstep Hterm.
  destruct (step_counts _ _ _ _ Hstep) as [_ Hmax].
  destruct (step_inv _ _ _ _ Hstep)
    as (e & sr & e1 & st1 & _ & _ & _ & _ & _ & _ & Hdone & _).
  rewrite Hdone in Hterm. unfold is_done in Hterm.
  rewrite Hmax in Hterm.
  repeat case_bool_decide; try done.
  - destruct (phase_is sr "RoundEnd" && blind_started st'); done.
  - destruct (phase_is sr "RoundEnd" && blind_started st'); [done|lia].
Qed.



Lemma run_steps_cons st action acts recs :
  run_steps st (action :: acts) = Ok recs →
  ∃ st' out rest,
    step st action = Ok (st', out) ∧
    run_steps st' acts = Ok rest ∧ recs = (st', out) :: rest.
Proof.
  cbn [run_steps].
  destruct (step st action) as [[st' out]|err]; [|discriminate].
  rewrite bind_ok.
  destruct (run_steps st' acts) as [rest|err] eqn:Hrest; [|discriminate].
  rewrite bind_ok. intros [= <-]. by exists st', out, rest.
Qed.

(** Every record of a run is the output of [step] on the environment the
    run had reached, [i] steps after the start. *)
Lemma run_steps_lookup st acts recs (i : nat) rec :
  run_steps st acts = Ok recs →
  recs !! i = Some rec →
  ∃ prev action,
    step prev action = Ok rec ∧
    step_count prev = step_count st + Z.of_nat i ∧
    max_episode_steps prev = max_episode_steps st.
Proof.
  revert st recs i. induction acts as [|action acts IH]; intros st recs i Hrun Hi.
  - injection Hrun as <-. by rewrite lookup_nil in Hi.
  - destruct (run_steps_cons _ _ _ _ Hrun) as (st' & out & rest & Hstep & Hrest & ->).
    destruct i as [|i].
    + injection Hi as <-. exists st, action. split; [done|]. split; [lia|done].
    + cbn in Hi. destruct (IH _ _ _ Hrest Hi) as (prev & a & Hp & Hc & Hm).
      destruct (step_counts _ _ _ _ Hstep) as [Hc' Hm'].
      exists prev, a. split; [done|]. split; [lia|congruence].
Qed.

Lemma run_steps_length st acts recs :
  run_steps st acts = Ok recs → length recs = length acts.
Proof.
  revert st recs. induction acts as [|action acts IH]; intros st recs Hrun.
  - by injection Hrun as <-.
  - destruct (run_steps_cons _ _ _ _ Hrun) as (st' & out & rest & _ & Hrest & ->).
    cbn. by rewrite (IH _ _ Hrest).
Qed.

(** An episode never exceeds the step budget: a run of steps in which no
    step before the last terminated has at most [max_episode_steps] steps,
    counted from the start of the counter (and one step when the budget is
    already used up); the counter after the [i]-th step is its number. *)
Theorem episode_length_bound st acts recs :
  run_steps st acts = Ok recs →
  episode recs →
  length recs = length acts ∧
  (∀ (i : nat) rec, recs !! i = Some rec →
     step_count rec.1 = step_count st + Z.of_nat (S i)) ∧
  (Z.of_nat (length recs) ≤ Z.max 1 (max_episode_steps st - step_count st))%Z.
Proof.
  intros Hrun Hepi.
  assert (Hcount : ∀ (i : nat) rec, recs !! i = Some rec →
            step_count rec.1 = step_count st + Z.of_nat (S i)).
  { intros i [st' out] Hi.
    destruct (run_steps_lookup _ _ _ _ _ Hrun Hi) as (prev & a & Hstep & Hc & _).
    destruct (step_counts _ _ _ _ Hstep) as [Hc' _]. cbn. lia. }
  split; [by eapply run_steps_length|]. split; [exact Hcount|].
  destruct (decide (length recs ≤ 1)%nat) as [Hshort|Hlong]; [lia|].
  destruct (lookup_lt_is_Some_2 recs (length recs - 2)) as [[st' out] Hi]; [lia|].
  assert (Hterm : terminated out = false).
  { apply (Hepi _ _ Hi). lia. }
  destruct (run_steps_lookup _ _ _ _ _ Hrun Hi) as (prev & a & Hstep & Hc & Hm).
  pose proof (step_not_terminated _ _ _ _ Hstep Hterm) as Hlt.
  destruct (step_counts _ _ _ _ Hstep) as [Hc' _].
  lia.
Qed.


(** The tracked score and money are relative to the start of the blind:
    when a step enters [Playing] with the engine reporting score [s0] and
    money [m0], and the next step stays in [Playing] or reaches [RoundEnd]
    with the engine reporting [s] and [m], the adapter then tracks, and
    reports in [info], [s - s0] and [m - m0]. *)
Theorem score_relative_to_blind_start
    st a1 st1 out1 sr1 e1 a2 st2 out2 sr2 e2 (s0 m0 s m : Q) :
  step st a1 = Ok (st1, out1) →
  engine_answer st a1 = Some (sr1, e1) →
  phase sr1 = Some "Playing" → prev_phase st ≠ Some "Playing" →
  engine_game_state e1 = Some (s0, m0) →
  step st1 a2 = Ok (st2, out2) →
  engine_answer st1 a2 = Some (sr2, e2) →
  phase sr2 = Some "Playing" ∨ phase sr2 = Some "RoundEnd" →
  engine_game_state e2 = Some (s, m) →
  current_score st2 = (s - s0)%Q ∧ current_money st2 = (m - m0)%Q ∧
  info out2 !! "score" = Some (VNum (s - s0)%Q) ∧
  info out2 !! "money" = Some (VNum (m - m0)%Q).
Proof.
  intros Hstep1 Hans1 Hplay Hprev Hsnap1 Hstep2 Hans2 Hphase2 Hsnap2.
  destruct (step_answer _ _ _ _ _ _ Hstep1 Hans1) as (t1 & Htr1 & -> & _).
  destruct (update_tracking_spec _ _ _ _ Htr1) as (_ & Henter & _).
  destruct (Henter Hplay Hprev) as (Hstarted & _ & Hcap).
  unfold captured in Hcap. rewrite Hsnap1 in Hcap. destruct Hcap as [Hb0 Hm0].
  pose proof (step_info _ _ _ _ _ _ Hstep2 Hans2) as Hinfo.
  destruct (step_answer _ _ _ _ _ _ Hstep2 Hans2) as (t2 & Htr2 & -> & _).
  destruct (update_tracking_spec _ _ _ _ Htr2) as (_ & _ & Hend & Hstay & _).
  assert (Href : refreshed (tracked (finish_step t1 sr1) e2) t2 e2).
  { destruct Hphase2 as [Hp|Hp].
    - destruct (Hstay Hp) as (_ & _ & Href); [by cbn | by cbn | done].
    - destruct (Hend Hp) as (_ & _ & Href); [by cbn | done]. }
  unfold refreshed in Href. rewrite Hsnap2 in Href.
  destruct Href as (b0 & bm0 & Hb & Hbm & Hs & Hm).
  cbn in Hb, Hbm. rewrite Hb0 in Hb. rewrite Hm0 in Hbm.
  injection Hb as <-. injection Hbm as <-.
  rewrite Hinfo. cbn.
  split; [exact Hs|]. split; [exact Hm|].
  split; simplify_map_eq; cbn; congruence.
Qed.

End Properties.

(** ** Runs on the scripted engine *)

(** In the [Playing] phase the engine offers 0 and 2; the request 999 goes
    to the engine as 0, costs 10 and is reported. *)
Lemma step_remap_witness :
  ∃ st' out,
    step Scripted.at_playing 999 = Ok (st', out) ∧
    effective_action Scripted.at_playing 999 = 0 ∧
    remap_penalty Scripted.at_playing 999 = (-10)%Q ∧
    info out !! "action_mapped" = Some (VBool true).
Proof.
  destruct (step Scripted.at_playing 999) as [[st' out]|e] eqn:Hstep;
    [|run_call Hstep].
  assert (Hans : engine_answer Scripted.at_playing 999 =
                 Some (Scripted.current (tail (tail Scripted.one_blind)),
                       tail (tail Scripted.one_blind)))
    by (vm_compute; reflexivity).
  destruct (step_remap _ _ _ _ _ _ Hstep Hans) as (_ & _ & _ & _ & _ & Hsecond & _).
  assert (Hout : 999 ∉ Z.of_nat <$> last_valid_actions Scripted.at_playing).
  { intros Hin. change (999 ∈ [0; 2]) in Hin.
    repeat (apply elem_of_cons in Hin as [Hin|Hin]; [discriminate Hin|]).
    by apply elem_of_nil in Hin. }
  exists st', out. split; [reflexivity|].
  exact (Hsecond Hout 0%nat [2%nat] eq_refl).
Defined.

(** C1, the contract as stated fails: on an engine that offered no choice,
    the request 0 is charged 0.5 but reported as not remapped. *)
Lemma remap_contract_counterexample :
  ¬ remap_contract_as_stated Scripted.at_no_choice 0.
Proof.
  intros Hc.
  destruct (step Scripted.at_no_choice 0) as [[st' out]|e] eqn:Hstep;
    [|run_call Hstep].
  assert (Hans : engine_answer Scripted.at_no_choice 0 =
                 Some (Scripted.current (tail Scripted.no_choice),
                       tail Scripted.no_choice))
    by (vm_compute; reflexivity).
  destruct (Hc _ _ _ _ Hstep Hans) as (_ & _ & Hempty).
  destruct (Hempty eq_refl) as (_ & _ & Hflag).
  run_call Hstep. vm_compute in Hflag. discriminate Hflag.
Qed.

(** C1, the defect at the failing input: on an environment whose engine
    offered no choice, the requests 0 and 5 both take the invalid-action
    branch: the engine receives 0 and the reward carries the penalty -0.5
    (it is -0.51 in both cases).  Only the request 5 is reported as
    remapped; for the request 0 [info] says [action_mapped] is False. *)
Theorem remap_flag_defect :
  last_valid_actions Scripted.at_no_choice = [] ∧
  ∃ st0 out0 st5 out5,
    step Scripted.at_no_choice 0 = Ok (st0, out0) ∧
    step Scripted.at_no_choice 5 = Ok (st5, out5) ∧
    effective_action Scripted.at_no_choice 0 = 0 ∧
    effective_action Scripted.at_no_choice 5 = 0 ∧
    remap_penalty Scripted.at_no_choice 0 = (-1 # 2)%Q ∧
    remap_penalty Scripted.at_no_choice 5 = (-1 # 2)%Q ∧
    (reward out0 == -51 # 100)%Q ∧
    (reward out5 == -51 # 100)%Q ∧
    info out0 !! "action_mapped" = Some (VBool false) ∧
    info out5 !! "action_mapped" = Some (VBool true).
Proof.
  split; [reflexivity|].
  assert (Hz : match step Scripted.at_no_choice 0 with
               | Ok (_, out) => Some (reward out, info out !! "action_mapped")
               | Raise _ => None
               end = Some ((-102 # 200)%Q, Some (VBool false)))
    by (vm_compute; reflexivity).
  assert (Hf : match step Scripted.at_no_choice 5 with
               | Ok (_, out) => Some (reward out, info out !! "action_mapped")
               | Raise _ => None
               end = Some ((-102 # 200)%Q, Some (VBool true)))
    by (vm_compute; reflexivity).
  destruct (step Scripted.at_no_choice 0) as [[st0 out0]|e]; [|discriminate Hz].
  destruct (step Scripted.at_no_choice 5) as [[st5 out5]|e]; [|discriminate Hf].
  injection Hz as Hr0 Hi0. injection Hf as Hr5 Hi5.
  exists st0, out0, st5, out5. rewrite Hr0, Hr5, Hi0, Hi5.
  split_and!; reflexivity.
Qed.

(** C3, witness: selecting the blind enters [Playing] from [BlindSelect]
    and starts the blind. *)
Lemma step_phase_tracker_witness :
  ∃ st' out,
    step Scripted.at_blind_select 1 = Ok (st', out) ∧
    blind_started st' = true ∧ blind_finished st' = false ∧
    prev_phase st' = Some "Playing".
Proof.
  destruct (step Scripted.at_blind_select 1) as [[st' out]|e] eqn:Hstep;
    [|run_call Hstep].
  assert (Hans : engine_answer Scripted.at_blind_select 1 = Some Scripted.answer_playing)
    by (vm_compute; reflexivity).
  destruct (step_phase_tracker _ _ _ _ _ _ Hstep Hans)
    as (_ & Henter & _ & _ & _ & Hprev).
  destruct (Henter eq_refl ltac:(discriminate)) as (Hs & Hf & _).
  exists st', out. split; [reflexivity|]. split; [exact Hs|].
  split; [exact Hf | exact Hprev].
Defined.

(** C4, witness: the step that reaches [RoundEnd] terminates the episode
    and is not truncated. *)
Lemma step_termination_witness :
  ∃ st' out,
    step Scripted.at_last_hand 0 = Ok (st', out) ∧
    terminated out = true ∧ truncated out = false ∧ step_count st' = 3.
Proof.
  destruct (step Scripted.at_last_hand 0) as [[st' out]|e] eqn:Hstep;
    [|run_call Hstep].
  assert (Hans : engine_answer Scripted.at_last_hand 0 = Some Scripted.answer_round_end)
    by (vm_compute; reflexivity).
  destruct (step_termination _ _ _ _ _ _ Hstep Hans) as (Hterm & Hcount & Htrunc).
  exists st', out. split; [reflexivity|].
  split; [|split; [exact Htrunc | exact Hcount]].
  apply Hterm. right. left. split; [reflexivity|].
  run_call Hstep. reflexivity.
Defined.

(** C2, witness: the step that reaches [RoundEnd] gains 180 in score and 3
    in money and earns the bonus: 180 + 750 - 0.01 + 1000. *)
Lemma step_reward_witness :
  ∃ st' out,
    step Scripted.at_last_hand 0 = Ok (st', out) ∧
    (reward out == 192999 # 100)%Q ∧
    previous_score st' = current_score st'.
Proof.
  destruct (step Scripted.at_last_hand 0) as [[st' out]|e] eqn:Hstep;
    [|run_call Hstep].
  assert (Hans : engine_answer Scripted.at_last_hand 0 = Some Scripted.answer_round_end)
    by (vm_compute; reflexivity).
  destruct (step_reward _ _ _ _ _ _ Hstep Hans) as (Hrew & _ & Hprev & _).
  exists st', out. split; [reflexivity|]. split; [|exact Hprev].
  rewrite Hrew. run_call Hstep. vm_compute. reflexivity.
Defined.

(** The scripted environments are reachable. *)
Lemma reachable_fresh deck : reachable (Scripted.fresh deck).
Proof.
  unfold Scripted.fresh.
  destruct (reset (Scripted.env deck) None) as [[st out]|e] eqn:Hreset.
  - exact (reach_reset _ _ _ _ (reach_init 12345 deck "White" 1000 true) Hreset).
  - apply reach_init.
Qed.

Lemma reachable_after st action :
  reachable st → reachable (Scripted.after st action).1.
Proof.
  intros Hreach. unfold Scripted.after.
  destruct (step st action) as [[st' out]|e] eqn:Hstep.
  - exact (reach_step _ _ _ _ Hreach Hstep).
  - exact Hreach.
Qed.

Lemma reachable_played deck acts : reachable (Scripted.played deck acts).
Proof.
  unfold Scripted.played. generalize (reachable_fresh deck).
  generalize (Scripted.fresh deck).
  induction acts as [|action acts IH]; intros st Hreach; [exact Hreach|].
  cbn [foldl]. apply IH. by apply reachable_after.
Qed.

Lemma reachable_at_blind_select : reachable Scripted.at_blind_select.
Proof.
  assert (Heq : Scripted.fresh "Red" = Scripted.at_blind_select)
    by (vm_compute; reflexivity).
  rewrite <- Heq. apply reachable_fresh.
Qed.

Lemma reachable_at_playing : reachable Scripted.at_playing.
Proof.
  assert (Heq : Scripted.played "Red" [1] = Scripted.at_playing)
    by (vm_compute; reflexivity).
  rewrite <- Heq. apply reachable_played.
Qed.

(** Witness: a step result without a phase is encoded with index 0. *)
Lemma unknown_phase_index_witness :
  obs_phase (extract_observation Scripted.at_playing
               {| status := "Progressed"; phase := None; actions := [];
                  finished := None |}) = [0].
Proof.
  refine (proj1 (proj2 (unknown_phase_index Scripted.at_playing _ _))).
  left. reflexivity.
Defined.

(** Witness: [reset] on the environment that ended a blind keeps both
    flags set. *)
Lemma reset_effect_witness :
  ∃ st' obs inf,
    reset Scripted.at_round_end None = Ok (st', (obs, inf)) ∧
    step_count st' = 0 ∧ current_score st' = 0%Q ∧
    blind_started st' = true ∧ blind_finished st' = true.
Proof.
  destruct (reset Scripted.at_round_end None) as [[st' [obs inf]]|e] eqn:Hreset;
    [|vm_compute in Hreset; discriminate Hreset].
  assert (Hans : probe_answer Scripted.at_round_end None =
                 Some (Scripted.current Scripted.one_blind, Scripted.one_blind))
    by (vm_compute; reflexivity).
  destruct (reset_effect _ _ _ _ _ _ _ Hreset Hans)
    as ((_ & _ & Hs & _ & _ & _ & Hc & _) & (Hbs & Hbf & _) & _).
  exists st', obs, inf. split; [reflexivity|].
  split; [exact Hc|]. split; [exact Hs|].
  split; [rewrite Hbs | rewrite Hbf]; reflexivity.
Defined.

(** Witness: the flags of the environment in the [Playing] phase. *)
Lemma blind_flags_invariant_witness :
  is_Some (blind_score_at_start Scripted.at_playing).
Proof.
  exact (proj1 (proj2 (blind_flags_invariant Scripted.at_playing
                         reachable_at_playing) eq_refl)).
Defined.

(** Witness: after the blind was selected the engine offers 0 and 2, and
    the offered action 2 is accepted as it is. *)
Lemma offered_action_accepted_witness :
  effective_action Scripted.at_playing 2 = 2 ∧
  remap_penalty Scripted.at_playing 2 = 0%Q.
Proof.
  destruct (step Scripted.at_blind_select 1) as [[st' out]|e] eqn:Hstep;
    [|run_call Hstep].
  assert (Hst : st' = Scripted.at_playing).
  { run_call Hstep. reflexivity. }
  assert (Hinf : info out !! "valid_actions" = Some (VList [0; 2]%nat)).
  { run_call Hstep. vm_compute. reflexivity. }
  destruct (offered_action_accepted Scripted.at_blind_select st' (info out)
              [0; 2]%nat 2%nat) as (_ & Heff & Hpen & _).
  - left. exists 1, out. split; [exact Hstep | reflexivity].
  - exact Hinf.
  - apply list_elem_of_further, list_elem_of_here.
  - rewrite Hst in Heff, Hpen. split; [exact Heff | exact Hpen].
Defined.

(** Witness: the remapped request 999 costs 10 but the gain of 120 keeps
    the reward above the bound. *)
Lemma reward_lower_bound_witness :
  ∃ st' out, step Scripted.at_playing 999 = Ok (st', out) ∧
             (- (1001 # 100) <= reward out)%Q.
Proof.
  destruct (step Scripted.at_playing 999) as [[st' out]|e] eqn:Hstep;
    [|run_call Hstep].
  exists st', out. split; [reflexivity|].
  exact (proj1 (reward_lower_bound _ _ _ _ Hstep)).
Defined.

(** Witness: the info of a step has the nine keys. *)
Lemma step_info_keys_witness :
  ∃ st' out, step Scripted.at_playing 0 = Ok (st', out) ∧
             dom (info out) = list_to_set info_fields.
Proof.
  destruct (step Scripted.at_playing 0) as [[st' out]|e] eqn:Hstep;
    [|run_call Hstep].
  exists st', out. split; [reflexivity|].
  exact (proj1 (step_info_keys _ _ _ _ Hstep)).
Defined.

(** Witness: the info of [reset] has no score. *)
Lemma reset_info_keys_witness :
  ∃ st' obs inf, reset (Scripted.env "Red") None = Ok (st', (obs, inf)) ∧
                 inf !! "score" = None.
Proof.
  destruct (reset (Scripted.env "Red") None) as [[st' [obs inf]]|e] eqn:Hreset;
    [|vm_compute in Hreset; discriminate Hreset].
  exists st', obs, inf. split; [reflexivity|].
  exact (proj1 (proj2 (reset_info_keys _ _ _ _ _ Hreset))).
Defined.

(** Witness: on the engine without [game_state()], entering [Playing]
    leaves the score at 0 and takes 0 as the baseline. *)
Lemma snapshot_failure_keeps_score_witness :
  ∃ st' out, step Scripted.at_blind_select_blind 1 = Ok (st', out) ∧
             current_score st' = 0%Q ∧
             blind_score_at_start st' = Some 0%Q.
Proof.
  destruct (step Scripted.at_blind_select_blind 1) as [[st' out]|e] eqn:Hstep;
    [|run_call Hstep].
  assert (Hans : engine_answer Scripted.at_blind_select_blind 1 =
            Some (Scripted.current (tail (Scripted.no_snapshot Scripted.one_blind)),
                  tail (Scripted.no_snapshot Scripted.one_blind)))
    by (vm_compute; reflexivity).
  destruct (snapshot_failure_keeps_score _ _ _ _ _ _ Hstep Hans eq_refl)
    as (Hs & _ & _ & Hbase).
  exists st', out. split; [reflexivity|]. split; [exact Hs|].
  exact (proj1 (Hbase eq_refl ltac:(discriminate))).
Defined.

(** The scripted blind, played from its start, is an episode of three
    steps. *)
Lemma scripted_episode recs :
  run_steps Scripted.at_blind_select [1; 999; 0] = Ok recs →
  episode recs ∧ length recs = 3%nat.
Proof.
  intros Hrun. vm_compute in Hrun. injection Hrun as <-.
  split; [|reflexivity].
  intros i rec Hi Hlt.
  destruct i as [|[|[|i]]]; try (cbn in Hlt; lia);
    injection Hi as <-; reflexivity.
Qed.

(** Witness: the scripted episode has three steps, within the budget of
    1000. *)
Lemma episode_length_bound_witness :
  ∃ recs, run_steps Scripted.at_blind_select [1; 999; 0] = Ok recs ∧
          (Z.of_nat (length recs) ≤ 1000)%Z.
Proof.
  destruct (run_steps Scripted.at_blind_select [1; 999; 0]) as [recs|e] eqn:Hrun;
    [|vm_compute in Hrun; discriminate Hrun].
  exists recs. split; [reflexivity|].
  pose proof (proj2 (proj2 (episode_length_bound _ _ _ Hrun
                              (proj1 (scripted_episode _ Hrun))))) as Hbound.
  assert (Hmax : Z.max 1 (max_episode_steps Scripted.at_blind_select
                          - step_count Scripted.at_blind_select) = 1000)
    by (vm_compute; reflexivity).
  rewrite Hmax in Hbound. exact Hbound.
Defined.


(** Witness: the blind starts at score 0; after the first hand the engine
    reports 120, and so does the adapter. *)
Lemma score_relative_to_blind_start_witness :
  ∃ st1 out1 st2 out2,
    step Scripted.at_blind_select 1 = Ok (st1, out1) ∧
    step st1 999 = Ok (st2, out2) ∧
    current_score st2 = (120 - 0)%Q.
Proof.
  destruct (step Scripted.at_blind_select 1) as [[st1 out1]|e] eqn:Hstep1;
    [|run_call Hstep1].
  assert (Hst1 : st1 = Scripted.at_playing) by (run_call Hstep1; reflexivity).
  destruct (step st1 999) as [[st2 out2]|e] eqn:Hstep2;
    [|rewrite Hst1 in Hstep2; run_call Hstep2].
  exists st1, out1, st2, out2. split; [reflexivity|]. split; [exact Hstep2|].
  refine (proj1 (score_relative_to_blind_start
                   Scripted.at_blind_select 1 st1 out1
                   (Scripted.current (tail Scripted.one_blind))
                   (tail Scripted.one_blind)
                   999 st2 out2
                   (Scripted.current (tail (tail Scripted.one_blind)))
                   (tail (tail Scripted.one_blind))
                   0%Q 4%Q 120%Q 4%Q Hstep1 _ eq_refl _ eq_refl Hstep2 _ _ eq_refl)).
  - vm_compute. reflexivity.
  - discriminate.
  - rewrite Hst1. vm_compute. reflexivity.
  - left. reflexivity.
Defined.

(** ** The logging callback wrapper *)

Lemma safe_wandb_count_app f a b :
  SafeWandb.count f (a ++ b)%list = SafeWandb.count f a + SafeWandb.count f b.
Proof.
  unfold SafeWandb.count. rewrite filter_app, length_app. lia.
Qed.

Lemma safe_wandb_failures_cons c calls :
  SafeWandb.failures (c :: calls) =
  (if SafeWandb.step_failure c then 1 else 0) + SafeWandb.failures calls.
Proof.
  unfold SafeWandb.failures. rewrite filter_cons.
  destruct (SafeWandb.step_failure c); case_decide; try congruence;
    cbn [length]; lia.
Qed.


Lemma safe_wandb_call_consistent h self wrapped :
  SafeWandb.consistent self →
  SafeWandb.consistent (SafeWandb.call h self wrapped).1.1.
Proof.
  intros Hinv. pose proof Hinv as (Hmax & Hrange & Hdis).
  destruct h; cbn [SafeWandb.call]; unfold SafeWandb.on_step,
    SafeWandb.on_quiet_hook;
    destruct (SafeWandb.disabled self) eqn:Hd; cbn [fst];
    try exact Hinv;
    destruct wrapped; cbn [fst]; try exact Hinv.
  symmetry in Hdis. apply bool_decide_eq_false in Hdis.
  cbn [SafeWandb.max_errors SafeWandb.error_count SafeWandb.set_error_count].
  rewrite Hmax.
  destruct (10 <=? SafeWandb.error_count self + 1)%Z eqn:Hcmp; cbn [fst].
  - apply Z.leb_le in Hcmp. unfold SafeWandb.consistent. cbn.
    repeat split; try lia. symmetry. apply bool_decide_eq_true. lia.
  - apply Z.leb_gt in Hcmp. unfold SafeWandb.consistent. cbn.
    repeat split; try lia. rewrite Hd. symmetry.
    apply bool_decide_eq_false. lia.
Qed.

Lemma safe_wandb_run_cons h wrapped rest self :
  SafeWandb.run self ((h, wrapped) :: rest) =
  let r := SafeWandb.call h self wrapped in
  let r' := SafeWandb.run r.1.1 rest in
  (r'.1.1, r.1.2 :: r'.1.2, (r.2 ++ r'.2)%list).
Proof.
  cbn [SafeWandb.run].
  destruct (SafeWandb.call h self wrapped) as [[self1 reply] events].
  cbn [fst snd].
  destruct (SafeWandb.run self1 rest) as [[self2 replies] later].
  reflexivity.
Qed.

Lemma safe_wandb_run_consistent calls : ∀ self,
  SafeWandb.consistent self →
  SafeWandb.consistent (SafeWandb.run self calls).1.1.
Proof.
  induction calls as [|[h wrapped] rest IH]; intros self Hinv; [exact Hinv|].
  rewrite safe_wandb_run_cons. cbn [fst].
  apply IH, safe_wandb_call_consistent, Hinv.
Qed.

(** One call from a consistent state: the counter moves by one exactly on a
    failing [_on_step] below the limit, and the messages follow it. *)
Lemma safe_wandb_call_counts h self wrapped :
  SafeWandb.consistent self →
  let r := SafeWandb.call h self wrapped in
  let f := if SafeWandb.step_failure (h, wrapped) then 1 else 0 in
  SafeWandb.error_count r.1.1 =
    Z.min 10 (SafeWandb.error_count self + f) ∧
  SafeWandb.count SafeWandb.is_warning r.2 =
    Z.min 3 (Z.min 10 (SafeWandb.error_count self + f))
    - Z.min 3 (SafeWandb.error_count self) ∧
  SafeWandb.count SafeWandb.is_notice r.2 =
    (if bool_decide (10 ≤ SafeWandb.error_count r.1.1)%Z then 1 else 0)
    - (if bool_decide (10 ≤ SafeWandb.error_count self)%Z then 1 else 0).
Proof.
  intros (Hmax & Hrange & Hdis).
  destruct h; cbn [SafeWandb.call]; unfold SafeWandb.on_step,
    SafeWandb.on_quiet_hook;
    destruct (SafeWandb.disabled self) eqn:Hd;
    symmetry in Hdis;
    [apply bool_decide_eq_true in Hdis | apply bool_decide_eq_false in Hdis
    |apply bool_decide_eq_true in Hdis | apply bool_decide_eq_false in Hdis
    |apply bool_decide_eq_true in Hdis | apply bool_decide_eq_false in Hdis
    |apply bool_decide_eq_true in Hdis | apply bool_decide_eq_false in Hdis];
    try destruct wrapped; cbn [fst snd SafeWandb.step_failure];
    try (repeat split; [lia | vm_compute SafeWandb.count; lia |
         vm_compute SafeWandb.count; case_bool_decide; lia]).
  all: cbn [SafeWandb.max_errors SafeWandb.error_count
            SafeWandb.set_error_count]; rewrite Hmax.
  all: destruct (10 <=? SafeWandb.error_count self + 1)%Z eqn:Hcmp;
    [apply Z.leb_le in Hcmp | apply Z.leb_gt in Hcmp];
    destruct (SafeWandb.error_count self + 1 <=? 3)%Z eqn:Hw;
    [apply Z.leb_le in Hw | apply Z.leb_gt in Hw
    |apply Z.leb_le in Hw | apply Z.leb_gt in Hw];
    cbn [fst snd SafeWandb.error_count SafeWandb.set_disabled
         SafeWandb.set_error_count];
    repeat split; try lia;
    try (vm_compute SafeWandb.count; repeat case_bool_decide; lia).
Qed.

Lemma safe_wandb_failures_nonneg calls : (0 ≤ SafeWandb.failures calls)%Z.
Proof. unfold SafeWandb.failures. lia. Qed.

Lemma safe_wandb_run_counts calls : ∀ self,
  SafeWandb.consistent self →
  let r := SafeWandb.run self calls in
  SafeWandb.error_count r.1.1 =
    Z.min 10 (SafeWandb.error_count self + SafeWandb.failures calls) ∧
  SafeWandb.count SafeWandb.is_warning r.2 =
    Z.min 3 (SafeWandb.error_count r.1.1)
    - Z.min 3 (SafeWandb.error_count self) ∧
  SafeWandb.count SafeWandb.is_notice r.2 =
    (if bool_decide (10 ≤ SafeWandb.error_count r.1.1)%Z then 1 else 0)
    - (if bool_decide (10 ≤ SafeWandb.error_count self)%Z then 1 else 0).
Proof.
  induction calls as [|[h wrapped] rest IH]; intros self Hinv.
  - pose proof Hinv as (_ & Hrange & _). cbn [SafeWandb.run fst snd].
    unfold SafeWandb.failures, SafeWandb.count. cbn.
    repeat split; try lia.
  - cbv zeta. rewrite safe_wandb_run_cons. cbv zeta. cbn [fst snd].
    pose proof (safe_wandb_call_counts h self wrapped Hinv) as Hcall.
    cbv zeta in Hcall. destruct Hcall as (Hc1 & Hc2 & Hc3).
    pose proof (safe_wandb_call_consistent h self wrapped Hinv) as Hinv1.
    specialize (IH _ Hinv1). cbv zeta in IH. destruct IH as (IH1 & IH2 & IH3).
    rewrite !safe_wandb_count_app, safe_wandb_failures_cons.
    pose proof (safe_wandb_failures_nonneg rest) as Hnn.
    rewrite IH2, IH3, Hc2, Hc3. rewrite IH1, Hc1.
    assert (Hf : (0 ≤ (if SafeWandb.step_failure (h, wrapped) then 1 else 0)
                 ≤ 1)%Z) by (destruct (SafeWandb.step_failure _); lia).
    revert Hf. generalize (if SafeWandb.step_failure (h, wrapped)
                           then 1 else 0). intros f Hf.
    repeat split; try lia.
Qed.

Lemma safe_wandb_init_consistent : SafeWandb.consistent SafeWandb.init.
Proof.
  unfold SafeWandb.consistent, SafeWandb.init. cbn.
  repeat split; try lia.
Qed.

(** The error budget of the logging wrapper: over any sequence of hook
    calls on a fresh wrapper, the error counter is the number of failing
    [_on_step] calls capped at ten, the wrapper is switched off exactly when
    ten have failed, at most the first three failures are reported and the
    switch-off is announced once. *)
Theorem safe_wandb_error_budget calls :
  let r := SafeWandb.run SafeWandb.init calls in
  SafeWandb.error_count r.1.1 = Z.min 10 (SafeWandb.failures calls) ∧
  SafeWandb.disabled r.1.1 = bool_decide (10 ≤ SafeWandb.failures calls)%Z ∧
  SafeWandb.count SafeWandb.is_warning r.2 =
    Z.min 3 (SafeWandb.failures calls) ∧
  SafeWandb.count SafeWandb.is_notice r.2 =
    if bool_decide (10 ≤ SafeWandb.failures calls)%Z then 1 else 0.
Proof.
  cbv zeta.
  pose proof (safe_wandb_run_counts calls _ safe_wandb_init_consistent)
    as (H1 & H2 & H3).
  pose proof (safe_wandb_run_consistent calls _ safe_wandb_init_consistent)
    as (_ & _ & Hdis).
  pose proof (safe_wandb_failures_nonneg calls) as Hnn.
  change (SafeWandb.error_count SafeWandb.init) with 0 in *.
  rewrite Z.add_0_l in H1.
  split; [exact H1|]. split; [|split].
  - rewrite Hdis, H1. apply bool_decide_ext. lia.
  - rewrite H2, H1. lia.
  - rewrite H3, H1. rewrite (bool_decide_ext _ (10 ≤ SafeWandb.failures calls)%Z)
      by lia.
    rewrite (bool_decide_eq_false_2 (10 ≤ 0)%Z) by lia. lia.
Qed.

Lemma safe_wandb_run_app a : ∀ b self,
  SafeWandb.run self (a ++ b)%list =
  let r := SafeWandb.run self a in
  let r' := SafeWandb.run r.1.1 b in
  (r'.1.1, (r.1.2 ++ r'.1.2)%list, (r.2 ++ r'.2)%list).
Proof.
  induction a as [|[h wrapped] rest IH]; intros b self.
  - cbn [app SafeWandb.run fst snd].
    by destruct (SafeWandb.run self b) as [[? ?] ?].
  - cbn [app]. rewrite !safe_wandb_run_cons. cbv zeta.
    rewrite IH. cbv zeta. cbn [fst snd]. by rewrite app_assoc.
Qed.

Lemma safe_wandb_run_disabled calls : ∀ self,
  SafeWandb.disabled self = true →
  SafeWandb.run self calls =
  (self,
   (λ c, match c.1 with
         | SafeWandb.OnStep => SafeWandb.Value true
         | _ => SafeWandb.Nothing
         end) <$> calls,
   []).
Proof.
  induction calls as [|[h wrapped] rest IH]; intros self Hd; [reflexivity|].
  rewrite safe_wandb_run_cons. cbv zeta.
  assert (Hcall : SafeWandb.call h self wrapped =
                  (self, match h with
                         | SafeWandb.OnStep => SafeWandb.Value true
                         | _ => SafeWandb.Nothing
                         end, [])).
  { destruct h; cbn [SafeWandb.call]; unfold SafeWandb.on_step,
      SafeWandb.on_quiet_hook; by rewrite Hd. }
  rewrite Hcall. cbn [fst snd]. rewrite (IH _ Hd). reflexivity.
Qed.

(** Once ten [_on_step] calls have failed the wrapper is inert: whatever
    hooks are called afterwards, and whatever the wrapped callback would do,
    it is not invoked again, nothing is printed, the wrapper's state stays
    as it is, [_on_step] answers [True] and the other hooks return. *)
Theorem safe_wandb_inert_after_ten before after :
  (10 ≤ SafeWandb.failures before)%Z →
  let r0 := SafeWandb.run SafeWandb.init before in
  let r := SafeWandb.run SafeWandb.init (before ++ after)%list in
  r.1.1 = r0.1.1 ∧
  r.2 = r0.2 ∧
  r.1.2 =
    (r0.1.2 ++
     ((λ c, match c.1 with
            | SafeWandb.OnStep => SafeWandb.Value true
            | _ => SafeWandb.Nothing
            end) <$> after))%list.
Proof.
  intros Hten. cbv zeta.
  pose proof (safe_wandb_run_counts before _ safe_wandb_init_consistent)
    as (Hcount & _).
  pose proof (safe_wandb_run_consistent before _ safe_wandb_init_consistent)
    as (_ & _ & Hdis).
  change (SafeWandb.error_count SafeWandb.init) with 0 in Hcount.
  rewrite bool_decide_eq_true_2 in Hdis by lia.
  rewrite safe_wandb_run_app. cbv zeta.
  rewrite (safe_wandb_run_disabled after _ Hdis). cbn [fst snd].
  by rewrite app_nil_r.
Qed.

Lemma safe_wandb_call_reply h self wrapped :
  SafeWandb.consistent self →
  let reply := (SafeWandb.call h self wrapped).1.2 in
  (reply = SafeWandb.Value false →
   h = SafeWandb.OnStep ∧ wrapped = SafeWandb.Returns false ∧
   (SafeWandb.error_count self < 10)%Z) ∧
  (reply = SafeWandb.Propagates →
   wrapped = SafeWandb.Escapes ∧ (SafeWandb.error_count self < 10)%Z).
Proof.
  intros (Hmax & Hrange & Hdis). cbv zeta.
  destruct h; cbn [SafeWandb.call]; unfold SafeWandb.on_step,
    SafeWandb.on_quiet_hook;
    destruct (SafeWandb.disabled self) eqn:Hd; cbn [fst snd];
    try (split; intros; discriminate);
    symmetry in Hdis; apply bool_decide_eq_false in Hdis;
    destruct wrapped as [[]| |]; cbn [fst snd];
    try (split; intros; first [discriminate | repeat split; lia]).
  all: destruct (_ <=? _)%Z; cbn [fst snd]; split; intros; discriminate.
Qed.

Lemma safe_wandb_run_reply calls : ∀ self i h wrapped,
  SafeWandb.consistent self →
  calls !! i = Some (h, wrapped) →
  ∃ reply,
    (SafeWandb.run self calls).1.2 !! i = Some reply ∧
    (reply = SafeWandb.Value false →
     h = SafeWandb.OnStep ∧ wrapped = SafeWandb.Returns false ∧
     (SafeWandb.error_count self + SafeWandb.failures (take i calls) < 10)%Z) ∧
    (reply = SafeWandb.Propagates →
     wrapped = SafeWandb.Escapes ∧
     (SafeWandb.error_count self + SafeWandb.failures (take i calls) < 10)%Z).
Proof.
  induction calls as [|[h0 wrapped0] rest IH]; intros self i h wrapped Hinv Hi;
    [discriminate|].
  rewrite safe_wandb_run_cons. cbv zeta. cbn [fst snd].
  destruct i as [|i].
  - injection Hi as -> ->. eexists. split; [reflexivity|].
    cbn [take]. change (SafeWandb.failures []) with 0. rewrite Z.add_0_r.
    exact (safe_wandb_call_reply h self wrapped Hinv).
  - cbn [lookup list_lookup] in Hi |- *.
    pose proof (safe_wandb_call_consistent h0 self wrapped0 Hinv) as Hinv1.
    pose proof (safe_wandb_call_counts h0 self wrapped0 Hinv) as Hcall.
    cbv zeta in Hcall. destruct Hcall as (Hc1 & _).
    destruct (IH _ i h wrapped Hinv1 Hi) as (reply & Hr & Hfalse & Hprop).
    exists reply. split; [exact Hr|].
    cbn [take]. rewrite safe_wandb_failures_cons.
    pose proof (safe_wandb_failures_nonneg (take i rest)) as Hnn.
    rewrite Hc1 in Hfalse, Hprop.
    split; intros Hreply.
    + destruct (Hfalse Hreply) as (? & ? & ?). repeat split; try done. lia.
    + destruct (Hprop Hreply) as (? & ?). split; try done. lia.
Qed.

(** Training is only ever stopped through the wrapper by the wrapped
    callback itself: in any sequence of hook calls on a fresh wrapper, a
    reply [False] comes from an [_on_step] whose wrapped callback returned
    [False], an exception leaves the wrapper only if it is not an
    [Exception], and both only while fewer than ten [_on_step] calls have
    failed before. *)
Theorem safe_wandb_stops_only_on_request calls i h wrapped :
  calls !! i = Some (h, wrapped) →
  ∃ reply,
    (SafeWandb.run SafeWandb.init calls).1.2 !! i = Some reply ∧
    (reply = SafeWandb.Value false →
     h = SafeWandb.OnStep ∧ wrapped = SafeWandb.Returns false ∧
     (SafeWandb.failures (take i calls) < 10)%Z) ∧
    (reply = SafeWandb.Propagates →
     wrapped = SafeWandb.Escapes ∧
     (SafeWandb.failures (take i calls) < 10)%Z).
Proof.
  intros Hi.
  destruct (safe_wandb_run_reply calls _ i h wrapped
              safe_wandb_init_consistent Hi) as (reply & Hr & Hfalse & Hprop).
  change (SafeWandb.error_count SafeWandb.init) with 0 in *.
  rewrite Z.add_0_l in Hfalse, Hprop.
  exists reply. auto.
Qed.

Lemma safe_wandb_inert_after_ten_witness :
  let before := replicate 10 (SafeWandb.OnStep,
                              SafeWandb.Fails "ConnectionResetError") in
  let after := [(SafeWandb.OnStep, SafeWandb.Returns false);
                (SafeWandb.OnTrainingEnd, SafeWandb.Escapes)] in
  (SafeWandb.run SafeWandb.init (before ++ after)%list).1.2 =
    (replicate 10 (SafeWandb.Value true) ++
     [SafeWandb.Value true; SafeWandb.Nothing])%list ∧
  SafeWandb.count SafeWandb.is_invocation
    (SafeWandb.run SafeWandb.init (before ++ after)%list).2 = 10.
Proof.
  cbv zeta.
  assert (Hten : (10 ≤ SafeWandb.failures
                   (replicate 10 (SafeWandb.OnStep,
                                  SafeWandb.Fails "ConnectionResetError")))%Z)
    by (vm_compute; discriminate).
  destruct (safe_wandb_inert_after_ten _
              [(SafeWandb.OnStep, SafeWandb.Returns false);
               (SafeWandb.OnTrainingEnd, SafeWandb.Escapes)] Hten)
    as (_ & Hevents & Hreplies).
  split.
  - rewrite Hreplies. vm_compute. reflexivity.
  - rewrite Hevents. vm_compute. reflexivity.
Defined.

Lemma safe_wandb_stops_only_on_request_witness :
  ∃ reply,
    (SafeWandb.run SafeWandb.init
       [(SafeWandb.OnStep, SafeWandb.Fails "BrokenPipeError");
        (SafeWandb.OnStep, SafeWandb.Returns false)]).1.2 !! 1%nat
    = Some reply ∧
    (reply = SafeWandb.Value false →
     (SafeWandb.failures
        (take 1 [(SafeWandb.OnStep, SafeWandb.Fails "BrokenPipeError");
                 (SafeWandb.OnStep, SafeWandb.Returns false)]) < 10)%Z).
Proof.
  destruct (safe_wandb_stops_only_on_request
              [(SafeWandb.OnStep, SafeWandb.Fails "BrokenPipeError");
               (SafeWandb.OnStep, SafeWandb.Returns false)]
              1%nat SafeWandb.OnStep (SafeWandb.Returns false) eq_refl)
    as (reply & Hr & Hfalse & _).
  exists reply. split; [exact Hr|].
  intros Hreply. destruct (Hfalse Hreply) as (_ & _ & Hlt). exact Hlt.
Defined.

(** ** The output guard *)

Lemma guard_bind_done {A B} (m : Guard.Io A) (k : A → Guard.Io B) p a p1 :
  m p = (Guard.Done a, p1) → (m ≫= k) p = k a p1.
Proof. intros Hm. unfold mbind, Guard.io_bind. by rewrite Hm. Qed.

Lemma guard_bind_raised {A B} (m : Guard.Io A) (k : A → Guard.Io B) p e p1 :
  m p = (Guard.Raised e, p1) → (m ≫= k) p = (Guard.Raised e, p1).
Proof. intros Hm. unfold mbind, Guard.io_bind. by rewrite Hm. Qed.

Lemma guard_lowest_free_some p n :
  Guard.lowest_free p = Some n →
  Guard.fds p !! n = None ∧ (n < Guard.limit p)%nat.
Proof.
  unfold Guard.lowest_free. intros Hfind.
  apply fmap_Some in Hfind as ([i x] & Hfind & ->).
  apply list_find_Some in Hfind as (Hi & Hx & _). cbn [snd].
  split; [exact Hx|].
  apply lookup_seq in Hi as (-> & Hlt). lia.
Qed.

Lemma guard_lowest_free_none p :
  Guard.lowest_free p = None → Guard.room p = 0%nat.
Proof.
  unfold Guard.lowest_free, Guard.room. intros Hfind.
  apply fmap_None in Hfind. apply list_find_None in Hfind.
  destruct (filter _ _) as [|x l] eqn:Hf; [reflexivity|].
  assert (Hx : x ∈ filter (λ n, Guard.fds p !! n = None)
                      (seq 0 (Guard.limit p)))
    by (rewrite Hf; apply list_elem_of_here).
  apply list_elem_of_filter in Hx as (Hfree & Hin).
  rewrite Forall_forall in Hfind. by destruct (Hfind x Hin).
Qed.

Lemma guard_lowest_free_room p :
  (0 < Guard.room p)%nat → ∃ n, Guard.lowest_free p = Some n.
Proof.
  intros Hroom. destruct (Guard.lowest_free p) as [n|] eqn:Hfind; [by exists n|].
  apply guard_lowest_free_none in Hfind. lia.
Qed.

Lemma guard_filter_agree (P Q : nat → Prop)
    `{∀ x, Decision (P x)} `{∀ x, Decision (Q x)} (l : list nat) :
  (∀ x, x ∈ l → (Q x ↔ P x)) → filter Q l = filter P l.
Proof.
  intros Hiff. induction l as [|x l IH]; [reflexivity|].
  rewrite !filter_cons.
  rewrite IH by (intros y Hy; apply Hiff, list_elem_of_further, Hy).
  pose proof (Hiff x (list_elem_of_here _ _)) as Hx.
  destruct (decide (Q x)), (decide (P x)); tauto || reflexivity.
Qed.

(** Counting the elements of a duplicate-free list that satisfy a
    predicate, when the predicate is switched off at one point. *)
Lemma guard_filter_remove (P Q : nat → Prop)
    `{∀ x, Decision (P x)} `{∀ x, Decision (Q x)} (l : list nat) n :
  NoDup l → n ∈ l → P n → ¬ Q n → (∀ x, x ≠ n → (Q x ↔ P x)) →
  S (length (filter Q l)) = length (filter P l).
Proof.
  intros Hnd Hin HP HQ Hiff. induction l as [|x l IH]; [by inversion Hin|].
  apply NoDup_cons in Hnd as (Hx & Hnd).
  rewrite !filter_cons. destruct (decide (x = n)) as [->|Hne].
  - rewrite (decide_True (P:=P n)) by exact HP.
    rewrite (decide_False (P:=Q n)) by exact HQ.
    cbn [length]. f_equal. f_equal. apply guard_filter_agree.
    intros y Hy. apply Hiff. intros ->. contradiction.
  - apply elem_of_cons in Hin as [->|Hin]; [done|].
    specialize (IH Hnd Hin).
    pose proof (Hiff x Hne) as Hxiff.
    destruct (decide (Q x)), (decide (P x)); try tauto; cbn [length]; lia.
Qed.

Lemma guard_room_insert_free p n d :
  Guard.fds p !! n = None → (n < Guard.limit p)%nat →
  S (Guard.room (Guard.set_fds (<[n := d]> (Guard.fds p)) p)) = Guard.room p.
Proof.
  intros Hfree Hlt. unfold Guard.room. cbn [Guard.fds Guard.limit Guard.set_fds].
  apply guard_filter_remove with (n := n).
  - apply NoDup_seq.
  - apply elem_of_seq. lia.
  - exact Hfree.
  - by rewrite lookup_insert_eq.
  - intros x Hx. by rewrite lookup_insert_ne.
Qed.

Lemma guard_room_insert_open p n d d' :
  Guard.fds p !! n = Some d' →
  Guard.room (Guard.set_fds (<[n := d]> (Guard.fds p)) p) = Guard.room p.
Proof.
  intros Hopen. unfold Guard.room. cbn [Guard.fds Guard.limit Guard.set_fds].
  f_equal. apply guard_filter_agree. intros x _.
  destruct (decide (x = n)) as [->|Hne].
  - rewrite lookup_insert_eq, Hopen. split; discriminate.
  - by rewrite lookup_insert_ne.
Qed.

Lemma guard_room_delete p n d :
  Guard.fds p !! n = Some d → (n < Guard.limit p)%nat →
  Guard.room (Guard.set_fds (delete n (Guard.fds p)) p) = S (Guard.room p).
Proof.
  intros Hopen Hlt. unfold Guard.room.
  cbn [Guard.fds Guard.limit Guard.set_fds]. symmetry.
  apply guard_filter_remove with (n := n).
  - apply NoDup_seq.
  - apply elem_of_seq. lia.
  - by rewrite lookup_delete_eq.
  - rewrite Hopen. discriminate.
  - intros x Hx. by rewrite lookup_delete_ne.
Qed.

Lemma guard_alloc p :
  (0 < Guard.room p)%nat →
  ∃ n, Guard.lowest_free p = Some n ∧ Guard.fds p !! n = None ∧
       (n < Guard.limit p)%nat.
Proof.
  intros Hroom. destruct (guard_lowest_free_room p Hroom) as (n & Hn).
  exists n. split; [exact Hn|]. by apply guard_lowest_free_some.
Qed.

Lemma guard_os_dup_done p fd d n :
  Guard.fds p !! fd = Some d → Guard.lowest_free p = Some n →
  Guard.os_dup fd p = (Guard.Done n, Guard.set_fds (<[n := d]> (Guard.fds p)) p).
Proof. intros Hfd Hn. unfold Guard.os_dup. by rewrite Hfd, Hn. Qed.

Lemma guard_os_open_done p n :
  Guard.lowest_free p = Some n →
  Guard.os_open_devnull p =
  (Guard.Done n, Guard.set_fds (<[n := Guard.DevNull]> (Guard.fds p)) p).
Proof. intros Hn. unfold Guard.os_open_devnull. by rewrite Hn. Qed.

Lemma guard_open_done p n :
  Guard.lowest_free p = Some n →
  Guard.open_devnull p =
  (Guard.Done {| Guard.fileno := n |},
   Guard.set_fds (<[n := Guard.DevNull]> (Guard.fds p)) p).
Proof.
  intros Hn. unfold Guard.open_devnull.
  by rewrite (guard_bind_done _ _ _ _ _ (guard_os_open_done _ _ Hn)).
Qed.

Lemma guard_os_dup2_done p src dst d :
  Guard.fds p !! src = Some d → (dst < Guard.limit p)%nat →
  Guard.os_dup2 src dst p =
  (Guard.Done tt, Guard.set_fds (<[dst := d]> (Guard.fds p)) p).
Proof.
  intros Hsrc Hlt. unfold Guard.os_dup2.
  by rewrite Hsrc, bool_decide_eq_true_2.
Qed.

Lemma guard_os_close_done p fd d :
  Guard.fds p !! fd = Some d →
  Guard.os_close fd p =
  (Guard.Done tt, Guard.set_fds (delete fd (Guard.fds p)) p).
Proof. intros Hfd. unfold Guard.os_close. by rewrite Hfd. Qed.

Lemma guard_os_close_closed p fd :
  Guard.fds p !! fd = None →
  Guard.os_close fd p = (Guard.Raised (Guard.OSError "EBADF"), p).
Proof. intros Hfd. unfold Guard.os_close. by rewrite Hfd. Qed.

(** What a block prints while descriptors 1 and 2 and both Python streams
    refer to [/dev/null] all lands there. *)
Lemma guard_emit_all_redirected os : ∀ q,
  Guard.fds q !! 1%nat = Some Guard.DevNull →
  Guard.fds q !! 2%nat = Some Guard.DevNull →
  Guard.fds q !! Guard.fileno (Guard.sys_stdout q) = Some Guard.DevNull →
  Guard.fds q !! Guard.fileno (Guard.sys_stderr q) = Some Guard.DevNull →
  Guard.emit_all os q =
  (Guard.Done tt,
   Guard.set_sink
     (Guard.sink q ++ ((λ o, (Guard.DevNull, Guard.text_of o)) <$> os))%list q).
Proof.
  induction os as [|o rest IH]; intros q H1 H2 Hout Herr.
  - cbn [Guard.emit_all fmap list_fmap]. rewrite app_nil_r.
    by destruct q.
  - cbn [Guard.emit_all].
    assert (Hemit : Guard.emit o q =
              (Guard.Done tt,
               Guard.set_sink
                 (Guard.sink q ++ [(Guard.DevNull, Guard.text_of o)])%list q)).
    { destruct o; cbn [Guard.emit Guard.text_of];
        unfold mbind, Guard.io_bind, Guard.get_sys_stdout,
          Guard.get_sys_stderr, Guard.os_write;
        by rewrite ?H1, ?H2, ?Hout, ?Herr. }
    rewrite (guard_bind_done _ _ _ _ _ Hemit).
    rewrite IH by (destruct q; assumption).
    destruct q. cbn. by rewrite <- app_assoc.
Qed.

Lemma guard_run_block_redirected b q :
  Guard.fds q !! 1%nat = Some Guard.DevNull →
  Guard.fds q !! 2%nat = Some Guard.DevNull →
  Guard.fds q !! Guard.fileno (Guard.sys_stdout q) = Some Guard.DevNull →
  Guard.fds q !! Guard.fileno (Guard.sys_stderr q) = Some Guard.DevNull →
  Guard.run_block b q =
  (match Guard.raised b with
   | Some e => Guard.Raised e
   | None => Guard.Done tt
   end,
   Guard.set_sink
     (Guard.sink q ++
      ((λ o, (Guard.DevNull, Guard.text_of o)) <$> Guard.output b))%list q).
Proof.
  intros H1 H2 Hout Herr. unfold Guard.run_block.
  rewrite (guard_bind_done _ _ _ _ _
             (guard_emit_all_redirected _ _ H1 H2 Hout Herr)).
  by destruct (Guard.raised b).
Qed.

Ltac guard_proj :=
  cbn [Guard.fds Guard.set_fds Guard.set_sys_stdout Guard.set_sys_stderr
       Guard.set_sink Guard.limit Guard.sys_stdout Guard.sys_stderr
       Guard.sink Guard.fileno].

Ltac guard_free H :=
  cbn [Guard.fds Guard.set_fds Guard.set_sys_stdout Guard.set_sys_stderr
       Guard.set_sink Guard.limit] in H;
  repeat (let Hne := fresh "Hne" in
          apply lookup_insert_None in H as (H & Hne)).

Ltac guard_nodup H :=
  repeat (let Hn := fresh "Hn" in
          apply NoDup_cons in H as (Hn & H);
          repeat rewrite not_elem_of_cons in Hn);
  destruct_and?.

Ltac guard_lookup :=
  guard_proj;
  repeat first
    [ rewrite lookup_insert_eq
    | rewrite lookup_insert_ne by congruence
    | rewrite lookup_delete_eq
    | rewrite lookup_delete_ne by congruence ];
  first [ reflexivity | assumption | congruence ].

(** The recovery handler, entered with both duplicates open: descriptors 1
    and 2 get their descriptions back, the duplicates are closed, and the
    exception is raised again. *)
Lemma guard_recover_restores q oo oe d1 d2 e :
  Guard.fds q !! oo = Some d1 → Guard.fds q !! oe = Some d2 →
  oo ≠ oe → oo ≠ 1%nat → oo ≠ 2%nat → oe ≠ 1%nat → oe ≠ 2%nat →
  (2 < Guard.limit q)%nat →
  Guard.recover oo oe e q =
  (Guard.Raised e,
   Guard.set_fds
     (delete oe (delete oo (<[2%nat := d2]> (<[1%nat := d1]> (Guard.fds q)))))
     q).
Proof.
  intros Hoo Hoe Hne ? ? ? ? Hlim. unfold Guard.recover.
  assert (Hbody :
    (Guard.os_dup2 oo 1;; Guard.os_dup2 oe 2;;
     Guard.os_close oo;; Guard.os_close oe) q =
    (Guard.Done tt,
     Guard.set_fds
       (delete oe (delete oo (<[2%nat := d2]> (<[1%nat := d1]> (Guard.fds q)))))
       q)).
  { rewrite (guard_bind_done _ _ _ _ _
               (guard_os_dup2_done q oo 1 d1 Hoo ltac:(lia))).
    erewrite guard_bind_done;
      [|apply guard_os_dup2_done with (d := d2); [guard_lookup | guard_proj; lia]].
    erewrite guard_bind_done;
      [|apply guard_os_close_done with (d := d1); guard_lookup].
    erewrite guard_os_close_done with (d := d2); [|guard_lookup].
    by destruct q. }
  unfold mbind at 1, Guard.io_bind at 1. unfold Guard.try_except_pass.
  rewrite Hbody. reflexivity.
Qed.

(** The [finally] block, entered with everything the setup opened still
    open. *)
Lemma guard_restore_done q so se oo oe dn d1 d2 :
  let out := Guard.fileno (Guard.sys_stdout q) in
  let err := Guard.fileno (Guard.sys_stderr q) in
  Guard.fds q !! out = Some Guard.DevNull →
  Guard.fds q !! err = Some Guard.DevNull →
  Guard.fds q !! dn = Some Guard.DevNull →
  Guard.fds q !! oo = Some d1 → Guard.fds q !! oe = Some d2 →
  NoDup [1%nat; 2%nat; oo; oe; dn; out; err] →
  (2 < Guard.limit q)%nat →
  Guard.restore so se oo oe dn q =
  (Guard.Done tt,
   Guard.set_sys_stderr se (Guard.set_sys_stdout so
     (Guard.set_fds
        (delete dn (delete oe (delete oo
           (<[2%nat := d2]> (<[1%nat := d1]>
              (delete err (delete out (Guard.fds q))))))))
        q))).
Proof.
  intros out err Hout Herr Hdn Hoo Hoe Hnd Hlim. unfold Guard.restore.
  guard_nodup Hnd. subst out err.
  erewrite guard_bind_done by reflexivity.
  erewrite guard_bind_done;
    [|apply guard_os_close_done with (d := Guard.DevNull); exact Hout].
  erewrite guard_bind_done by reflexivity.
  erewrite guard_bind_done;
    [|apply guard_os_close_done with (d := Guard.DevNull); guard_lookup].
  erewrite guard_bind_done by reflexivity.
  erewrite guard_bind_done by reflexivity.
  erewrite guard_bind_done;
    [|apply guard_os_dup2_done with (d := d1); [guard_lookup | guard_proj; lia]].
  erewrite guard_bind_done;
    [|apply guard_os_dup2_done with (d := d2); [guard_lookup | guard_proj; lia]].
  erewrite guard_bind_done;
    [|apply guard_os_close_done with (d := d1); guard_lookup].
  erewrite guard_bind_done;
    [|apply guard_os_close_done with (d := d2); guard_lookup].
  erewrite guard_os_close_done with (d := Guard.DevNull); [|guard_lookup].
  by destruct q.
Qed.

Lemma guard_room_le_limit p : (Guard.room p ≤ Guard.limit p)%nat.
Proof.
  unfold Guard.room.
  etrans; [apply length_filter|]. by rewrite length_seq.
Qed.

(** Switching the keys of a table one by one. *)
Ltac guard_table :=
  apply map_eq; intros k;
  repeat match goal with
    | |- context [<[?i := _]> _ !! k] =>
        destruct (decide (k = i)) as [->|?];
        [rewrite ?lookup_insert_eq | rewrite (lookup_insert_ne _ i k) by congruence]
    | |- context [delete ?i _ !! k] =>
        destruct (decide (k = i)) as [->|?];
        [rewrite ?lookup_delete_eq | rewrite (lookup_delete_ne _ i k) by congruence]
    end;
  repeat first
    [ rewrite lookup_insert_eq
    | rewrite lookup_insert_ne by congruence
    | rewrite lookup_delete_eq
    | rewrite lookup_delete_ne by congruence ];
  try first [ reflexivity | congruence ].

Lemma guard_table_done (T : gmap nat Guard.Desc) oo oe dn out err d1 d2 :
  T !! dn = None → T !! out = None → T !! err = None →
  NoDup [1%nat; 2%nat; oo; oe; dn; out; err] →
  delete dn (delete oe (delete oo (<[2%nat:=d2]> (<[1%nat:=d1]>
    (delete err (delete out (<[err:=Guard.DevNull]> (<[out:=Guard.DevNull]>
      (<[2%nat:=Guard.DevNull]> (<[1%nat:=Guard.DevNull]>
        (<[dn:=Guard.DevNull]> T))))))))))) =
  delete oe (delete oo (<[2%nat:=d2]> (<[1%nat:=d1]> T))).
Proof.
  intros Hdn Hout Herr Hnd. guard_nodup Hnd. guard_table.
Qed.

Lemma guard_proc_eq p q :
  Guard.fds p = Guard.fds q → Guard.limit p = Guard.limit q →
  Guard.sys_stdout p = Guard.sys_stdout q →
  Guard.sys_stderr p = Guard.sys_stderr q →
  Guard.sink p = Guard.sink q → p = q.
Proof. destruct p, q. cbn. congruence. Qed.

Ltac guard_flat :=
  cbn [Guard.fds Guard.set_fds Guard.set_sys_stdout Guard.set_sys_stderr
       Guard.set_sink Guard.limit Guard.sys_stdout Guard.sys_stderr
       Guard.sink Guard.fileno] in *.

Ltac guard_with_state tac :=
  lazymatch goal with
  | |- context [@mbind _ _ _ _ _ _ ?p] => tac p
  end.

Ltac guard_distinct :=
  repeat (apply NoDup_cons; split;
          [rewrite ?not_elem_of_cons; repeat split;
           first [congruence | apply not_elem_of_nil] |]);
  apply NoDup_nil_2.

(** The [try] block when three more descriptors can be opened: what the
    block prints goes to [/dev/null], and the [finally] block puts
    everything back. *)
Lemma guard_redirected_done p2 oo oe d1 d2 x1 x2 b :
  Guard.fds p2 !! 1%nat = Some x1 → Guard.fds p2 !! 2%nat = Some x2 →
  Guard.fds p2 !! oo = Some d1 → Guard.fds p2 !! oe = Some d2 →
  NoDup [1%nat; 2%nat; oo; oe] →
  (3 ≤ Guard.room p2)%nat →
  Guard.redirected oo oe (Guard.run_block b) p2 =
  (match Guard.raised b with
   | Some e => Guard.Raised e
   | None => Guard.Done tt
   end,
   Guard.set_sink
     (Guard.sink p2 ++
      ((λ o, (Guard.DevNull, Guard.text_of o)) <$> Guard.output b))%list
     (Guard.set_fds
        (delete oe (delete oo (<[2%nat := d2]> (<[1%nat := d1]> (Guard.fds p2)))))
        p2)).
Proof.
  intros H1 H2 Hoo Hoe Hnd Hroom. unfold Guard.redirected.
  assert (Hlim : (2 < Guard.limit p2)%nat).
  { pose proof (guard_room_le_limit p2). lia. }
  destruct p2 as [T L so se sk]. guard_flat.
  guard_nodup Hnd.
  (* devnull = os.open(os.devnull, os.O_WRONLY) *)
  guard_with_state ltac:(fun p =>
    destruct (guard_alloc p ltac:(lia)) as (dn & Hdn & Hdn_free & Hdn_lt)).
  pose proof (guard_room_insert_free _ dn Guard.DevNull Hdn_free Hdn_lt) as Hr3.
  rewrite (guard_bind_done _ _ _ _ _ (guard_os_open_done _ dn Hdn)).
  guard_flat.
  assert (dn ≠ 1%nat ∧ dn ≠ 2%nat ∧ dn ≠ oo ∧ dn ≠ oe) as (? & ? & ? & ?)
    by (repeat split; congruence).
  (* os.dup2(devnull, 1); os.dup2(devnull, 2) *)
  guard_with_state ltac:(fun p =>
    pose proof (guard_room_insert_open p 1%nat Guard.DevNull x1
                  ltac:(guard_lookup)) as Hr4).
  erewrite guard_bind_done;
    [|apply guard_os_dup2_done with (d := Guard.DevNull);
      [guard_lookup | guard_proj; lia]].
  guard_flat.
  guard_with_state ltac:(fun p =>
    pose proof (guard_room_insert_open p 2%nat Guard.DevNull x2
                  ltac:(guard_lookup)) as Hr5).
  erewrite guard_bind_done;
    [|apply guard_os_dup2_done with (d := Guard.DevNull);
      [guard_lookup | guard_proj; lia]].
  guard_flat.
  erewrite guard_bind_done by reflexivity.
  erewrite guard_bind_done by reflexivity.
  guard_flat.
  (* sys.stdout = open(os.devnull, 'w') *)
  guard_with_state ltac:(fun p =>
    destruct (guard_alloc p ltac:(lia)) as (out & Hout & Hout_free & Hout_lt)).
  pose proof (guard_room_insert_free _ out Guard.DevNull Hout_free Hout_lt)
    as Hr6.
  rewrite (guard_bind_done _ _ _ _ _ (guard_open_done _ out Hout)).
  erewrite guard_bind_done by reflexivity.
  guard_flat.
  (* sys.stderr = open(os.devnull, 'w') *)
  guard_with_state ltac:(fun p =>
    assert (Hr6' : Guard.room p = Guard.room (Guard.set_fds
      (<[out := Guard.DevNull]> (<[2%nat:=Guard.DevNull]>
         (<[1%nat:=Guard.DevNull]> (<[dn:=Guard.DevNull]> T))))
      (Guard.set_fds (<[2%nat:=Guard.DevNull]>
         (<[1%nat:=Guard.DevNull]> (<[dn:=Guard.DevNull]> T)))
      (Guard.set_fds (<[1%nat:=Guard.DevNull]> (<[dn:=Guard.DevNull]> T))
      (Guard.set_fds (<[dn:=Guard.DevNull]> T)
         {| Guard.fds := T; Guard.limit := L; Guard.sys_stdout := so;
            Guard.sys_stderr := se; Guard.sink := sk |})))))
      by reflexivity;
    destruct (guard_alloc p ltac:(lia)) as (err & Herr & Herr_free & Herr_lt)).
  rewrite (guard_bind_done _ _ _ _ _ (guard_open_done _ err Herr)).
  erewrite guard_bind_done by reflexivity.
  guard_flat.
  guard_free Hout_free. guard_free Herr_free.
  assert (out ≠ oo ∧ out ≠ oe ∧ err ≠ oo ∧ err ≠ oe) as (? & ? & ? & ?)
    by (repeat split; congruence).
  unfold Guard.try_finally.
  rewrite guard_run_block_redirected by guard_lookup.
  erewrite guard_restore_done with (d1 := d1) (d2 := d2);
    [ | guard_lookup | guard_lookup | guard_lookup | guard_lookup
      | guard_lookup | guard_proj; guard_distinct | guard_proj; exact Hlim ].
  f_equal. apply guard_proc_eq; guard_proj; try reflexivity.
  apply guard_table_done; try assumption. guard_distinct.
Qed.

Lemma guard_room_pos p n :
  Guard.fds p !! n = None → (n < Guard.limit p)%nat → (0 < Guard.room p)%nat.
Proof.
  intros Hfree Hlt. unfold Guard.room.
  assert (Hin : n ∈ filter (λ n, Guard.fds p !! n = None)
                       (seq 0 (Guard.limit p))).
  { apply list_elem_of_filter. split; [exact Hfree|]. apply elem_of_seq. lia. }
  destruct (filter _ _); [by apply elem_of_nil in Hin|]. cbn [length]. lia.
Qed.

Lemma guard_full p : Guard.room p = 0%nat → Guard.lowest_free p = None.
Proof.
  intros Hroom. destruct (Guard.lowest_free p) as [n|] eqn:Hn; [|reflexivity].
  apply guard_lowest_free_some in Hn as (Hfree & Hlt).
  pose proof (guard_room_pos p n Hfree Hlt). lia.
Qed.

Lemma guard_os_dup_full p fd d :
  Guard.fds p !! fd = Some d → Guard.room p = 0%nat →
  Guard.os_dup fd p = (Guard.Raised (Guard.OSError "EMFILE"), p).
Proof.
  intros Hfd Hroom. unfold Guard.os_dup.
  by rewrite Hfd, (guard_full p Hroom).
Qed.

Lemma guard_os_open_full p :
  Guard.room p = 0%nat →
  Guard.os_open_devnull p = (Guard.Raised (Guard.OSError "EMFILE"), p).
Proof.
  intros Hroom. unfold Guard.os_open_devnull. by rewrite (guard_full p Hroom).
Qed.

Lemma guard_open_full p :
  Guard.room p = 0%nat →
  Guard.open_devnull p = (Guard.Raised (Guard.OSError "EMFILE"), p).
Proof.
  intros Hroom. unfold Guard.open_devnull.
  by rewrite (guard_bind_raised _ _ _ _ _ (guard_os_open_full p Hroom)).
Qed.

(** The [try] block when fewer than three descriptors can be opened: it
    raises before the guarded block is reached, leaving behind what it had
    opened by then. *)
Lemma guard_redirected_fails p2 oo oe x1 x2 :
  Guard.fds p2 !! 1%nat = Some x1 → Guard.fds p2 !! 2%nat = Some x2 →
  (2 < Guard.limit p2)%nat → (Guard.room p2 < 3)%nat →
  ∃ q,
    (∀ body, Guard.redirected oo oe body p2 =
             (Guard.Raised (Guard.OSError "EMFILE"), q)) ∧
    Guard.limit q = Guard.limit p2 ∧ Guard.sink q = Guard.sink p2 ∧
    Guard.sys_stderr q = Guard.sys_stderr p2 ∧
    ((Guard.room p2 = 0%nat ∧ q = p2) ∨
     (Guard.room p2 = 1%nat ∧ ∃ dn,
        Guard.fds p2 !! dn = None ∧ (dn < Guard.limit p2)%nat ∧
        Guard.sys_stdout q = Guard.sys_stdout p2 ∧
        Guard.fds q =
          <[2%nat:=Guard.DevNull]> (<[1%nat:=Guard.DevNull]>
            (<[dn:=Guard.DevNull]> (Guard.fds p2)))) ∨
     (Guard.room p2 = 2%nat ∧ ∃ dn out,
        Guard.fds p2 !! dn = None ∧ (dn < Guard.limit p2)%nat ∧
        Guard.fds p2 !! out = None ∧ (out < Guard.limit p2)%nat ∧
        dn ≠ out ∧
        Guard.sys_stdout q = {| Guard.fileno := out |} ∧
        Guard.fds q =
          <[out:=Guard.DevNull]> (<[2%nat:=Guard.DevNull]>
            (<[1%nat:=Guard.DevNull]> (<[dn:=Guard.DevNull]> (Guard.fds p2)))))).
Proof.
  intros H1 H2 Hlim Hroom.
  destruct (decide (Guard.room p2 = 0%nat)) as [Hr0|Hr0].
  { exists p2. split.
    - intros body. unfold Guard.redirected.
      by rewrite (guard_bind_raised _ _ _ _ _ (guard_os_open_full p2 Hr0)).
    - repeat split; try reflexivity. left. by split. }
  (* devnull = os.open(os.devnull, os.O_WRONLY) *)
  destruct (guard_alloc p2 ltac:(lia)) as (dn & Hdn & Hdn_free & Hdn_lt).
  pose proof (guard_room_insert_free p2 dn Guard.DevNull Hdn_free Hdn_lt) as Hr3.
  assert (dn ≠ 1%nat ∧ dn ≠ 2%nat) as (? & ?) by (split; congruence).
  set (p3 := Guard.set_fds (<[dn:=Guard.DevNull]> (Guard.fds p2)) p2) in *.
  (* os.dup2(devnull, 1); os.dup2(devnull, 2) *)
  pose proof (guard_room_insert_open p3 1%nat Guard.DevNull x1
                ltac:(subst p3; guard_lookup)) as Hr4.
  set (p4 := Guard.set_fds (<[1%nat:=Guard.DevNull]> (Guard.fds p3)) p3) in *.
  pose proof (guard_room_insert_open p4 2%nat Guard.DevNull x2
                ltac:(subst p4 p3; guard_lookup)) as Hr5.
  set (p5 := Guard.set_fds (<[2%nat:=Guard.DevNull]> (Guard.fds p4)) p4) in *.
  assert (Hprefix : ∀ body,
    Guard.redirected oo oe body p2 =
    (out ← Guard.open_devnull;
     Guard.assign_sys_stdout out;;
     err ← Guard.open_devnull;
     Guard.assign_sys_stderr err;;
     Guard.try_finally body
       (Guard.restore (Guard.sys_stdout p2) (Guard.sys_stderr p2) oo oe dn))
      p5).
  { intros body. unfold Guard.redirected.
    rewrite (guard_bind_done _ _ _ _ _ (guard_os_open_done p2 dn Hdn)).
    erewrite guard_bind_done;
      [|apply guard_os_dup2_done with (d := Guard.DevNull);
        [guard_lookup | guard_proj; lia]].
    erewrite guard_bind_done;
      [|apply guard_os_dup2_done with (d := Guard.DevNull);
        [guard_lookup | guard_proj; lia]].
    erewrite guard_bind_done by reflexivity.
    erewrite guard_bind_done by reflexivity.
    reflexivity. }
  destruct (decide (Guard.room p2 = 1%nat)) as [Hr1|Hr1].
  { exists p5. split.
    - intros body. rewrite Hprefix.
      erewrite guard_bind_raised; [reflexivity|apply guard_open_full; lia].
    - repeat split; try reflexivity. right. left. split; [exact Hr1|].
      exists dn. by repeat split. }
  (* sys.stdout = open(os.devnull, 'w') *)
  destruct (guard_alloc p5 ltac:(lia)) as (out & Hout & Hout_free & Hout_lt).
  pose proof (guard_room_insert_free p5 out Guard.DevNull Hout_free Hout_lt)
    as Hr6.
  pose proof Hout_free as Hout_free'.
  unfold p5, p4, p3 in Hout_free'. guard_free Hout_free'.
  set (p6 := Guard.set_sys_stdout {| Guard.fileno := out |}
               (Guard.set_fds (<[out:=Guard.DevNull]> (Guard.fds p5)) p5)).
  assert (Hr7 : Guard.room p6 =
                Guard.room (Guard.set_fds
                              (<[out:=Guard.DevNull]> (Guard.fds p5)) p5))
    by reflexivity.
  exists p6. split.
  - intros body. rewrite Hprefix.
    rewrite (guard_bind_done _ _ _ _ _ (guard_open_done p5 out Hout)).
    erewrite guard_bind_done by reflexivity.
    erewrite guard_bind_raised; [reflexivity|].
    apply guard_open_full. change (Guard.room p6 = 0%nat). lia.
  - repeat split; try reflexivity.
    right. right. split; [lia|]. exists dn, out. repeat split; try done.
Qed.

(** The recovery handler entered after the [finally] block has closed the
    duplicates: its first call fails, which it ignores, and it raises the
    exception again. *)
Lemma guard_recover_closed q oo oe e :
  Guard.fds q !! oo = None → Guard.recover oo oe e q = (Guard.Raised e, q).
Proof.
  intros Hoo. unfold Guard.recover.
  assert (Hbody :
    (Guard.os_dup2 oo 1;; Guard.os_dup2 oe 2;;
     Guard.os_close oo;; Guard.os_close oe) q =
    (Guard.Raised (Guard.OSError "EBADF"), q)).
  { apply guard_bind_raised. unfold Guard.os_dup2. by rewrite Hoo. }
  unfold mbind at 1, Guard.io_bind at 1. unfold Guard.try_except_pass.
  rewrite Hbody. reflexivity.
Qed.

Lemma guard_table_restored (T : gmap nat Guard.Desc) oo oe d1 d2 :
  T !! 1%nat = Some d1 → T !! 2%nat = Some d2 →
  T !! oo = None → T !! oe = None →
  delete oe (delete oo (<[2%nat:=d2]> (<[1%nat:=d1]>
    (<[oe:=d2]> (<[oo:=d1]> T))))) = T.
Proof.
  intros H1 H2 Hoo Hoe.
  assert (oo ≠ 1%nat ∧ oo ≠ 2%nat ∧ oe ≠ 1%nat ∧ oe ≠ 2%nat)
    as (? & ? & ? & ?) by (repeat split; congruence).
  guard_table.
Qed.

(** The two duplicates made on entry. *)
Lemma guard_entry p d1 d2 :
  Guard.fds p !! 1%nat = Some d1 → Guard.fds p !! 2%nat = Some d2 →
  (2 ≤ Guard.room p)%nat →
  ∃ oo oe,
    Guard.fds p !! oo = None ∧ Guard.fds p !! oe = None ∧
    (oo < Guard.limit p)%nat ∧ (oe < Guard.limit p)%nat ∧
    NoDup [1%nat; 2%nat; oo; oe] ∧
    let p2 := Guard.set_fds (<[oe:=d2]> (<[oo:=d1]> (Guard.fds p))) p in
    Guard.room p = S (S (Guard.room p2)) ∧
    ∀ body,
      Guard.suppress_output true body p =
      Guard.try_except_Exception (Guard.redirected oo oe body)
        (Guard.recover oo oe) p2.
Proof.
  intros H1 H2 Hroom.
  destruct (guard_alloc p ltac:(lia)) as (oo & Hoo & Hoo_free & Hoo_lt).
  pose proof (guard_room_insert_free p oo d1 Hoo_free Hoo_lt) as Hr1.
  destruct (guard_alloc (Guard.set_fds (<[oo:=d1]> (Guard.fds p)) p)
              ltac:(lia)) as (oe & Hoe & Hoe_free & Hoe_lt).
  pose proof (guard_room_insert_free _ oe d2 Hoe_free Hoe_lt) as Hr2.
  guard_flat. guard_free Hoe_free.
  assert (oo ≠ 1%nat ∧ oo ≠ 2%nat ∧ oe ≠ 1%nat ∧ oe ≠ 2%nat)
    as (? & ? & ? & ?) by (repeat split; congruence).
  exists oo, oe. repeat split; try assumption.
  - guard_distinct.
  - cbv zeta.
    assert (Heq : Guard.set_fds (<[oe:=d2]> (<[oo:=d1]> (Guard.fds p))) p =
                  Guard.set_fds (<[oe:=d2]> (<[oo:=d1]> (Guard.fds p)))
                    (Guard.set_fds (<[oo:=d1]> (Guard.fds p)) p))
      by reflexivity.
    rewrite Heq. lia.
  - intros body. unfold Guard.suppress_output.
    rewrite (guard_bind_done _ _ _ _ _ (guard_os_dup_done p 1 d1 oo H1 Hoo)).
    erewrite guard_bind_done;
      [|apply guard_os_dup_done with (d := d2); [guard_lookup | exact Hoe]].
    reflexivity.
Qed.

(** The guard in quiet mode, with five descriptors to spare: everything
    the guarded block prints, through
    descriptors 1 and 2 or through Python's streams, goes to [/dev/null];
    afterwards the descriptor table and the Python streams are exactly as
    before, and the block's result or exception, whatever its kind, is the
    result of the [with] statement. *)
Theorem suppress_output_silences p b d1 d2 :
  Guard.fds p !! 1%nat = Some d1 →
  Guard.fds p !! 2%nat = Some d2 →
  (5 ≤ Guard.room p)%nat →
  Guard.suppress_output true (Guard.run_block b) p =
  (match Guard.raised b with
   | Some e => Guard.Raised e
   | None => Guard.Done tt
   end,
   Guard.set_sink
     (Guard.sink p ++
      ((λ o, (Guard.DevNull, Guard.text_of o)) <$> Guard.output b))%list p).
Proof.
  intros H1 H2 Hroom.
  destruct (guard_entry p d1 d2 H1 H2 ltac:(lia))
    as (oo & oe & Hoo & Hoe & Hoo_lt & Hoe_lt & Hnd & Hr & Hrun).
  cbv zeta in Hr. rewrite Hrun. clear Hrun.
  unfold Guard.try_except_Exception.
  pose proof Hnd as Hnd'. guard_nodup Hnd'.
  erewrite guard_redirected_done with (d1 := d1) (d2 := d2) (x1 := d1) (x2 := d2);
    [ | guard_lookup | guard_lookup | guard_lookup | guard_lookup
      | exact Hnd | lia ].
  guard_proj. rewrite guard_table_restored by assumption.
  assert (Hstate : ∀ s,
    Guard.set_sink s (Guard.set_fds (Guard.fds p)
      (Guard.set_fds (<[oe:=d2]> (<[oo:=d1]> (Guard.fds p))) p)) =
    Guard.set_sink s p) by (intros s; by destruct p).
  rewrite Hstate.
  destruct (Guard.raised b) as [e|]; [|reflexivity].
  destruct (Guard.is_Exception e); [|reflexivity].
  apply guard_recover_closed. guard_proj. exact Hoo.
Qed.

Lemma guard_room_fds p q :
  Guard.fds p = Guard.fds q → Guard.limit p = Guard.limit q →
  Guard.room p = Guard.room q.
Proof. intros Hf Hl. unfold Guard.room. by rewrite Hf, Hl. Qed.

(** What is left behind when the setup runs out of descriptors. *)
Lemma guard_setup_fails p d1 d2 :
  Guard.fds p !! 1%nat = Some d1 → Guard.fds p !! 2%nat = Some d2 →
  (2 < Guard.limit p)%nat → (Guard.room p < 5)%nat →
  ∃ p',
    (∀ body, Guard.suppress_output true body p =
             (Guard.Raised (Guard.OSError "EMFILE"), p')) ∧
    Guard.limit p' = Guard.limit p ∧ Guard.sink p' = Guard.sink p ∧
    Guard.sys_stderr p' = Guard.sys_stderr p ∧
    ((Guard.room p = 0%nat ∧ p' = p) ∨
     (Guard.room p = 1%nat ∧ ∃ oo,
        Guard.fds p !! oo = None ∧ (oo < Guard.limit p)%nat ∧
        Guard.sys_stdout p' = Guard.sys_stdout p ∧
        Guard.fds p' = <[oo:=d1]> (Guard.fds p)) ∨
     (Guard.room p = 2%nat ∧
        Guard.sys_stdout p' = Guard.sys_stdout p ∧
        Guard.fds p' = Guard.fds p) ∨
     (Guard.room p = 3%nat ∧ ∃ dn,
        Guard.fds p !! dn = None ∧ (dn < Guard.limit p)%nat ∧
        Guard.sys_stdout p' = Guard.sys_stdout p ∧
        Guard.fds p' = <[dn:=Guard.DevNull]> (Guard.fds p)) ∨
     (Guard.room p = 4%nat ∧ ∃ dn out,
        Guard.fds p !! dn = None ∧ (dn < Guard.limit p)%nat ∧
        Guard.fds p !! out = None ∧ (out < Guard.limit p)%nat ∧
        dn ≠ out ∧
        Guard.sys_stdout p' = {| Guard.fileno := out |} ∧
        Guard.fds p' =
          <[out:=Guard.DevNull]> (<[dn:=Guard.DevNull]> (Guard.fds p)))).
Proof.
  intros H1 H2 Hlim Hroom.
  destruct (decide (Guard.room p = 0%nat)) as [Hr0|Hr0].
  { exists p. split.
    - intros body. unfold Guard.suppress_output.
      by rewrite (guard_bind_raised _ _ _ _ _ (guard_os_dup_full p 1 d1 H1 Hr0)).
    - repeat split; try reflexivity. left. by split. }
  destruct (decide (Guard.room p = 1%nat)) as [Hr1|Hr1].
  { destruct (guard_alloc p ltac:(lia)) as (oo & Hoo & Hoo_free & Hoo_lt).
    pose proof (guard_room_insert_free p oo d1 Hoo_free Hoo_lt) as Hr.
    exists (Guard.set_fds (<[oo:=d1]> (Guard.fds p)) p). split.
    - intros body. unfold Guard.suppress_output.
      rewrite (guard_bind_done _ _ _ _ _ (guard_os_dup_done p 1 d1 oo H1 Hoo)).
      erewrite guard_bind_raised; [reflexivity|].
      apply guard_os_dup_full with (d := d2); [|lia].
      assert (oo ≠ 2%nat) by congruence. guard_lookup.
    - repeat split; try reflexivity. right. left. split; [exact Hr1|].
      exists oo. by repeat split. }
  destruct (guard_entry p d1 d2 H1 H2 ltac:(lia))
    as (oo & oe & Hoo & Hoe & Hoo_lt & Hoe_lt & Hnd & Hr & Hrun).
  cbv zeta in Hr.
  pose proof Hnd as Hnd'. guard_nodup Hnd'.
  set (p2 := Guard.set_fds (<[oe:=d2]> (<[oo:=d1]> (Guard.fds p))) p) in *.
  assert (H1' : Guard.fds p2 !! 1%nat = Some d1) by (subst p2; guard_lookup).
  assert (H2' : Guard.fds p2 !! 2%nat = Some d2) by (subst p2; guard_lookup).
  assert (Hlim' : (2 < Guard.limit p2)%nat) by exact Hlim.
  destruct (guard_redirected_fails p2 oo oe d1 d2 H1' H2' Hlim' ltac:(lia))
    as (q & Hqrun & Hql & Hqs & Hqe & Hq).
  assert (Hqoo : Guard.fds q !! oo = Some d1 ∧ Guard.fds q !! oe = Some d2).
  { destruct Hq as [(_ & ->)|[(_ & dn & Hdn & _ & _ & ->)
                             |(_ & dn & out & Hdn & _ & Hout & _ & _ & _ & ->)]];
      subst p2.
    - split; guard_lookup.
    - guard_free Hdn. split; guard_lookup.
    - guard_free Hdn. guard_free Hout. split; guard_lookup. }
  destruct Hqoo as (Hqoo & Hqoe).
  exists (Guard.set_fds
            (delete oe (delete oo (<[2%nat:=d2]> (<[1%nat:=d1]> (Guard.fds q)))))
            q).
  split.
  { intros body. rewrite Hrun. unfold Guard.try_except_Exception.
    rewrite Hqrun. cbn [Guard.is_Exception].
    apply guard_recover_restores; try assumption; congruence. }
  guard_proj. rewrite Hql, Hqs, Hqe. repeat split; try reflexivity.
  right. right.
  destruct Hq as [(Hrq & ->)|[(Hrq & dn & Hdn & Hdn_lt & Hso & ->)
              |(Hrq & dn & out & Hdn & Hdn_lt & Hout & Hout_lt & Hne & Hso & ->)]].
  - left. split; [lia|]. split; [reflexivity|].
    subst p2. guard_proj. by apply guard_table_restored.
  - right. left. split; [lia|]. subst p2. guard_free Hdn.
    exists dn. repeat split; try assumption.
    guard_proj. clear Hrun Hqrun Hr Hrq Hr0 Hr1 Hroom.
    assert (Hdn1 : dn ≠ 1%nat) by congruence.
    assert (Hdn2 : dn ≠ 2%nat) by congruence.
    guard_table.
  - right. right. split; [lia|]. subst p2. guard_free Hdn. guard_free Hout.
    exists dn, out. repeat split; try assumption.
    guard_proj. clear Hrun Hqrun Hr Hrq Hr0 Hr1 Hroom.
    assert (dn ≠ 1%nat ∧ dn ≠ 2%nat ∧ out ≠ 1%nat ∧ out ≠ 2%nat)
      as (? & ? & ? & ?) by (repeat split; congruence).
    guard_table.
Qed.

(** Running out of descriptors while the guard sets up: with fewer than
    five to spare the [with] statement raises [OSError] before the guarded
    block is run, whatever the block is.  Descriptors 1 and 2 refer to
    their original descriptions afterwards and nothing that was open has
    been closed, but not everything the setup opened is closed again: with
    one, three or four descriptors to spare, one, one or two of them stay
    open. *)
Theorem suppress_output_setup_failure p d1 d2 :
  Guard.fds p !! 1%nat = Some d1 → Guard.fds p !! 2%nat = Some d2 →
  (2 < Guard.limit p)%nat → (Guard.room p < 5)%nat →
  ∃ p',
    (∀ body, Guard.suppress_output true body p =
             (Guard.Raised (Guard.OSError "EMFILE"), p')) ∧
    Guard.fds p' !! 1%nat = Some d1 ∧ Guard.fds p' !! 2%nat = Some d2 ∧
    Guard.fds p ⊆ Guard.fds p' ∧
    Guard.sink p' = Guard.sink p ∧
    Guard.room p' =
      match Guard.room p with
      | 1 => 0
      | 3 | 4 => 2
      | r => r
      end%nat.
Proof.
  intros H1 H2 Hlim Hroom.
  destruct (guard_setup_fails p d1 d2 H1 H2 Hlim Hroom)
    as (p' & Hrun & Hl & Hs & _ & Hcases).
  exists p'. split; [exact Hrun|].
  destruct Hcases as [(Hr & ->)|[(Hr & oo & Hoo & Hoo_lt & _ & Hfds)
    |[(Hr & _ & Hfds)|[(Hr & dn & Hdn & Hdn_lt & _ & Hfds)
    |(Hr & dn & out & Hdn & Hdn_lt & Hout & Hout_lt & Hne & _ & Hfds)]]]].
  - rewrite Hr. by split_and!.
  - assert (oo ≠ 1%nat ∧ oo ≠ 2%nat) as (? & ?) by (split; congruence).
    rewrite Hfds, Hr. split_and!; try guard_lookup.
    + by apply insert_subseteq.
    + pose proof (guard_room_insert_free p oo d1 Hoo Hoo_lt) as Hins.
      rewrite (guard_room_fds p' (Guard.set_fds (<[oo:=d1]> (Guard.fds p)) p))
        by (guard_proj; assumption). lia.
  - rewrite Hfds, Hr. split_and!; try done.
    rewrite <- Hr. by apply guard_room_fds.
  - assert (dn ≠ 1%nat ∧ dn ≠ 2%nat) as (? & ?) by (split; congruence).
    rewrite Hfds, Hr. split_and!; try guard_lookup.
    + by apply insert_subseteq.
    + pose proof (guard_room_insert_free p dn Guard.DevNull Hdn Hdn_lt) as Hins.
      rewrite (guard_room_fds p'
                 (Guard.set_fds (<[dn:=Guard.DevNull]> (Guard.fds p)) p))
        by (guard_proj; assumption). lia.
  - assert (dn ≠ 1%nat ∧ dn ≠ 2%nat ∧ out ≠ 1%nat ∧ out ≠ 2%nat)
      as (? & ? & ? & ?) by (repeat split; congruence).
    rewrite Hfds, Hr. split_and!; try guard_lookup.
    + etrans; [apply (insert_subseteq _ dn Guard.DevNull Hdn)|].
      apply insert_subseteq. by rewrite lookup_insert_ne.
    + pose proof (guard_room_insert_free p dn Guard.DevNull Hdn Hdn_lt) as Hins.
      pose proof (guard_room_insert_free
                    (Guard.set_fds (<[dn:=Guard.DevNull]> (Guard.fds p)) p)
                    out Guard.DevNull
                    ltac:(guard_proj; by rewrite lookup_insert_ne)
                    Hout_lt) as Hins'.
      rewrite (guard_room_fds p'
                 (Guard.set_fds
                    (<[out:=Guard.DevNull]>
                       (Guard.fds (Guard.set_fds
                          (<[dn:=Guard.DevNull]> (Guard.fds p)) p)))
                    (Guard.set_fds (<[dn:=Guard.DevNull]> (Guard.fds p)) p)))
        by (guard_proj; assumption). lia.
Qed.

(** With exactly four descriptors to spare the failed setup leaves
    Python's [sys.stdout] bound to the [/dev/null] file it had just opened:
    the [with] statement raises [OSError] without running the block, and
    whatever is printed afterwards is lost. *)
Theorem suppress_output_stdout_stays_redirected p d1 d2 :
  Guard.fds p !! 1%nat = Some d1 → Guard.fds p !! 2%nat = Some d2 →
  (2 < Guard.limit p)%nat → Guard.room p = 4%nat →
  ∃ p',
    (∀ body, Guard.suppress_output true body p =
             (Guard.Raised (Guard.OSError "EMFILE"), p')) ∧
    Guard.fds p !! Guard.fileno (Guard.sys_stdout p') = None ∧
    ∀ text,
      Guard.emit (Guard.PyPrint text) p' =
      (Guard.Done tt,
       Guard.set_sink (Guard.sink p' ++ [(Guard.DevNull, text)])%list p').
Proof.
  intros H1 H2 Hlim Hroom.
  destruct (guard_setup_fails p d1 d2 H1 H2 Hlim ltac:(lia))
    as (p' & Hrun & _ & _ & _ & Hcases).
  exists p'. split; [exact Hrun|].
  destruct Hcases as [(Hr & _)|[(Hr & _)|[(Hr & _)|[(Hr & _)
    |(_ & dn & out & Hdn & _ & Hout & _ & Hne & Hso & Hfds)]]]];
    try (rewrite Hroom in Hr; discriminate).
  rewrite Hso. guard_proj. split; [exact Hout|].
  intros text. cbn [Guard.emit].
  erewrite guard_bind_done by reflexivity.
  unfold Guard.os_write. by rewrite Hso, Hfds, lookup_insert_eq.
Qed.

Lemma suppress_output_silences_witness :
  Guard.suppress_output true
    (Guard.run_block
       {| Guard.output := [Guard.Println "Playing hand"; Guard.PyPrint "debug"];
          Guard.raised := Some (Guard.NotException "KeyboardInterrupt") |})
    (Guard.from_shell 16) =
  (Guard.Raised (Guard.NotException "KeyboardInterrupt"),
   Guard.set_sink
     [(Guard.DevNull, "Playing hand"); (Guard.DevNull, "debug")]
     (Guard.from_shell 16)).
Proof.
  apply (suppress_output_silences (Guard.from_shell 16)
           {| Guard.output := [Guard.Println "Playing hand"; Guard.PyPrint "debug"];
              Guard.raised := Some (Guard.NotException "KeyboardInterrupt") |}
           (Guard.Inherited 1) (Guard.Inherited 2)).
  - vm_compute. reflexivity.
  - vm_compute. reflexivity.
  - vm_compute. lia.
Defined.

Lemma suppress_output_setup_failure_witness :
  ∃ p',
    Guard.suppress_output true (mret tt) (Guard.from_shell 6) =
      (Guard.Raised (Guard.OSError "EMFILE"), p') ∧
    Guard.room (Guard.from_shell 6) = 3%nat ∧ Guard.room p' = 2%nat.
Proof.
  destruct (suppress_output_setup_failure (Guard.from_shell 6)
              (Guard.Inherited 1) (Guard.Inherited 2))
    as (p' & Hrun & _ & _ & _ & _ & Hroom).
  - vm_compute. reflexivity.
  - vm_compute. reflexivity.
  - vm_compute. lia.
  - vm_compute. lia.
  - exists p'. split; [apply Hrun|]. split; [vm_compute; reflexivity|].
    rewrite Hroom. vm_compute. reflexivity.
Defined.

Lemma suppress_output_stdout_stays_redirected_witness :
  ∃ p',
    Guard.suppress_output true (mret tt) (Guard.from_shell 7) =
      (Guard.Raised (Guard.OSError "EMFILE"), p') ∧
    Guard.emit (Guard.PyPrint "Episode finished") p' =
      (Guard.Done tt,
       Guard.set_sink
         (Guard.sink p' ++ [(Guard.DevNull, "Episode finished")])%list p').
Proof.
  destruct (suppress_output_stdout_stays_redirected (Guard.from_shell 7)
              (Guard.Inherited 1) (Guard.Inherited 2))
    as (p' & Hrun & _ & Hprint).
  - vm_compute. reflexivity.
  - vm_compute. reflexivity.
  - vm_compute. lia.
  - vm_compute. reflexivity.
  - exists p'. split; [apply Hrun | apply Hprint].
Defined.

(** ** [step] in its process *)

(** Printing never raises. *)
Lemma guard_emit_all_done os : ∀ p, ∃ p', Guard.emit_all os p = (Guard.Done tt, p').
Proof.
  induction os as [|o rest IH]; intros p; [by eexists|].
  cbn [Guard.emit_all].
  assert (Hemit : ∃ p1, Guard.emit o p = (Guard.Done tt, p1)).
  { destruct o; cbn [Guard.emit];
      unfold mbind, Guard.io_bind, Guard.get_sys_stdout, Guard.get_sys_stderr,
        Guard.os_write;
      destruct (Guard.fds p !! _); by eexists. }
  destruct Hemit as (p1 & Hemit).
  rewrite (guard_bind_done _ _ _ _ _ Hemit). apply IH.
Qed.

(** A block that ends with an exception raises it. *)
Lemma guard_run_block_raises b e p :
  Guard.raised b = Some e → ∃ p', Guard.run_block b p = (Guard.Raised e, p').
Proof.
  intros Hb. unfold Guard.run_block.
  destruct (guard_emit_all_done (Guard.output b) p) as (p1 & Hemit).
  rewrite (guard_bind_done _ _ _ _ _ Hemit), Hb. by eexists.
Qed.

Lemma guard_run_block_returns b p :
  Guard.raised b = None → ∃ p', Guard.run_block b p = (Guard.Done tt, p').
Proof.
  intros Hb. unfold Guard.run_block.
  destruct (guard_emit_all_done (Guard.output b) p) as (p1 & Hemit).
  rewrite (guard_bind_done _ _ _ _ _ Hemit), Hb. by eexists.
Qed.

Lemma guard_bind_raises {A B} (m : Guard.Io A) (k : A → Guard.Io B) p :
  (∀ a p1, m p = (Guard.Done a, p1) → ∃ e q, k a p1 = (Guard.Raised e, q)) →
  ∃ e q, (m ≫= k) p = (Guard.Raised e, q).
Proof.
  intros Hk. unfold mbind, Guard.io_bind.
  destruct (m p) as [[a|e] p1]; [by apply Hk | by eexists _, _].
Qed.

(** The recovery handler always raises the exception again. *)
Lemma guard_recover_raises oo oe e q :
  ∃ q', Guard.recover oo oe e q = (Guard.Raised e, q').
Proof.
  unfold Guard.recover. unfold mbind at 1, Guard.io_bind at 1.
  unfold Guard.try_except_pass.
  destruct ((Guard.os_dup2 oo 1;; Guard.os_dup2 oe 2;;
             Guard.os_close oo;; Guard.os_close oe) q) as [[[]|e'] q1];
    by eexists.
Qed.

Lemma guard_redirected_raises oo oe (body : Guard.Io unit) p :
  (∀ q, ∃ e q', body q = (Guard.Raised e, q')) →
  ∃ e q, Guard.redirected oo oe body p = (Guard.Raised e, q).
Proof.
  intros Hbody. unfold Guard.redirected.
  repeat (apply guard_bind_raises; intros ? ? _).
  unfold Guard.try_finally.
  match goal with |- context [body ?q] => destruct (Hbody q) as (e & q' & ->) end.
  destruct (Guard.restore _ _ _ _ _ q') as [[[]|e'] q2]; by eexists _, _.
Qed.

(** A block that raises makes the [with] statement raise, in any process
    and in either mode. *)
Lemma guard_suppress_raises quiet (body : Guard.Io unit) p :
  (∀ q, ∃ e q', body q = (Guard.Raised e, q')) →
  ∃ e q, Guard.suppress_output quiet body p = (Guard.Raised e, q).
Proof.
  intros Hbody. destruct quiet; [|apply Hbody]. unfold Guard.suppress_output.
  apply guard_bind_raises. intros oo p1 _.
  apply guard_bind_raises. intros oe p2 _.
  destruct (guard_redirected_raises oo oe body p2 Hbody) as (e & q & Hr).
  unfold Guard.try_except_Exception. rewrite Hr.
  destruct (Guard.is_Exception e); [|by eexists _, _].
  destruct (guard_recover_raises oo oe e q) as (q' & ->). by eexists _, _.
Qed.

Lemma guard_block_done quiet b p u p' :
  Guard.suppress_output quiet (Guard.run_block b) p = (Guard.Done u, p') →
  Guard.raised b = None.
Proof.
  intros Hdone. destruct (Guard.raised b) as [e|] eqn:Hb; [|reflexivity].
  destruct (guard_suppress_raises quiet (Guard.run_block b) p) as (e' & q & Hr).
  - intros q. destruct (guard_run_block_raises b e q Hb) as (q' & ->).
    by eexists _, _.
  - rewrite Hr in Hdone. discriminate.
Qed.

(** The tracking block keeps the baselines of a started blind. *)
Lemma update_tracking_baselines {E} `{Engine E} (st : Env E) e sr st1 :
  update_tracking st e sr = Ok st1 → baselines_set st → baselines_set st1.
Proof.
  unfold baselines_set.
  tracking_cases; intros [= <-] || discriminate; cbn;
    intros Hb; intros; try done; eauto; try (apply Hb; done).
Qed.

Section GuardedProperties.
Context {E : Type} `{Engine E} `{EngineEffects E}.
Implicit Types (st : Env E) (p : Guard.Proc) (action : Z).

(** When the guarded engine call raises, so does [step], with the counter
    already incremented. *)
Lemma step_guarded_raised p st action exn p' :
  Guard.suppress_output (quiet st)
    (Guard.run_block (engine_block st (Some (effective_action st action)))) p
    = (Guard.Raised exn, p') →
  step_guarded action (p, st) =
    (Guard.Raised exn, (p', set_step_count (step_count st + 1) st)).
Proof.
  intros Hguard. unfold step_guarded, effective_action in *.
  change (last_valid_actions (set_step_count (step_count st + 1) st))
    with (last_valid_actions st).
  destruct (map_action action (last_valid_actions st)) as [mapped pen].
  cbn [fst] in Hguard.
  change (quiet (set_step_count (step_count st + 1) st)) with (quiet st).
  change (engine_block (set_step_count (step_count st + 1) st) (Some mapped))
    with (engine_block st (Some mapped)).
  by rewrite Hguard.
Qed.

(** When the guarded engine call returns, [step] goes on as [step] does. *)
Lemma step_guarded_returned p st action u p' st' out :
  Guard.suppress_output (quiet st)
    (Guard.run_block (engine_block st (Some (effective_action st action)))) p
    = (Guard.Done u, p') →
  step st action = Ok (st', out) →
  step_guarded action (p, st) = (Guard.Done out, (p', st')).
Proof.
  intros Hguard Hstep. unfold step_guarded, step, effective_action in *.
  change (last_valid_actions (set_step_count (step_count st + 1) st))
    with (last_valid_actions st) in *.
  destruct (map_action action (last_valid_actions st)) as [mapped pen].
  cbn [fst] in Hguard.
  change (quiet (set_step_count (step_count st + 1) st)) with (quiet st).
  change (engine_block (set_step_count (step_count st + 1) st) (Some mapped))
    with (engine_block st (Some mapped)).
  rewrite Hguard.
  change (engine (set_step_count (step_count st + 1) st)) with (engine st) in *.
  destruct (engine st) as [e|]; [|discriminate Hstep].
  unfold getattr in Hstep. rewrite bind_ok in Hstep.
  destruct (engine_step e (Some mapped)) as [sr e1].
  destruct (update_tracking _ e1 sr) as [st2|err]; [|discriminate Hstep].
  rewrite bind_ok in Hstep. by injection Hstep as <- <-.
Qed.

(** With an engine and the baselines of a started blind, everything
    [step] does from the engine's answer on returns. *)
Lemma step_after_engine st action e :
  baselines_set st → engine st = Some e →
  ∃ st' out, step st action = Ok (st', out) ∧ baselines_set st'.
Proof.
  intros Hb He.
  destruct (engine_step e (Some (effective_action st action)))
    as [sr e1] eqn:Hcall.
  assert (Hans : engine_answer st action = Some (sr, e1)).
  { unfold engine_answer. rewrite He. cbn. by rewrite Hcall. }
  destruct (update_tracking_returns (tracked st e1) e1 sr Hb) as [st1 Htr].
  destruct (step_returns _ _ _ _ _ Hans Htr) as (out & Hstep & _).
  exists (finish_step st1 sr), out. split; [exact Hstep|].
  exact (update_tracking_baselines _ _ _ _ Htr Hb).
Qed.

(** [step] in its process raises exactly when the guarded engine call
    does, with the same exception, and then leaves the environment as it
    was but for the step counter, which is already incremented; nothing
    after the engine call raises.  For every process state and every
    environment whose started blind has its baselines (as holds from
    construction on): if the [with] statement around [engine.step] raises,
    be it for want of descriptors, for want of an engine or by the engine
    itself, [step] raises that exception; if it returns, the engine was
    there and did not raise, and [step] returns what it computes from the
    engine's answer, on an environment that again has its baselines. *)
Theorem step_guarded_outcome p st action :
  baselines_set st →
  let st1 := set_step_count (step_count st + 1) st in
  let a := Some (effective_action st action) in
  ∃ r p',
    Guard.suppress_output (quiet st) (Guard.run_block (engine_block st a)) p
      = (r, p') ∧
    match r with
    | Guard.Raised exn =>
        step_guarded action (p, st) = (Guard.Raised exn, (p', st1))
    | Guard.Done _ =>
        ∃ e st' out,
          engine st = Some e ∧ engine_raises e a = None ∧
          step st action = Ok (st', out) ∧
          step_guarded action (p, st) = (Guard.Done out, (p', st')) ∧
          baselines_set st'
    end.
Proof.
  intros Hb. cbv zeta.
  destruct (Guard.suppress_output (quiet st)
              (Guard.run_block
                 (engine_block st (Some (effective_action st action)))) p)
    as [[u|exn] p'] eqn:Hguard; eexists _, p'; (split; [reflexivity|]).
  - pose proof (guard_block_done _ _ _ _ _ Hguard) as Hnone.
    unfold engine_block in Hnone.
    destruct (engine st) as [e|] eqn:He; [|discriminate Hnone].
    cbn [Guard.raised] in Hnone.
    destruct (step_after_engine st action e Hb He) as (st' & out & Hstep & Hb').
    exists e, st', out. split_and!; try done.
    by eapply step_guarded_returned.
  - by apply step_guarded_raised.
Qed.

End GuardedProperties.

(** The guard in quiet mode around a block, with five descriptors to
    spare. *)
Lemma guard_block_silenced p b d1 d2 :
  Guard.fds p !! 1%nat = Some d1 →
  Guard.fds p !! 2%nat = Some d2 →
  (5 ≤ Guard.room p)%nat →
  Guard.suppress_output true (Guard.run_block b) p =
  (match Guard.raised b with
   | Some e => Guard.Raised e
   | None => Guard.Done tt
   end,
   Guard.set_sink
     (Guard.sink p ++
      ((λ o, (Guard.DevNull, Guard.text_of o)) <$> Guard.output b))%list p).
Proof.
  intros H1 H2 Hroom.
  destruct (guard_entry p d1 d2 H1 H2 ltac:(lia))
    as (oo & oe & Hoo & Hoe & Hoo_lt & Hoe_lt & Hnd & Hr & Hrun).
  cbv zeta in Hr. rewrite Hrun. clear Hrun.
  unfold Guard.try_except_Exception.
  pose proof Hnd as Hnd'. guard_nodup Hnd'.
  erewrite guard_redirected_done with (d1 := d1) (d2 := d2) (x1 := d1) (x2 := d2);
    [ | guard_lookup | guard_lookup | guard_lookup | guard_lookup
      | exact Hnd | lia ].
  guard_proj. rewrite guard_table_restored by assumption.
  assert (Hstate : ∀ s,
    Guard.set_sink s (Guard.set_fds (Guard.fds p)
      (Guard.set_fds (<[oe:=d2]> (<[oo:=d1]> (Guard.fds p))) p)) =
    Guard.set_sink s p) by (intros s; by destruct p).
  rewrite Hstate.
  destruct (Guard.raised b) as [e|]; [|reflexivity].
  destruct (Guard.is_Exception e); [|reflexivity].
  apply guard_recover_closed. guard_proj. exact Hoo.
Qed.

Section GuardedDescriptors.
Context {E : Type} `{Engine E} `{EngineEffects E}.
Implicit Types (st : Env E) (p : Guard.Proc) (action : Z).

(** [step] in quiet mode, by the descriptors the process has to spare.
    With fewer than five, [step] raises [OSError] whether or not there is
    an engine, before the engine is called, and the counter is
    incremented all the same.  With five or more, what the engine prints
    goes to [/dev/null], the process is otherwise as before, and [step]
    raises [AttributeError] without an engine, raises the engine's exception
    when the engine raises, and returns otherwise. *)
Theorem step_guarded_descriptors p st action d1 d2 :
  baselines_set st → quiet st = true →
  Guard.fds p !! 1%nat = Some d1 → Guard.fds p !! 2%nat = Some d2 →
  (2 < Guard.limit p)%nat →
  let st1 := set_step_count (step_count st + 1) st in
  let a := Some (effective_action st action) in
  let silenced os :=
    Guard.set_sink
      (Guard.sink p ++ ((λ o, (Guard.DevNull, Guard.text_of o)) <$> os))%list
      p in
  ((Guard.room p < 5)%nat →
   ∃ p', step_guarded action (p, st) =
           (Guard.Raised (Guard.OSError "EMFILE"), (p', st1)) ∧
         Guard.sink p' = Guard.sink p) ∧
  ((5 ≤ Guard.room p)%nat →
   match engine st with
   | None =>
       step_guarded action (p, st) =
         (Guard.Raised (Guard.OtherException "AttributeError"),
          (silenced [], st1))
   | Some e =>
       match engine_raises e a with
       | Some exn =>
           step_guarded action (p, st) =
             (Guard.Raised exn, (silenced (engine_prints e a), st1))
       | None =>
           ∃ st' out,
             step st action = Ok (st', out) ∧
             step_guarded action (p, st) =
               (Guard.Done out, (silenced (engine_prints e a), st'))
       end
   end).
Proof.
  intros Hb Hquiet H1 H2 Hlim. cbv zeta. split.
  - intros Hroom.
    destruct (guard_setup_fails p d1 d2 H1 H2 Hlim Hroom)
      as (p' & Hrun & _ & Hsink & _).
    exists p'. split; [|exact Hsink].
    apply step_guarded_raised. rewrite Hquiet. apply Hrun.
  - intros Hroom.
    pose proof (guard_block_silenced p
                  (engine_block st (Some (effective_action st action)))
                  d1 d2 H1 H2 Hroom) as Hguard.
    rewrite <- Hquiet in Hguard at 1.
    unfold engine_block in Hguard.
    destruct (engine st) as [e|] eqn:He;
      cbn [Guard.raised Guard.output] in Hguard.
    + destruct (engine_raises e (Some (effective_action st action)))
        as [exn|] eqn:Hexn.
      * apply step_guarded_raised. unfold engine_block. by rewrite He, Hexn.
      * destruct (step_after_engine st action e Hb He)
          as (st' & out & Hstep & _).
        exists st', out. split; [exact Hstep|].
        eapply step_guarded_returned; [|exact Hstep].
        unfold engine_block. rewrite He, Hexn. exact Hguard.
    + apply step_guarded_raised. unfold engine_block. by rewrite He.
Qed.

End GuardedDescriptors.

Lemma scripted_baselines : baselines_set Scripted.at_playing.
Proof. intros _. split; by eexists. Qed.

Lemma step_guarded_outcome_witness :
  ∃ p' st' out,
    step_guarded 2 (Guard.from_shell 16, Scripted.at_playing) =
      (Guard.Done out, (p', st')) ∧
    step Scripted.at_playing 2 = Ok (st', out) ∧
    Guard.sink p' = [(Guard.DevNull, "scripted engine: step")].
Proof.
  destruct (step_guarded_outcome (Guard.from_shell 16) Scripted.at_playing 2
              scripted_baselines) as (r & p' & Hguard & Hcase).
  cbv zeta in Hguard, Hcase. vm_compute in Hguard. injection Hguard as <- <-.
  destruct Hcase as (e & st' & out & _ & _ & Hstep & Hrun & _).
  eexists _, st', out. split; [exact Hrun|]. split; [exact Hstep|].
  reflexivity.
Defined.

Lemma step_guarded_descriptors_witness :
  is_Some (engine Scripted.at_playing) ∧
  ∃ p',
    step_guarded 2 (Guard.from_shell 3, Scripted.at_playing) =
      (Guard.Raised (Guard.OSError "EMFILE"),
       (p', set_step_count (step_count Scripted.at_playing + 1)
              Scripted.at_playing)).
Proof.
  split; [by eexists|].
  destruct (step_guarded_descriptors (Guard.from_shell 3) Scripted.at_playing 2
              (Guard.Inherited 1) (Guard.Inherited 2)) as (Hfew & _).
  - exact scripted_baselines.
  - reflexivity.
  - vm_compute. reflexivity.
  - vm_compute. reflexivity.
  - vm_compute. lia.
  - destruct Hfew as (p' & Hrun & _); [vm_compute; lia|]. by exists p'.
Defined.

(** ** [reset], the info dictionaries and the guard against the specification *)

Section InfoProperties.
Context {E : Type} `{Engine E}.
Implicit Types (st : Env E) (sr : StepResult) (action : Z).

(** C9, as the code has it: the info of [step] holds all nine documented
    fields, with [valid_actions] the action indices of the step result just
    received, which are also the list cached for the next call; the info of
    [reset] holds [phase], [status] and [valid_actions] (the action indices
    of the probe) and no other key: [score], [money], [action_mapped],
    [original_action], [mapped_action] and [finished] are missing. *)
Theorem info_fields_returned st :
  (∀ action st' out, step st action = Ok (st', out) →
     ∃ sr e1, engine_answer st action = Some (sr, e1) ∧
       info_complete (info out) ∧
       info out !! "valid_actions" = Some (VList (action_indices sr)) ∧
       last_valid_actions st' = action_indices sr) ∧
  (∀ seed0 st' obs inf, reset st seed0 = Ok (st', (obs, inf)) →
     ∃ sr e1, probe_answer st seed0 = Some (sr, e1) ∧
       (∀ key, is_Some (inf !! key) ↔
               key ∈ ["phase"; "status"; "valid_actions"]) ∧
       inf !! "valid_actions" = Some (VList (action_indices sr)) ∧
       last_valid_actions st' = action_indices sr).
Proof.
  split.
  - intros action st' out Hstep.
    destruct (step_inv_answer _ _ _ _ Hstep) as (sr & e1 & st1 & Hans & _ & ->).
    exists sr, e1. split; [exact Hans|].
    rewrite (step_info _ _ _ _ _ _ Hstep Hans).
    split; [|split; [by simplify_map_eq|reflexivity]].
    intros key Hkey. unfold info_fields in Hkey.
    repeat (apply elem_of_cons in Hkey as [->|Hkey];
            [by simplify_map_eq|]).
    by apply elem_of_nil in Hkey.
  - intros seed0 st' obs inf Hreset.
    destruct (reset_inv _ _ _ _ Hreset) as (e & sr & e1 & Hans & -> & [= _ ->]).
    exists sr, e1. split; [exact Hans|].
    split; [|split; [by simplify_map_eq|reflexivity]].
    intros key. unfold reset_info.
    rewrite !elem_of_cons, elem_of_nil. split.
    + intros [v Hv].
      repeat (apply lookup_insert_Some in Hv as [[<- _]|[_ Hv]]; [tauto|]).
      by rewrite lookup_empty in Hv.
    + intros [->|[->|[->|[]]]]; by simplify_map_eq.
Qed.

End InfoProperties.

(** C9, witness: the first [reset] of an environment and a step in the
    [Playing] phase both return, the former with a three-key info. *)
Lemma info_fields_returned_witness :
  (∃ st' out, step Scripted.at_playing 2 = Ok (st', out) ∧
              info_complete (info out)) ∧
  (∃ st' obs inf, reset (Scripted.env "Red") None = Ok (st', (obs, inf)) ∧
                  ¬ is_Some (inf !! "score")).
Proof.
  split.
  - assert (Hok : match step Scripted.at_playing 2 with
                  | Ok _ => true
                  | Raise _ => false
                  end = true)
      by (vm_compute; reflexivity).
    destruct (step Scripted.at_playing 2) as [[st' out]|e] eqn:Hstep;
      [|discriminate Hok].
    exists st', out. split; [reflexivity|].
    destruct (proj1 (info_fields_returned Scripted.at_playing) _ _ _ Hstep)
      as (sr & e1 & _ & Hc & _).
    exact Hc.
  - assert (Hok : match reset (Scripted.env "Red") None with
                  | Ok _ => true
                  | Raise _ => false
                  end = true)
      by (vm_compute; reflexivity).
    destruct (reset (Scripted.env "Red") None) as [[st' [obs inf]]|e] eqn:Hreset;
      [|discriminate Hok].
    exists st', obs, inf. split; [reflexivity|].
    destruct (proj2 (info_fields_returned (Scripted.env "Red")) _ _ _ _ Hreset)
      as (sr & e1 & _ & Hkeys & _).
    intros Hsome. apply Hkeys in Hsome.
    repeat (apply elem_of_cons in Hsome as [Hsome|Hsome]; [discriminate Hsome|]).
    by apply elem_of_nil in Hsome.
Defined.

(** C9, the specification's statement fails: the info of the first [reset]
    of an environment has no [score] field. *)
Lemma reset_info_counterexample :
  ¬ reset_info_as_stated (Scripted.env "Red") None.
Proof.
  intros Hc.
  assert (Hz : match reset (Scripted.env "Red") None with
               | Ok (_, (_, inf)) => Some (inf !! "score")
               | Raise _ => None
               end = Some None)
    by (vm_compute; reflexivity).
  destruct (reset (Scripted.env "Red") None) as [[st' [obs inf]]|e] eqn:Hreset;
    [|discriminate Hz].
  injection Hz as Hz.
  destruct (Hc _ _ _ Hreset "score") as [v Hv].
  - unfold info_fields. do 3 apply list_elem_of_further. apply list_elem_of_here.
  - rewrite Hz in Hv. discriminate Hv.
Qed.

(** C5, the specification's statement fails: a [reset] after a finished
    blind leaves [blind_started] set. *)
Lemma reset_restores_counterexample :
  ¬ reset_restores_as_stated Scripted.at_round_end None.
Proof.
  intros Hc.
  assert (Hz : match reset Scripted.at_round_end None with
               | Ok (st', _) => Some (blind_started st')
               | Raise _ => None
               end = Some true)
    by (vm_compute; reflexivity).
  assert (Hans : probe_answer Scripted.at_round_end None =
                 Some (Scripted.current Scripted.one_blind, Scripted.one_blind))
    by (vm_compute; reflexivity).
  destruct (reset Scripted.at_round_end None) as [[st' out]|e] eqn:Hreset;
    [|discriminate Hz].
  injection Hz as Hz.
  destruct (Hc _ _ _ _ Hreset Hans) as (_ & _ & _ & _ & _ & _ & _ & Hs & _).
  rewrite Hz in Hs. discriminate Hs.
Qed.

(** C5, the defect at the failing input.  The same [reset()] is called on
    a newly constructed environment and on the environment that has just
    finished a blind (the episode ended in [RoundEnd]).  Both calls return,
    with the score, the money and the step count at zero and the probe's
    phase and actions cached; but the second leaves [blind_started] and
    [blind_finished] set, and the observation it returns reports 1.0 for
    both flags in [game_info], where the first reports 0.0. *)
Theorem reset_keeps_blind_flags :
  blind_started (Scripted.env "Red") = false ∧
  blind_finished (Scripted.env "Red") = false ∧
  blind_started Scripted.at_round_end = true ∧
  blind_finished Scripted.at_round_end = true ∧
  ∃ st0 obs0 inf0 st1 obs1 inf1,
    reset (Scripted.env "Red") None = Ok (st0, (obs0, inf0)) ∧
    reset Scripted.at_round_end None = Ok (st1, (obs1, inf1)) ∧
    (step_count st1 = 0 ∧ current_score st1 = 0%Q ∧ current_money st1 = 0%Q ∧
     previous_score st1 = 0%Q ∧ previous_money st1 = 0%Q ∧
     prev_phase st1 = Some "BlindSelect" ∧
     last_valid_actions st1 = [0; 1]%nat) ∧
    (blind_started st0 = false ∧ blind_finished st0 = false ∧
     game_info obs0 !! 6%nat = Some (F32Fin 0) ∧
     game_info obs0 !! 7%nat = Some (F32Fin 0)) ∧
    (blind_started st1 = true ∧ blind_finished st1 = true ∧
     game_info obs1 !! 6%nat = Some (F32Fin 1) ∧
     game_info obs1 !! 7%nat = Some (F32Fin 1)).
Proof.
  split; [reflexivity|]. split; [reflexivity|].
  split; [reflexivity|]. split; [reflexivity|].
  assert (Hz0 : match reset (Scripted.env "Red") None with
                | Ok (st0, (obs0, _)) =>
                    Some (blind_started st0, blind_finished st0,
                          game_info obs0 !! 6%nat, game_info obs0 !! 7%nat)
                | Raise _ => None
                end = Some (false, false, Some (F32Fin 0), Some (F32Fin 0)))
    by (vm_compute; reflexivity).
  assert (Hz1 : match reset Scripted.at_round_end None with
                | Ok (st1, (obs1, _)) =>
                    Some (blind_started st1, blind_finished st1,
                          game_info obs1 !! 6%nat, game_info obs1 !! 7%nat)
                | Raise _ => None
                end = Some (true, true, Some (F32Fin 1), Some (F32Fin 1)))
    by (vm_compute; reflexivity).
  assert (Hans : probe_answer Scripted.at_round_end None =
                 Some (Scripted.current Scripted.one_blind, Scripted.one_blind))
    by (vm_compute; reflexivity).
  destruct (reset (Scripted.env "Red") None) as [[st0 [obs0 inf0]]|e];
    [|discriminate Hz0].
  destruct (reset Scripted.at_round_end None) as [[st1 [obs1 inf1]]|e] eqn:H1;
    [|discriminate Hz1].
  injection Hz0 as Hs0 Hf0 Hg0 Hh0. injection Hz1 as Hs1 Hf1 Hg1 Hh1.
  destruct (reset_inv _ _ _ _ H1) as (e & sr & e1 & Hans' & Hst & _).
  rewrite Hans in Hans'. injection Hans' as <- <-.
  exists st0, obs0, inf0, st1, obs1, inf1.
  split; [reflexivity|]. split; [reflexivity|].
  split; [rewrite Hst; split_and!; reflexivity|].
  split; split_and!; assumption.
Qed.

(** C8, the specification's statement fails: in a process that can open one
    more descriptor, the guard around the engine call of a step leaves the
    descriptor table changed. *)
Lemma guard_restores_counterexample :
  ¬ guard_restores_as_stated (Guard.from_shell 4)
      (Guard.run_block (engine_block Scripted.at_playing (Some 2))).
Proof.
  intros Hc.
  set (body := Guard.run_block (engine_block Scripted.at_playing (Some 2))) in *.
  assert (Hz : (Guard.fds (Guard.suppress_output true body
                             (Guard.from_shell 4)).2) !! 3%nat =
               Some (Guard.Inherited 1))
    by (vm_compute; reflexivity).
  destruct (Guard.suppress_output true body (Guard.from_shell 4))
    as [r p'] eqn:Hrun.
  destruct (Hc _ _ Hrun) as (Hfds & _).
  cbn [snd] in Hz. rewrite Hfds in Hz. vm_compute in Hz. discriminate Hz.
Qed.

(** C8, the defect at the failing inputs: the guard in quiet mode when the
    process runs out of descriptors while the guard sets up, whatever the
    guarded block is.  With room for one descriptor, [os.dup(1)] succeeds
    and [os.dup(2)] fails outside the [try] statement: [OSError] leaves the
    guard and descriptor 3, the duplicate of descriptor 1, stays open.  With
    room for four, the second [open(os.devnull, 'w')] fails: the handler
    restores descriptors 1 and 2 and closes the two duplicates, but the
    two descriptors on [/dev/null] stay open and [sys.stdout] stays bound
    to the second of them.  A [step] in the first process raises [OSError]
    with the engine present, and leaves that descriptor behind. *)
Theorem suppress_output_leaks body :
  Guard.room (Guard.from_shell 4) = 1%nat ∧
  Guard.suppress_output true body (Guard.from_shell 4) =
    (Guard.Raised (Guard.OSError "EMFILE"),
     Guard.set_fds (<[3%nat := Guard.Inherited 1]>
                      (Guard.fds (Guard.from_shell 4)))
       (Guard.from_shell 4)) ∧
  Guard.room (Guard.from_shell 7) = 4%nat ∧
  Guard.suppress_output true body (Guard.from_shell 7) =
    (Guard.Raised (Guard.OSError "EMFILE"),
     Guard.set_sys_stdout {| Guard.fileno := 6 |}
       (Guard.set_fds (<[5%nat := Guard.DevNull]>
                         (<[6%nat := Guard.DevNull]>
                            (Guard.fds (Guard.from_shell 7))))
          (Guard.from_shell 7))) ∧
  is_Some (engine Scripted.at_playing) ∧
  quiet Scripted.at_playing = true ∧
  (step_guarded 2 (Guard.from_shell 4, Scripted.at_playing)).1 =
    Guard.Raised (Guard.OSError "EMFILE") ∧
  (step_guarded 2 (Guard.from_shell 4, Scripted.at_playing)).2.1 =
    Guard.set_fds (<[3%nat := Guard.Inherited 1]>
                     (Guard.fds (Guard.from_shell 4)))
      (Guard.from_shell 4).
Proof.
  split; [reflexivity|]. split; [vm_compute; reflexivity|].
  split; [reflexivity|]. split; [vm_compute; reflexivity|].
  split; [by eexists|]. split; [reflexivity|].
  split; vm_compute; reflexivity.
Qed.
